(** * Column classifier and scan orchestrator: a shallow embedding

    The development follows the Go sources:

    - [pkg/classifier/classifier.go]: [SetPatterns], [ClassifyColumn],
      [calculateConfidenceScore];
    - the classification service ([refreshClassifier], [ClassifyColumn]);
    - [internal/service/scan_service.go]: [StartScan], [performScan],
      [calculateRiskLevel], [GetScanHistory], [CancelScan];
    - [internal/repository/scan_result_repository.go]: the statements the
      scan service sends to the [scan_results] table.

    What the program takes from the Go standard library is modelled first:
    [sort.Slice] (module [GoSort]), [float64] arithmetic (module
    [Float64]), byte strings (module [GoStrings]) and a fragment of
    [regexp] (module [GoRegexp]). *)

From Stdlib Require Import ZArith Ascii String SpecFloat Lia.
From stdpp Require Import base tactics option list sorting strings gmap.

Local Open Scope nat_scope.

(* ===================================================================== *)
(** * [sort.Slice]

    [sort.Slice(x, less)] of Go 1.19 and later runs [pdqsort_func] of
    [sort/zsortfunc.go] on the index interface
    [lessSwap{less, swap}]. The slice is a [list A]; the closure
    [less(i, j)] of the callers reads the slice at the moment of the call,
    so it is a comparison [lt] of the two elements found at [i] and [j]. *)

Module GoSort.

Section Pdqsort.
Context {A : Type}.
Variable lt : A → A → bool.
(** the generator behind [breakPatterns_func] ([xorshift.Next]) *)
Variable xorshift_Next : Z → Z.

(** [data.Less(i, j)] *)
Definition Less (d : list A) (i j : nat) : bool :=
  match d !! i, d !! j with
  | Some x, Some y => lt x y
  | _, _ => false
  end.

(** [data.Swap(i, j)] *)
Definition Swap (d : list A) (i j : nat) : list A :=
  match d !! i, d !! j with
  | Some x, Some y => <[j:=x]> (<[i:=y]> d)
  | _, _ => d
  end.

(** [for j := i; j > a && data.Less(j, j-1); j-- { data.Swap(j, j-1) }] *)
Fixpoint insertionSort_inner (d : list A) (a j : nat) : list A :=
  match j with
  | 0 => d
  | S j' =>
      if (a <? j) && Less d j j'
      then insertionSort_inner (Swap d j j') a j'
      else d
  end.

(** [for i := a + 1; i < b; i++ { ... }], [n] iterations left *)
Fixpoint insertionSort_outer (n : nat) (d : list A) (a i : nat) : list A :=
  match n with
  | 0 => d
  | S n' => insertionSort_outer n' (insertionSort_inner d a i) a (S i)
  end.

Definition insertionSort_func (d : list A) (a b : nat) : list A :=
  insertionSort_outer (b - (a + 1)) d a (a + 1).

(** the [for] loop of [siftDown_func]; [root] grows in every round, so
    [hi] rounds are enough *)
Fixpoint siftDown_loop (fuel : nat) (d : list A) (root hi first : nat) : list A :=
  match fuel with
  | 0 => d
  | S fuel' =>
      let child := 2 * root + 1 in
      if hi <=? child then d
      else
        let child :=
          if (child + 1 <? hi) && Less d (first + child) (first + child + 1)
          then child + 1 else child in
        if negb (Less d (first + root) (first + child)) then d
        else siftDown_loop fuel' (Swap d (first + root) (first + child)) child hi first
  end.

Definition siftDown_func (d : list A) (lo hi first : nat) : list A :=
  siftDown_loop hi d lo hi first.

(** [for i := (hi - 1) / 2; i >= 0; i-- { siftDown_func(data, i, hi, first) }] *)
Fixpoint heapSort_build (d : list A) (i hi first : nat) : list A :=
  let d' := siftDown_func d i hi first in
  match i with
  | 0 => d'
  | S i' => heapSort_build d' i' hi first
  end.

(** [for i := hi - 1; i >= 0; i-- { data.Swap(first, first+i);
    siftDown_func(data, lo, i, first) }], entered with [n = i + 1] *)
Fixpoint heapSort_pop (d : list A) (n first : nat) : list A :=
  match n with
  | 0 => d
  | S i => heapSort_pop (siftDown_func (Swap d first (first + i)) 0 i first) i first
  end.

Definition heapSort_func (d : list A) (a b : nat) : list A :=
  let first := a in
  let hi := b - a in
  heapSort_pop (heapSort_build d ((hi - 1) / 2) hi first) hi first.

(** [for i <= j && data.Less(i, a) { i++ }] *)
Fixpoint partition_up (fuel : nat) (d : list A) (a i j : nat) : nat :=
  match fuel with
  | 0 => i
  | S fuel' =>
      if (i <=? j) && Less d i a then partition_up fuel' d a (S i) j else i
  end.

(** [for i <= j && !data.Less(j, a) { j-- }]; here [1 <= i], so [j]
    stays a natural number *)
Fixpoint partition_down (d : list A) (a i j : nat) : nat :=
  match j with
  | 0 => 0
  | S j' =>
      if (i <=? j) && negb (Less d j a) then partition_down d a i j' else j
  end.

(** the endless [for] of [partition_func]; the result is the slice and
    the final [j] *)
Fixpoint partition_loop (fuel : nat) (d : list A) (a i j : nat) : list A * nat :=
  match fuel with
  | 0 => (d, j)
  | S fuel' =>
      let i := partition_up (S j - i) d a i j in
      let j := partition_down d a i j in
      if j <? i then (d, j)
      else partition_loop fuel' (Swap d i j) a (S i) (j - 1)
  end.

Definition partition_func (d : list A) (a b pivot : nat) : list A * nat * bool :=
  let d := Swap d a pivot in
  let i := a + 1 in
  let j := b - 1 in
  let i := partition_up (S j - i) d a i j in
  let j := partition_down d a i j in
  if j <? i then (Swap d j a, j, true)
  else
    let d := Swap d i j in
    let '(d, j) := partition_loop (b - a) d a (S i) (j - 1) in
    (Swap d j a, j, false).

(** [for i <= j && !data.Less(a, i) { i++ }] *)
Fixpoint partitionEqual_up (fuel : nat) (d : list A) (a i j : nat) : nat :=
  match fuel with
  | 0 => i
  | S fuel' =>
      if (i <=? j) && negb (Less d a i) then partitionEqual_up fuel' d a (S i) j else i
  end.

(** [for i <= j && data.Less(a, j) { j-- }] *)
Fixpoint partitionEqual_down (d : list A) (a i j : nat) : nat :=
  match j with
  | 0 => 0
  | S j' =>
      if (i <=? j) && Less d a j then partitionEqual_down d a i j' else j
  end.

Fixpoint partitionEqual_loop (fuel : nat) (d : list A) (a i j : nat) : list A * nat :=
  match fuel with
  | 0 => (d, i)
  | S fuel' =>
      let i := partitionEqual_up (S j - i) d a i j in
      let j := partitionEqual_down d a i j in
      if j <? i then (d, i)
      else partitionEqual_loop fuel' (Swap d i j) a (S i) (j - 1)
  end.

Definition partitionEqual_func (d : list A) (a b pivot : nat) : list A * nat :=
  let d := Swap d a pivot in
  partitionEqual_loop (S (b - a)) d a (a + 1) (b - 1).

(** [for i < b && !data.Less(i, i-1) { i++ }] *)
Fixpoint partialInsertionSort_scan (fuel : nat) (d : list A) (i b : nat) : nat :=
  match fuel with
  | 0 => i
  | S fuel' =>
      if (i <? b) && negb (Less d i (i - 1))
      then partialInsertionSort_scan fuel' d (S i) b else i
  end.

(** [for j := i - 1; j >= 1; j-- { if !data.Less(j, j-1) { break };
    data.Swap(j, j-1) }] *)
Fixpoint partialInsertionSort_left (d : list A) (j : nat) : list A :=
  match j with
  | 0 => d
  | S j' => if negb (Less d j j') then d else partialInsertionSort_left (Swap d j j') j'
  end.

(** [for j := i + 1; j < b; j++ { if !data.Less(j, j-1) { break };
    data.Swap(j, j-1) }] *)
Fixpoint partialInsertionSort_right (fuel : nat) (d : list A) (j b : nat) : list A :=
  match fuel with
  | 0 => d
  | S fuel' =>
      if b <=? j then d
      else if negb (Less d j (j - 1)) then d
      else partialInsertionSort_right fuel' (Swap d j (j - 1)) (S j) b
  end.

Definition maxSteps := 5.
Definition shortestShifting := 50.

(** [for j := 0; j < maxSteps; j++ { ... }], [steps] rounds left *)
Fixpoint partialInsertionSort_steps (steps : nat) (d : list A) (a b i : nat) : list A * bool :=
  match steps with
  | 0 => (d, false)
  | S steps' =>
      let i := partialInsertionSort_scan (b - i) d i b in
      if i =? b then (d, true)
      else if b - a <? shortestShifting then (d, false)
      else
        let d := Swap d i (i - 1) in
        let d := if 2 <=? i - a then partialInsertionSort_left d (i - 1) else d in
        let d := if 2 <=? b - i then partialInsertionSort_right (b - i) d (i + 1) b else d in
        partialInsertionSort_steps steps' d a b i
  end.

Definition partialInsertionSort_func (d : list A) (a b : nat) : list A * bool :=
  partialInsertionSort_steps maxSteps d a b (a + 1).

(** [bits.Len(uint(n))] *)
Definition bits_Len (n : nat) : nat :=
  match n with 0 => 0 | _ => S (Nat.log2 n) end.

(** [nextPowerOfTwo(length)] *)
Definition nextPowerOfTwo (length : nat) : nat := 2 ^ bits_Len length.

(** the three rounds of [breakPatterns_func]; [random] is the state of
    the generator before the round *)
Fixpoint breakPatterns_loop (n : nat) (d : list A) (a length idx i : nat)
    (random : Z) : list A :=
  match n with
  | 0 => d
  | S n' =>
      let random := xorshift_Next random in
      let other := Z.to_nat (Z.land random (Z.of_nat (nextPowerOfTwo length) - 1)) in
      let other := if length <=? other then other - length else other in
      breakPatterns_loop n' (Swap d (idx - 1 + i) (a + other)) a length idx (S i) random
  end.

Definition breakPatterns_func (d : list A) (a b : nat) : list A :=
  let length := b - a in
  if 8 <=? length then
    let idx := a + (length / 4) * 2 in
    breakPatterns_loop 3 d a length idx 0 (Z.of_nat length)
  else d.

Inductive sortedHint := unknownHint | increasingHint | decreasingHint.

(** [order2_func]: the pair of indices in order, and the count of swaps *)
Definition order2_func (d : list A) (a b swaps : nat) : nat * nat * nat :=
  if Less d b a then (b, a, S swaps) else (a, b, swaps).

Definition median_func (d : list A) (a b c swaps : nat) : nat * nat :=
  let '(a, b, swaps) := order2_func d a b swaps in
  let '(b, c, swaps) := order2_func d b c swaps in
  let '(a, b, swaps) := order2_func d a b swaps in
  (b, swaps).

Definition medianAdjacent_func (d : list A) (a swaps : nat) : nat * nat :=
  median_func d (a - 1) a (a + 1) swaps.

Definition shortestNinther := 50.
Definition maxSwaps := 4 * 3.

Definition choosePivot_func (d : list A) (a b : nat) : nat * sortedHint :=
  let l := b - a in
  let swaps := 0 in
  let i := a + l / 4 * 1 in
  let j := a + l / 4 * 2 in
  let k := a + l / 4 * 3 in
  let '(j, swaps) :=
    if 8 <=? l then
      let '(i, j, k, swaps) :=
        if shortestNinther <=? l then
          let '(i, swaps) := medianAdjacent_func d i swaps in
          let '(j, swaps) := medianAdjacent_func d j swaps in
          let '(k, swaps) := medianAdjacent_func d k swaps in
          (i, j, k, swaps)
        else (i, j, k, swaps) in
      median_func d i j k swaps
    else (j, swaps) in
  if swaps =? 0 then (j, increasingHint)
  else if swaps =? maxSwaps then (j, decreasingHint)
  else (j, unknownHint).

(** [for i < j { data.Swap(i, j); i++; j-- }] *)
Fixpoint reverseRange_loop (fuel : nat) (d : list A) (i j : nat) : list A :=
  match fuel with
  | 0 => d
  | S fuel' =>
      if i <? j then reverseRange_loop fuel' (Swap d i j) (S i) (j - 1) else d
  end.

Definition reverseRange_func (d : list A) (a b : nat) : list A :=
  reverseRange_loop (b - a) d a (b - 1).

Definition maxInsertion := 12.

(** [pdqsort_func(data, a, b, limit)]. One unfolding is one round of the
    outer [for]; the recursive call of the source and the next round of
    the loop are both calls of [pdqsort_loop]. The range shrinks in every
    round, so [b - a + 1] units of [fuel] are enough. *)
Fixpoint pdqsort_loop (fuel : nat) (d : list A) (a b limit : nat)
    (wasBalanced wasPartitioned : bool) : list A :=
  match fuel with
  | 0 => d
  | S fuel' =>
      let length := b - a in
      if length <=? maxInsertion then insertionSort_func d a b
      else if limit =? 0 then heapSort_func d a b
      else
        let '(d, limit) :=
          if negb wasBalanced then (breakPatterns_func d a b, limit - 1)
          else (d, limit) in
        let '(pivot, hint) := choosePivot_func d a b in
        let '(d, pivot, hint) :=
          match hint with
          | decreasingHint =>
              (reverseRange_func d a b, (b - 1) - (pivot - a), increasingHint)
          | _ => (d, pivot, hint)
          end in
        let '(d, done) :=
          match hint with
          | increasingHint =>
              if wasBalanced && wasPartitioned
              then partialInsertionSort_func d a b else (d, false)
          | _ => (d, false)
          end in
        if done then d
        else if (0 <? a) && negb (Less d (a - 1) pivot) then
          let '(d, mid) := partitionEqual_func d a b pivot in
          pdqsort_loop fuel' d mid b limit wasBalanced wasPartitioned
        else
          let '(d, mid, alreadyPartitioned) := partition_func d a b pivot in
          let leftLen := mid - a in
          let rightLen := b - mid in
          let balanceThreshold := length / 8 in
          if leftLen <? rightLen then
            let d := pdqsort_loop fuel' d a mid limit true true in
            pdqsort_loop fuel' d (mid + 1) b limit
              (balanceThreshold <=? leftLen) alreadyPartitioned
          else
            let d := pdqsort_loop fuel' d (mid + 1) b limit true true in
            pdqsort_loop fuel' d a mid limit
              (balanceThreshold <=? rightLen) alreadyPartitioned
  end.

Definition pdqsort_func (d : list A) (a b limit : nat) : list A :=
  pdqsort_loop (S (b - a)) d a b limit true true.

(** [sort.Slice(x, less)] *)
Definition Slice_with (d : list A) : list A :=
  let length := length d in
  let limit := bits_Len length in
  pdqsort_func d 0 length limit.

End Pdqsort.

(** [xorshift.Next] of [sort/sort.go] as Go 1.21 has it (the toolchain of
    the [Dockerfile]): shifts 13, 17 and 5 on a 64-bit state. Only
    [breakPatterns_func] draws from it; what [GoSortFacts] proves of the
    sort holds for every generator. *)
Definition xorshift_Next (r : Z) : Z :=
  let r := Z.lxor r (Z.land (Z.shiftl r 13) (2 ^ 64 - 1)) in
  let r := Z.lxor r (Z.shiftr r 17) in
  let r := Z.lxor r (Z.land (Z.shiftl r 5) (2 ^ 64 - 1)) in
  r.

Definition Slice {A : Type} (less : A → A → bool) (d : list A) : list A :=
  Slice_with less xorshift_Next d.

End GoSort.


(* ===================================================================== *)
(** * [float64]

    Go's [float64] is IEEE 754 binary64 with rounding to nearest, ties to
    even: the operations of [SpecFloat] at precision 53 and maximal
    exponent 1024. *)

Module Float64.

Definition prec : Z := 53.
Definition emax : Z := 1024.

Abbreviation float64 := spec_float (only parsing).

(** the conversion [float64(n)] of an integer *)
Definition of_int (n : Z) : float64 := binary_normalize prec emax n 0 false.

Definition add : float64 → float64 → float64 := SFadd prec emax.
Definition sub : float64 → float64 → float64 := SFsub prec emax.
Definition mul : float64 → float64 → float64 := SFmul prec emax.
Definition div : float64 → float64 → float64 := SFdiv prec emax.

(** [x < y] and [x > y]; both are false when an operand is NaN *)
Definition ltb (x y : float64) : bool := SFltb x y.
Definition gtb (x y : float64) : bool := SFltb y x.

Definition is_nan (x : float64) : bool :=
  match x with S754_nan => true | _ => false end.

(** A decimal constant of the source is the binary64 number nearest to it;
    division is correctly rounded, so the quotient of two small integers
    is that number. *)
Definition decimal (num den : Z) : float64 := div (of_int num) (of_int den).

End Float64.


(* ===================================================================== *)
(** * Strings

    A Go [string] is a sequence of bytes: [string] here. [len(s)] is
    [String.length s], [==] is [String.eqb]. *)

Module GoStrings.

(** [strings.HasPrefix(s, prefix)] *)
Fixpoint HasPrefix (s prefix : string) : bool :=
  match prefix, s with
  | EmptyString, _ => true
  | String c prefix', String c' s' => Ascii.eqb c c' && HasPrefix s' prefix'
  | String _ _, EmptyString => false
  end.

(** [strings.Contains(s, substr)] *)
Fixpoint Contains (s substr : string) : bool :=
  HasPrefix s substr ||
  match s with
  | EmptyString => false
  | String _ s' => Contains s' substr
  end.

(** [strings.TrimSpace] and [strings.ToLower] work on the Unicode code
    points of their argument. On a string of ASCII bytes they are the two
    functions below: the white space of ASCII is ['\t'], ['\n'], ['\v'],
    ['\f'], ['\r'] and [' '], and the letters ['A'] to ['Z'] are the only
    ones with a lower case. The classifier is stated for any pair of
    functions in their place; these two run it on ASCII column names. *)
Definition asciiSpace (c : ascii) : bool :=
  let n := nat_of_ascii c in
  ((9 <=? n) && (n <=? 13)) || (n =? 32).

Fixpoint TrimLeft_ascii (s : string) : string :=
  match s with
  | EmptyString => EmptyString
  | String c s' => if asciiSpace c then TrimLeft_ascii s' else s
  end.

Fixpoint TrimRight_ascii (s : string) : string :=
  match s with
  | EmptyString => EmptyString
  | String c s' =>
      match TrimRight_ascii s' with
      | EmptyString => if asciiSpace c then EmptyString else String c EmptyString
      | t => String c t
      end
  end.

Definition TrimSpace_ascii (s : string) : string :=
  TrimRight_ascii (TrimLeft_ascii s).

Definition toLower_byte (c : ascii) : ascii :=
  let n := nat_of_ascii c in
  if (65 <=? n) && (n <=? 90) then ascii_of_nat (n + 32) else c.

Fixpoint ToLower_ascii (s : string) : string :=
  match s with
  | EmptyString => EmptyString
  | String c s' => String (toLower_byte c) (ToLower_ascii s')
  end.

End GoStrings.

(* ===================================================================== *)
(** * Regular expressions

    The classifier uses a compiled [*regexp.Regexp] through two methods
    only. A compiled expression is the pair of these methods; the
    classifier is stated for every such pair and for every
    [regexp.Compile]. *)

Module GoRegexp.

Local Open Scope string_scope.

Record Regexp := {
  MatchString : string → bool;
  FindString : string → string;
}.

(** ** A fragment of the syntax, to run the classifier

    Literal ASCII bytes, [.], [^], [$] and a star after a literal or a
    dot, matched the way [regexp] does on ASCII text without flags:
    leftmost, and at that position what a backtracking matcher with a
    greedy star finds first. [Compile] reports what [regexp.Compile]
    reports for a star that has nothing to repeat; every other operator is
    outside the fragment and is refused too. *)

Inductive atom := AChar (c : ascii) | AAny.
Inductive item := IAtom (a : atom) | IStar (a : atom) | IBol | IEol.

Definition accepts (a : atom) (c : ascii) : bool :=
  match a with
  | AChar c' => Ascii.eqb c' c
  | AAny => negb (Ascii.eqb c "010")
  end.

(** the length of the match of [its] that starts here, if any; [bol]
    says that this is the beginning of the text *)
Fixpoint matchHere (its : list item) (bol : bool) (s : string) : option nat :=
  match its with
  | [] => Some 0%nat
  | IBol :: r => if bol then matchHere r bol s else None
  | IEol :: r => match s with EmptyString => matchHere r bol s | _ => None end
  | IAtom a :: r =>
      match s with
      | String c s' => if accepts a c then S <$> matchHere r false s' else None
      | EmptyString => None
      end
  | IStar a :: r =>
      (fix star (s : string) (bol : bool) : option nat :=
         match s with
         | String c s' =>
             if accepts a c then
               match star s' false with
               | Some n => Some (S n)
               | None => matchHere r bol s
               end
             else matchHere r bol s
         | EmptyString => matchHere r bol s
         end) s bol
  end.

(** the leftmost match: its text *)
Fixpoint findFrom (its : list item) (bol : bool) (s : string) : option string :=
  match matchHere its bol s with
  | Some n => Some (substring 0%nat n s)
  | None =>
      match s with
      | EmptyString => None
      | String _ s' => findFrom its false s'
      end
  end.

Definition compiled (its : list item) : Regexp :=
  {| MatchString := λ s, bool_decide (is_Some (findFrom its true s));
     FindString := λ s, default "" (findFrom its true s) |}.

Definition metachar (c : ascii) : bool :=
  bool_decide (c ∈ ["\"; "+"; "?"; "("; ")"; "["; "]"; "{"; "}"; "|"]%char).

Fixpoint parse (s : string) (acc : list item) : list item + string :=
  match s with
  | EmptyString => inl (rev acc)
  | String c s' =>
      if Ascii.eqb c "*" then
        match acc with
        | IAtom a :: acc' => parse s' (IStar a :: acc')
        | [] => inr "error parsing regexp: missing argument to repetition operator: `*`"
        | _ => inr "expression outside the fragment"
        end
      else if Ascii.eqb c "^" then parse s' (IBol :: acc)
      else if Ascii.eqb c "$" then parse s' (IEol :: acc)
      else if Ascii.eqb c "." then parse s' (IAtom AAny :: acc)
      else if metachar c || (128 <=? nat_of_ascii c)%nat then inr "expression outside the fragment"
      else parse s' (IAtom (AChar c) :: acc)
  end.

Definition Compile (expr : string) : Regexp + string :=
  match parse expr [] with
  | inl its => inl (compiled its)
  | inr e => inr e
  end.

End GoRegexp.


(* ===================================================================== *)
(** * [internal/domain]: the entities *)

Module domain.

Local Open Scope string_scope.

(** [uuid.UUID] is sixteen bytes, [time.Time] an instant *)
Abbreviation UUID := N (only parsing).
Abbreviation Time := Z (only parsing).

(** [type InformationType string] *)
Abbreviation InformationType := string (only parsing).

Definition InfoTypeNA : InformationType := "N/A".
Definition InfoTypeFirstName : InformationType := "FIRST_NAME".
Definition InfoTypeLastName : InformationType := "LAST_NAME".
Definition InfoTypeFullName : InformationType := "FULL_NAME".
Definition InfoTypeUsername : InformationType := "USERNAME".
Definition InfoTypeEmailAddress : InformationType := "EMAIL_ADDRESS".
Definition InfoTypePhoneNumber : InformationType := "PHONE_NUMBER".
Definition InfoTypeCreditCardNumber : InformationType := "CREDIT_CARD_NUMBER".
Definition InfoTypeAccountNumber : InformationType := "ACCOUNT_NUMBER".
Definition InfoTypeSSN : InformationType := "SSN".
Definition InfoTypePassportNumber : InformationType := "PASSPORT_NUMBER".
Definition InfoTypeIPAddress : InformationType := "IP_ADDRESS".
Definition InfoTypeMACAddress : InformationType := "MAC_ADDRESS".
Definition InfoTypeAddress : InformationType := "ADDRESS".
Definition InfoTypePostalCode : InformationType := "POSTAL_CODE".
Definition InfoTypeDateOfBirth : InformationType := "DATE_OF_BIRTH".
Definition InfoTypeNationalID : InformationType := "NATIONAL_ID".
Definition InfoTypeBankAccount : InformationType := "BANK_ACCOUNT".
Definition InfoTypeDriverLicense : InformationType := "DRIVER_LICENSE".

(** [type ScanStatus string] *)
Abbreviation ScanStatus := string (only parsing).

Definition ScanStatusPending : ScanStatus := "pending".
Definition ScanStatusRunning : ScanStatus := "running".
Definition ScanStatusCompleted : ScanStatus := "completed".
Definition ScanStatusFailed : ScanStatus := "failed".
Definition ScanStatusCancelled : ScanStatus := "cancelled".

(** [type RiskLevel string] *)
Abbreviation RiskLevel := string (only parsing).

Definition RiskLevelLow : RiskLevel := "low".
Definition RiskLevelMedium : RiskLevel := "medium".
Definition RiskLevelHigh : RiskLevel := "high".
Definition RiskLevelCritical : RiskLevel := "critical".

Record ClassificationPattern := {
  cp_ID : UUID;
  cp_InformationType : InformationType;
  cp_Pattern : string;
  cp_Description : string;
  cp_Priority : Z;
  cp_IsActive : bool;
  cp_CreatedAt : Time;
  cp_UpdatedAt : Time;
}.

Record ColumnResult := {
  col_ColumnName : string;
  col_DataType : string;
  col_InformationType : InformationType;
  col_ConfidenceScore : Float64.float64;
  col_MatchedPatterns : list string;
  col_IsNullable : bool;
  col_DefaultValue : option string;
}.

Record TableResult := {
  tr_TableName : string;
  tr_Columns : list ColumnResult;
}.

Record SchemaResult := {
  sr_SchemaName : string;
  sr_Tables : list TableResult;
}.

Record ScanSummary := {
  TotalSchemas : Z;
  TotalTables : Z;
  TotalColumns : Z;
  ClassifiedColumns : Z;
  InformationTypesCounts : gmap string Z;
  RiskLevel_ : RiskLevel;
  DurationMilliseconds : Z;
}.

Record ScanResult := {
  ID : UUID;
  DatabaseID : UUID;
  StartedAt : Time;
  CompletedAt : option Time;
  Status : ScanStatus;
  ErrorMessage : string;
  Schemas : list SchemaResult;
  Summary : ScanSummary;
}.

#[global] Instance float64_eq_dec : EqDecision Float64.float64.
Proof. solve_decision. Defined.
#[global] Instance ColumnResult_eq_dec : EqDecision ColumnResult.
Proof. solve_decision. Defined.
#[global] Instance TableResult_eq_dec : EqDecision TableResult.
Proof. solve_decision. Defined.
#[global] Instance SchemaResult_eq_dec : EqDecision SchemaResult.
Proof. solve_decision. Defined.
#[global] Instance ScanSummary_eq_dec : EqDecision ScanSummary.
Proof. solve_decision. Defined.

Record DatabaseConnection := {
  dc_ID : UUID;
  dc_Host : string;
  dc_Port : Z;
  dc_Username : string;
  dc_EncryptedPassword : string;
  dc_DatabaseName : string;
  dc_Description : string;
  dc_CreatedAt : Time;
  dc_UpdatedAt : Time;
  dc_LastScannedAt : option Time;
  dc_IsActive : bool;
}.

Record MySQLColumnInfo := {
  ci_ColumnName : string;
  ci_DataType : string;
  ci_IsNullable : bool;
  ci_DefaultValue : option string;
  ci_ColumnKey : string;
}.

Record MySQLTableInfo := {
  ti_SchemaName : string;
  ti_TableName : string;
  ti_Columns : list MySQLColumnInfo;
}.

End domain.

(* ===================================================================== *)
(** * [pkg/classifier] *)

Module classifier.

Import Float64 GoStrings GoRegexp domain.
Local Open Scope string_scope.

Record Pattern := {
  InformationType_ : InformationType;
  Pattern_ : string;
  Description : string;
  Priority : Z;
  regex : Regexp;
}.

Record Classifier := { patterns : list Pattern }.

Record MatchResult := {
  InformationType : InformationType;
  ConfidenceScore : float64;
  MatchedPatterns : list string;
}.

(** an element of the local slice [matches] of [ClassifyColumn] *)
Record match_ := { pattern : Pattern; score : float64 }.

Section Classifier.
(** [regexp.Compile], [strings.TrimSpace], [strings.ToLower] *)
Variable Compile : string → Regexp + string.
Variable TrimSpace ToLower : string → string.

(** the loop of [SetPatterns] over [patterns]; an error of Go is its
    message *)
Fixpoint SetPatterns_compile (patterns : list ClassificationPattern)
    (compiled : list Pattern) : list Pattern + string :=
  match patterns with
  | [] => inl compiled
  | p :: patterns' =>
      match Compile (cp_Pattern p) with
      | inr err =>
          inr ("failed to compile regex pattern '" ++ cp_Pattern p ++ "': " ++ err)
      | inl regex =>
          SetPatterns_compile patterns'
            (compiled ++ [ {| InformationType_ := cp_InformationType p;
                              Pattern_ := cp_Pattern p;
                              Description := cp_Description p;
                              Priority := cp_Priority p;
                              regex := regex |} ])%list
      end
  end.

(** the [less] of [SetPatterns]:
    [compiled[i].Priority > compiled[j].Priority] *)
Definition byPriority (x y : Pattern) : bool := (Priority y <? Priority x)%Z.

(** [SetPatterns]: the classifier after the call, and the error *)
Definition SetPatterns (c : Classifier) (patterns : list ClassificationPattern)
    : Classifier * option string :=
  match SetPatterns_compile patterns [] with
  | inr err => (c, Some err)
  | inl compiled => ({| patterns := GoSort.Slice byPriority compiled |}, None)
  end.

(** [NewClassifier]: the new classifier, or the error *)
Definition NewClassifier (patterns : list ClassificationPattern)
    : Classifier + string :=
  let c := {| patterns := [] |} in
  match SetPatterns c patterns with
  | (_, Some err) => inr err
  | (c, None) => inl c
  end.

Definition commonWords : list string :=
  ["id"; "name"; "number"; "date"; "time"; "status"; "type"].

(** the loop over [commonWords], left by [break] *)
Fixpoint commonWordsPenalty_loop (words : list string) (columnName : string) : float64 :=
  match words with
  | [] => of_int 0
  | word :: words' =>
      if Contains columnName word && (String.length columnName <? 10)%nat
      then decimal 1 10
      else commonWordsPenalty_loop words' columnName
  end.

Definition calculateConfidenceScore (columnName : string) (pattern : Pattern) : float64 :=
  let baseScore := div (of_int (Priority pattern)) (of_int 100) in
  let exactMatch :=
    if MatchString (regex pattern) columnName then
      let match_ := FindString (regex pattern) columnName in
      if String.eqb match_ columnName then decimal 2 10 else decimal 1 10
    else of_int 0 in
  let commonWordsPenalty := commonWordsPenalty_loop commonWords columnName in
  let finalScore := sub (add baseScore exactMatch) commonWordsPenalty in
  let finalScore := if gtb finalScore (of_int 1) then of_int 1 else finalScore in
  let finalScore := if ltb finalScore (of_int 0) then of_int 0 else finalScore in
  finalScore.

(** the loop of [ClassifyColumn] over [c.patterns] *)
Fixpoint ClassifyColumn_matches (ps : list Pattern) (cleanName : string)
    (matches : list match_) : list match_ :=
  match ps with
  | [] => matches
  | pattern :: ps' =>
      if MatchString (regex pattern) cleanName then
        let score := calculateConfidenceScore cleanName pattern in
        ClassifyColumn_matches ps' cleanName
          (matches ++ [ {| pattern := pattern; score := score |} ])%list
      else ClassifyColumn_matches ps' cleanName matches
  end.

(** the [less] of [ClassifyColumn]: [matches[i].score > matches[j].score] *)
Definition byScore (x y : match_) : bool := gtb (score x) (score y).

Definition notClassified : MatchResult :=
  {| InformationType := InfoTypeNA;
     ConfidenceScore := of_int 0;
     MatchedPatterns := [] |}.

Definition ClassifyColumn (c : Classifier) (columnName : string) : MatchResult :=
  if String.eqb columnName "" then notClassified
  else
    let cleanName := ToLower (TrimSpace columnName) in
    let matches := ClassifyColumn_matches (patterns c) cleanName [] in
    match matches with
    | [] => notClassified
    | first :: _ =>
        let matches := GoSort.Slice byScore matches in
        (* [matches[0]]: the sorted slice is as long as the unsorted one *)
        let bestMatch := hd first matches in
        {| InformationType := InformationType_ (pattern bestMatch);
           ConfidenceScore := score bestMatch;
           MatchedPatterns := map (λ m, Pattern_ (pattern m)) matches |}
    end.

(** [AddPattern]: the classifier after the call, and the error. The
    [regex] of the argument is replaced by the compiled expression. *)
Definition AddPattern (c : Classifier) (pattern : Pattern) : Classifier * option string :=
  match Compile (Pattern_ pattern) with
  | inr err =>
      (c, Some ("failed to compile regex pattern '" ++ Pattern_ pattern ++ "': " ++ err))
  | inl regex =>
      let pattern :=
        {| InformationType_ := InformationType_ pattern;
           Pattern_ := Pattern_ pattern;
           Description := Description pattern;
           Priority := Priority pattern;
           regex := regex |} in
      ({| patterns := GoSort.Slice byPriority (patterns c ++ [pattern])%list |}, None)
  end.

Definition GetPatterns (c : Classifier) : list Pattern := patterns c.

(** the loop of [RemovePattern] over [c.patterns] *)
Fixpoint RemovePattern_loop (ps : list Pattern) (infoType : domain.InformationType)
    (patternStr : string) (newPatterns : list Pattern) : list Pattern :=
  match ps with
  | [] => newPatterns
  | p :: ps' =>
      if negb (String.eqb (InformationType_ p) infoType)
         || negb (String.eqb (Pattern_ p) patternStr)
      then RemovePattern_loop ps' infoType patternStr (newPatterns ++ [p])%list
      else RemovePattern_loop ps' infoType patternStr newPatterns
  end.

Definition RemovePattern (c : Classifier) (infoType : domain.InformationType)
    (patternStr : string) : Classifier :=
  {| patterns := RemovePattern_loop (patterns c) infoType patternStr [] |}.

End Classifier.

End classifier.

(* ===================================================================== *)
(** * The classification service

    [ClassificationService] holds the matcher behind a mutex; a call
    takes it and gives it back, so the service is a state with one field. *)

Module ClassificationService.

Import Float64 GoRegexp domain.
Local Open Scope string_scope.

Record ClassificationService := { matcher : option classifier.Classifier }.

Section Service.
Variable Compile : string → Regexp + string.
Variable TrimSpace ToLower : string → string.

(** [refreshClassifier]: the service after the call, and the error *)
Definition refreshClassifier (s : ClassificationService)
    (patterns : list ClassificationPattern) : ClassificationService * option string :=
  match classifier.NewClassifier Compile patterns with
  | inr err => (s, Some ("failed to prepare classifier: " ++ err))
  | inl matcher => ({| matcher := Some matcher |}, None)
  end.

Definition ClassifyColumn (s : ClassificationService) (columnName : string)
    : InformationType * float64 * list string :=
  match matcher s with
  | None => (InfoTypeNA, of_int 0, [])
  | Some matcher =>
      let res := classifier.ClassifyColumn TrimSpace ToLower matcher columnName in
      (classifier.InformationType res, classifier.ConfidenceScore res,
       classifier.MatchedPatterns res)
  end.

End Service.

End ClassificationService.

(* ===================================================================== *)
(** * Go's [int] *)

Module Int.

(** an [int] of a 64-bit platform: the representative of [z] in
    [-2^63 .. 2^63 - 1] *)
Definition wrap (z : Z) : Z := ((z + 2 ^ 63) mod 2 ^ 64 - 2 ^ 63)%Z.

Definition add (x y : Z) : Z := wrap (x + y).

End Int.

(* ===================================================================== *)
(** * The metadata database and the scan service

    The world of the scan service: the two tables of the metadata
    database it reads and writes, the outcome of the statements it is
    going to send (a statement may fail for a reason outside the program:
    a lost connection, a timeout), the clock, the source of identifiers and
    the sessions held on inspected servers. *)

Module ScanService.

Import Float64 domain.
Local Open Scope string_scope.

Record World := {
  scan_results : gmap N ScanResult;
  database_connections : gmap N DatabaseConnection;
  (** per statement still to come: [Some e] makes it fail with [e] *)
  db_faults : list (option string);
  clock : Time;
  (** what [uuid.New()] is going to return; never [uuid.Nil] *)
  uuids : list positive;
  open_sessions : nat;
  (** the parameters of the metadata connection (METADATA_DB_PARAMS) ask
      for [clientFoundRows]: [RowsAffected] then counts the rows an
      [UPDATE] matches, and otherwise the rows it changes *)
  clientFoundRows : bool;
}.

Definition set_scan_results (f : gmap N ScanResult → gmap N ScanResult) (w : World) : World :=
  {| scan_results := f (scan_results w);
     database_connections := database_connections w;
     db_faults := db_faults w; clock := clock w; uuids := uuids w;
     open_sessions := open_sessions w; clientFoundRows := clientFoundRows w |}.

Definition set_database_connections
    (f : gmap N DatabaseConnection → gmap N DatabaseConnection) (w : World) : World :=
  {| scan_results := scan_results w;
     database_connections := f (database_connections w);
     db_faults := db_faults w; clock := clock w; uuids := uuids w;
     open_sessions := open_sessions w; clientFoundRows := clientFoundRows w |}.

Definition set_db_faults (fs : list (option string)) (w : World) : World :=
  {| scan_results := scan_results w;
     database_connections := database_connections w;
     db_faults := fs; clock := clock w; uuids := uuids w;
     open_sessions := open_sessions w; clientFoundRows := clientFoundRows w |}.

Definition set_clock (t : Time) (w : World) : World :=
  {| scan_results := scan_results w;
     database_connections := database_connections w;
     db_faults := db_faults w; clock := t; uuids := uuids w;
     open_sessions := open_sessions w; clientFoundRows := clientFoundRows w |}.

Definition set_uuids (us : list positive) (w : World) : World :=
  {| scan_results := scan_results w;
     database_connections := database_connections w;
     db_faults := db_faults w; clock := clock w; uuids := us;
     open_sessions := open_sessions w; clientFoundRows := clientFoundRows w |}.

Definition set_open_sessions (n : nat) (w : World) : World :=
  {| scan_results := scan_results w;
     database_connections := database_connections w;
     db_faults := db_faults w; clock := clock w; uuids := uuids w;
     open_sessions := n; clientFoundRows := clientFoundRows w |}.

(** ** A computation that changes the world and returns a value or an
    error (the message of Go's [error]) *)

Definition M (A : Type) : Type := World → World * (A + string).

#[global] Instance M_ret : MRet M := λ A x w, (w, inl x).
#[global] Instance M_bind : MBind M := λ A B f m w,
  match m w with
  | (w', inl x) => f x w'
  | (w', inr e) => (w', inr e)
  end.

Definition fail {A} (e : string) : M A := λ w, (w, inr e).

(** [if err != nil { return fmt.Errorf(prefix + ": %w", err) }] *)
Definition wrapErr {A} (prefix : string) (m : M A) : M A := λ w,
  match m w with
  | (w', inr e) => (w', inr (prefix ++ ": " ++ e))
  | r => r
  end.

(** a call that cannot fail *)
Definition total {A} (f : World → World * A) : M A := λ w,
  let '(w', x) := f w in (w', inl x).

(** a call that does not touch the world *)
Definition pure {A} (r : A + string) : M A := λ w, (w, r).

(** [time.Now()] *)
Definition time_Now (w : World) : World * Time := (set_clock (clock w + 1) w, clock w).

(** [uuid.New()] *)
Definition uuid_New (w : World) : World * UUID :=
  match uuids w with
  | u :: us => (set_uuids us w, Npos u)
  | [] => (w, 1%N)
  end.

Definition uuid_Nil : UUID := 0%N.

(** One statement sent to the metadata database: it fails when the world
    says so, and runs otherwise. *)
Definition statement {A} (run : M A) : M A := λ w,
  match db_faults w with
  | Some e :: fs => (set_db_faults fs w, inr e)
  | None :: fs => run (set_db_faults fs w)
  | [] => run w
  end.

(** ** [internal/repository]: the statements on [scan_results] *)

Definition terminal (status : ScanStatus) : bool :=
  String.eqb status ScanStatusCompleted || String.eqb status ScanStatusFailed
  || String.eqb status ScanStatusCancelled.

(** the text with which [json.Marshal] refuses a [float64]
    ([UnsupportedValueError]) *)
Definition json_unsupported_float (f : float64) : option string :=
  match f with
  | SpecFloat.S754_nan => Some "NaN"
  | SpecFloat.S754_infinity false => Some "+Inf"
  | SpecFloat.S754_infinity true => Some "-Inf"
  | _ => None
  end.

(** [json.Marshal(result.Schemas)] fails on the first score of the tree
    that is not a finite number; the summary has no [float64] *)
Definition json_unsupported (schemas : list SchemaResult) : option string :=
  head (omap (λ c, json_unsupported_float (col_ConfidenceScore c))
          ((schemas ≫= sr_Tables) ≫= tr_Columns)).

(** [ScanResultRepository.Create]: the [INSERT]; the primary key refuses
    a second row with the same [id] *)
Definition scanRepo_Create (result : ScanResult) : M unit := λ w,
  match json_unsupported (Schemas result) with
  | Some v => (w, inr ("failed to marshal schemas: json: unsupported value: " ++ v))
  | None =>
      wrapErr "failed to create scan result"
        (statement (λ w,
           match scan_results w !! ID result with
           | Some _ => (w, inr "Error 1062: Duplicate entry for key 'PRIMARY'")
           | None => (set_scan_results (insert (ID result) result) w, inl ())
           end)) w
  end.
(* [Create] first replaces a [uuid.Nil] identifier and a zero [StartedAt];
   [StartScan], its only caller, passes [uuid.New()] and [time.Now()]. *)

(** [ScanResultRepository.GetByID] *)
Definition scanRepo_GetByID (id : UUID) : M ScanResult := λ w,
  match statement (λ w, (w, inl (scan_results w !! id))) w with
  | (w', inr e) => (w', inr ("failed to scan result: " ++ e))
  | (w', inl None) => (w', inr "scan result not found")
  | (w', inl (Some r)) => (w', inl r)
  end.

(** [ORDER BY started_at DESC] *)
Definition startedAfter (r1 r2 : ScanResult) : Prop := (StartedAt r2 ≤ StartedAt r1)%Z.

#[global] Instance startedAfter_dec : RelDecision startedAfter.
Proof. intros r1 r2. unfold startedAfter. apply _. Defined.

(** [ScanResultRepository.GetByDatabaseID]:
    [WHERE database_id = ? ORDER BY started_at DESC LIMIT ?] *)
Definition scanRepo_GetByDatabaseID (databaseID : UUID) (limit : Z) : M (list ScanResult) :=
  wrapErr "failed to query scan results"
    (statement (λ w,
       let rows :=
         filter (λ r, DatabaseID r = databaseID) (map_to_list (scan_results w)).*2 in
       let rows := merge_sort startedAfter rows in
       (w, inl (take (Z.to_nat limit) rows)))).

(** [ScanResultRepository.GetLatestByDatabaseID] *)
Definition scanRepo_GetLatestByDatabaseID (databaseID : UUID) : M ScanResult := λ w,
  match statement (λ w,
          let rows :=
            filter (λ r, DatabaseID r = databaseID ∧ Status r = ScanStatusCompleted)
              (map_to_list (scan_results w)).*2 in
          (w, inl (head (merge_sort startedAfter rows)))) w with
  | (w', inr e) => (w', inr ("failed to scan result: " ++ e))
  | (w', inl None) => (w', inr "scan result not found")
  | (w', inl (Some r)) => (w', inl r)
  end.

(** [res.RowsAffected() != 0] after an [UPDATE] that matches one row:
    MySQL counts the row when the statement changes it, and also when the
    connection asks for the rows found. *)
Definition rowsAffected (w : World) (unchanged : bool) : bool :=
  clientFoundRows w || negb unchanged.

(** the row has in every column but [id] what [Update] is about to write *)
Definition same_columns (row result : ScanResult) : bool :=
  bool_decide (DatabaseID row = DatabaseID result ∧ StartedAt row = StartedAt result
               ∧ CompletedAt row = CompletedAt result ∧ Status row = Status result
               ∧ ErrorMessage row = ErrorMessage result ∧ Schemas row = Schemas result
               ∧ Summary row = Summary result).

(** [ScanResultRepository.Update]: every column but [id] *)
Definition scanRepo_Update (result : ScanResult) : M unit := λ w,
  match json_unsupported (Schemas result) with
  | Some v => (w, inr ("failed to marshal schemas: json: unsupported value: " ++ v))
  | None =>
      match statement (λ w,
              match scan_results w !! ID result with
              | Some row =>
                  if rowsAffected w (same_columns row result)
                  then (set_scan_results (insert (ID result) result) w, inl true)
                  else (w, inl false)
              | None => (w, inl false)
              end) w with
      | (w', inr e) => (w', inr ("failed to update scan result: " ++ e))
      | (w', inl false) => (w', inr "scan result not found")
      | (w', inl true) => (w', inl ())
      end
  end.

(** the row has in the three columns what [UpdateStatus] is about to write *)
Definition same_status (row : ScanResult) (status : ScanStatus) (completedAt : option Time)
    (errorMessage : string) : bool :=
  bool_decide (Status row = status ∧ CompletedAt row = completedAt
               ∧ ErrorMessage row = errorMessage).

(** [ScanResultRepository.UpdateStatus]:
    [SET status = ?, completed_at = ?, error_message = ? WHERE id = ?] *)
Definition scanRepo_UpdateStatus (id : UUID) (status : ScanStatus) (errorMessage : string)
    : M unit := λ w,
  let completedAt := if terminal status then Some (clock w) else None in
  let w := if terminal status then set_clock (clock w + 1) w else w in
  match statement (λ w,
          match scan_results w !! id with
          | Some r =>
              let r' := {| ID := ID r; DatabaseID := DatabaseID r;
                           StartedAt := StartedAt r; CompletedAt := completedAt;
                           Status := status; ErrorMessage := errorMessage;
                           Schemas := Schemas r; Summary := Summary r |} in
              if rowsAffected w (same_status r status completedAt errorMessage)
              then (set_scan_results (insert id r') w, inl true)
              else (w, inl false)
          | None => (w, inl false)
          end) w with
  | (w', inr e) => (w', inr ("failed to update scan status: " ++ e))
  | (w', inl false) => (w', inr "scan result not found")
  | (w', inl true) => (w', inl ())
  end.

(** ** The statements on [database_connections] *)

Definition dbConnRepo_GetByID (id : UUID) : M DatabaseConnection := λ w,
  match statement (λ w, (w, inl (database_connections w !! id))) w with
  | (w', inr e) => (w', inr ("failed to scan database connection: " ++ e))
  | (w', inl None) => (w', inr "database connection not found")
  | (w', inl (Some c)) => (w', inl c)
  end.

Definition dbConnRepo_UpdateLastScannedAt (id : UUID) (scannedAt : Time) : M unit := λ w,
  let now := clock w in
  let w := set_clock (clock w + 1) w in
  match statement (λ w,
          match database_connections w !! id with
          | Some c =>
              let c' := {| dc_ID := dc_ID c; dc_Host := dc_Host c; dc_Port := dc_Port c;
                           dc_Username := dc_Username c;
                           dc_EncryptedPassword := dc_EncryptedPassword c;
                           dc_DatabaseName := dc_DatabaseName c;
                           dc_Description := dc_Description c;
                           dc_CreatedAt := dc_CreatedAt c; dc_UpdatedAt := now;
                           dc_LastScannedAt := Some scannedAt;
                           dc_IsActive := dc_IsActive c |} in
              if rowsAffected w (bool_decide (dc_LastScannedAt c = Some scannedAt
                                              ∧ dc_UpdatedAt c = now))
              then (set_database_connections (insert id c') w, inl true)
              else (w, inl false)
          | None => (w, inl false)
          end) w with
  | (w', inr e) => (w', inr ("failed to update last scanned timestamp: " ++ e))
  | (w', inl false) => (w', inr "database connection not found")
  | (w', inl true) => (w', inl ())
  end.


(** ** [MySQLInspector]

    [db] says that [m.db != nil]. The inspected server is known by its
    answers. *)

Record MySQLInspector := { db : bool }.

Definition NewMySQLInspector : MySQLInspector := {| db := false |}.

Section Service.
(** [sql.Open] on the data source name built from host, port, user and
    password: the error, if the driver rejects the name *)
Variable sql_Open : string → Z → string → string → option string.
(** the inspected server: [db.Ping()] and the three queries on
    [information_schema] *)
Variable server_Ping : string → Z → string → string → option string.
Variable server_schemas : list string + string.
Variable server_tables : string → list string + string.
Variable server_columns : string → string → list MySQLColumnInfo + string.
(** [encryptor.Decrypt] of [pkg/security] *)
Variable Decrypt : string → string + string.
(** [classificationSvc.ClassifyColumn] *)
Variable ClassifyColumn : string → InformationType * float64 * list string.

(** [Connect]: the inspector after the call, and the error. [sql.Open]
    opens no session; a handle whose [Ping] fails is closed at once and
    [m.db] stays [nil]. *)
Definition Connect (m : MySQLInspector) (host : string) (port : Z)
    (username password : string) (w : World) : World * MySQLInspector * option string :=
  match sql_Open host port username password with
  | Some e => (w, m, Some ("failed to open MySQL connection: " ++ e))
  | None =>
      match server_Ping host port username password with
      | Some e => (w, m, Some ("failed to ping MySQL database: " ++ e))
      | None => (set_open_sessions (S (open_sessions w)) w, {| db := true |}, None)
      end
  end.

Definition Close (m : MySQLInspector) (w : World) : World :=
  if db m then set_open_sessions (open_sessions w - 1) w else w.

Definition GetSchemas (m : MySQLInspector) : list string + string :=
  if negb (db m) then inr "not connected to database"
  else match server_schemas with
       | inr e => inr ("failed to query schemas: " ++ e)
       | inl schemas => inl schemas
       end.

Definition GetTables (m : MySQLInspector) (schema : string) : list string + string :=
  if negb (db m) then inr "not connected to database"
  else match server_tables schema with
       | inr e => inr ("failed to query tables for schema " ++ schema ++ ": " ++ e)
       | inl tables => inl tables
       end.

Definition GetTableInfo (m : MySQLInspector) (schema table : string)
    : MySQLTableInfo + string :=
  if negb (db m) then inr "not connected to database"
  else match server_columns schema table with
       | inr e =>
           inr ("failed to query columns for table " ++ schema ++ "." ++ table ++ ": " ++ e)
       | inl columns =>
           inl {| ti_SchemaName := schema; ti_TableName := table; ti_Columns := columns |}
       end.

(** ** [calculateRiskLevel] *)

Definition highRiskTypes : list InformationType :=
  [InfoTypeCreditCardNumber; InfoTypeSSN; InfoTypePassportNumber;
   InfoTypeNationalID; InfoTypeBankAccount].

Definition mediumRiskTypes : list InformationType :=
  [InfoTypeEmailAddress; InfoTypePhoneNumber; InfoTypeDateOfBirth;
   InfoTypeDriverLicense; InfoTypeAccountNumber].

(** [for _, t := range types { if infoType == t { riskCount += count; break } }] *)
Fixpoint calculateRiskLevel_types (types : list InformationType)
    (infoType : InformationType) (count riskCount : Z) : Z :=
  match types with
  | [] => riskCount
  | t :: types' =>
      if String.eqb infoType t then Int.add riskCount count
      else calculateRiskLevel_types types' infoType count riskCount
  end.

(** [for infoType, count := range infoTypeCounts { ... }], in the order
    in which the map hands out its entries *)
Fixpoint calculateRiskLevel_range (entries : list (InformationType * Z))
    (highRiskCount mediumRiskCount : Z) : Z * Z :=
  match entries with
  | [] => (highRiskCount, mediumRiskCount)
  | (infoType, count) :: entries' =>
      let highRiskCount :=
        calculateRiskLevel_types highRiskTypes infoType count highRiskCount in
      let mediumRiskCount :=
        calculateRiskLevel_types mediumRiskTypes infoType count mediumRiskCount in
      calculateRiskLevel_range entries' highRiskCount mediumRiskCount
  end.

(** the part of [calculateRiskLevel] after the loop *)
Definition calculateRiskLevel_decide (highRiskCount mediumRiskCount totalColumns : Z)
    : RiskLevel :=
  let totalSensitiveColumns := Int.add highRiskCount mediumRiskCount in
  let riskPercentage :=
    mul (div (of_int totalSensitiveColumns) (of_int totalColumns)) (of_int 100) in
  if (0 <? highRiskCount)%Z && gtb riskPercentage (of_int 20) then RiskLevelCritical
  else if (0 <? highRiskCount)%Z || gtb riskPercentage (of_int 15) then RiskLevelHigh
  else if (0 <? mediumRiskCount)%Z || gtb riskPercentage (of_int 5) then RiskLevelMedium
  else RiskLevelLow.

(** [calculateRiskLevel] when the map is ranged over as [entries] *)
Definition calculateRiskLevel_on (entries : list (InformationType * Z)) (totalColumns : Z)
    : RiskLevel :=
  if (totalColumns =? 0)%Z then RiskLevelLow
  else
    let '(highRiskCount, mediumRiskCount) := calculateRiskLevel_range entries 0 0 in
    calculateRiskLevel_decide highRiskCount mediumRiskCount totalColumns.

Definition calculateRiskLevel (infoTypeCounts : gmap string Z) (totalColumns : Z)
    : RiskLevel :=
  calculateRiskLevel_on (map_to_list infoTypeCounts) totalColumns.

(** ** [performScan] *)

(** the counters of [performScan] *)
Record counters := {
  totalTables : Z;
  totalColumns : Z;
  classifiedColumns : Z;
  infoTypeCounts : gmap string Z;
}.

(** [for _, colInfo := range tableInfo.Columns { ... }] *)
Fixpoint performScan_columns (columns : list MySQLColumnInfo)
    (columnResults : list ColumnResult) (classified : Z) (counts : gmap string Z)
    : list ColumnResult * Z * gmap string Z :=
  match columns with
  | [] => (columnResults, classified, counts)
  | colInfo :: columns' =>
      let '(infoType, score, matched) := ClassifyColumn (ci_ColumnName colInfo) in
      let columnResult :=
        {| col_ColumnName := ci_ColumnName colInfo;
           col_DataType := ci_DataType colInfo;
           col_InformationType := infoType;
           col_ConfidenceScore := score;
           col_MatchedPatterns := matched;
           col_IsNullable := ci_IsNullable colInfo;
           col_DefaultValue := ci_DefaultValue colInfo |} in
      let columnResults := (columnResults ++ [columnResult])%list in
      if negb (String.eqb infoType InfoTypeNA) then
        performScan_columns columns' columnResults (Int.add classified 1)
          (<[infoType := Int.add (default 0%Z (counts !! infoType)) 1]> counts)
      else performScan_columns columns' columnResults classified counts
  end.

(** [for _, tableName := range tables { ... }] *)
Fixpoint performScan_tables (inspector : MySQLInspector) (schemaName : string)
    (tables : list string) (tableResults : list TableResult) (c : counters)
    : list TableResult * counters + string :=
  match tables with
  | [] => inl (tableResults, c)
  | tableName :: tables' =>
      match GetTableInfo inspector schemaName tableName with
      | inr err =>
          inr ("failed to get table info for " ++ schemaName ++ "." ++ tableName
               ++ ": " ++ err)
      | inl tableInfo =>
          let totalColumns :=
            Int.add (totalColumns c) (Z.of_nat (length (ti_Columns tableInfo))) in
          let '(columnResults, classified, counts) :=
            performScan_columns (ti_Columns tableInfo) [] (classifiedColumns c)
              (infoTypeCounts c) in
          performScan_tables inspector schemaName tables'
            (tableResults ++ [ {| tr_TableName := tableName; tr_Columns := columnResults |} ])%list
            {| totalTables := totalTables c; totalColumns := totalColumns;
               classifiedColumns := classified; infoTypeCounts := counts |}
      end
  end.

(** [for _, schemaName := range schemas { ... }] *)
Fixpoint performScan_schemas (inspector : MySQLInspector) (schemas : list string)
    (schemaResults : list SchemaResult) (c : counters)
    : list SchemaResult * counters + string :=
  match schemas with
  | [] => inl (schemaResults, c)
  | schemaName :: schemas' =>
      match GetTables inspector schemaName with
      | inr err => inr ("failed to get tables for schema " ++ schemaName ++ ": " ++ err)
      | inl tables =>
          let c :=
            {| totalTables := Int.add (totalTables c) (Z.of_nat (length tables));
               totalColumns := totalColumns c;
               classifiedColumns := classifiedColumns c;
               infoTypeCounts := infoTypeCounts c |} in
          match performScan_tables inspector schemaName tables [] c with
          | inr err => inr err
          | inl (tableResults, c) =>
              performScan_schemas inspector schemas'
                (schemaResults ++ [ {| sr_SchemaName := schemaName; sr_Tables := tableResults |} ])%list
                c
          end
      end
  end.

(** [performScan] from [inspector.GetSchemas()] on *)
Definition performScan_connected (scanResult : ScanResult) (conn : DatabaseConnection)
    (startTime : Time) (inspector : MySQLInspector) : M unit :=
  schemas ← wrapErr "failed to get schemas" (pure (GetSchemas inspector));
  '(schemaResults, c) ←
    pure (performScan_schemas inspector schemas []
            {| totalTables := 0; totalColumns := 0; classifiedColumns := 0;
               infoTypeCounts := ∅ |});
  let riskLevel := calculateRiskLevel (infoTypeCounts c) (totalColumns c) in
  endTime ← total time_Now;
  let scanResult :=
    {| ID := ID scanResult; DatabaseID := DatabaseID scanResult;
       StartedAt := StartedAt scanResult;
       CompletedAt := Some endTime;
       Status := ScanStatusCompleted;
       ErrorMessage := ErrorMessage scanResult;
       Schemas := schemaResults;
       Summary :=
         {| TotalSchemas := Z.of_nat (length schemas);
            TotalTables := totalTables c;
            TotalColumns := totalColumns c;
            ClassifiedColumns := classifiedColumns c;
            InformationTypesCounts := infoTypeCounts c;
            RiskLevel_ := riskLevel;
            DurationMilliseconds := endTime - startTime |} |} in
  _ ← wrapErr "failed to update scan result" (scanRepo_Update scanResult);
  (* the error of [UpdateLastScannedAt] is printed, not returned *)
  total (λ w, ((dbConnRepo_UpdateLastScannedAt (dc_ID conn) endTime w).1, ())).

(** [performScan] from [inspector.Connect] on: the inspector as the
    function leaves it, and the result *)
Definition performScan_inspect (scanResult : ScanResult) (conn : DatabaseConnection)
    (startTime : Time) (password : string) (inspector : MySQLInspector) (w : World)
    : World * MySQLInspector * (unit + string) :=
  match Connect inspector (dc_Host conn) (dc_Port conn) (dc_Username conn) password w with
  | (w, inspector, Some err) =>
      (w, inspector, inr ("failed to connect to MySQL: " ++ err))
  | (w, inspector, None) =>
      let '(w, r) := performScan_connected scanResult conn startTime inspector w in
      (w, inspector, r)
  end.

Definition performScan (scanResult : ScanResult) (conn : DatabaseConnection) : M unit :=
  startTime ← total time_Now;
  _ ← wrapErr "failed to update scan status to running"
        (scanRepo_UpdateStatus (ID scanResult) ScanStatusRunning "");
  password ← wrapErr "failed to decrypt password"
               (pure (Decrypt (dc_EncryptedPassword conn)));
  ((λ w,
    let inspector := NewMySQLInspector in
    (* [defer inspector.Close()] *)
    let '(w, inspector, r) :=
      performScan_inspect scanResult conn startTime password inspector w in
    (Close inspector w, r)) : M unit).

(** ** [StartScan] *)

(** the function literal that [StartScan] starts with [go] *)
Definition StartScan_go (scanResult : ScanResult) (conn : DatabaseConnection)
    (w : World) : World :=
  match performScan scanResult conn w with
  | (w, inr err) => (scanRepo_UpdateStatus (ID scanResult) ScanStatusFailed err w).1
  | (w, inl _) => w
  end.

(** [StartScan]: the world and what the caller gets, and the arguments
    of the goroutine it has started, if any *)
Definition StartScan (databaseID : UUID) (w : World)
    : World * (UUID + string) * option (ScanResult * DatabaseConnection) :=
  match wrapErr "failed to get database connection" (dbConnRepo_GetByID databaseID) w with
  | (w, inr err) => (w, inr err, None)
  | (w, inl conn) =>
      let '(w, scanID) := uuid_New w in
      let '(w, now) := time_Now w in
      let scanResult :=
        {| ID := scanID; DatabaseID := databaseID; StartedAt := now;
           CompletedAt := None; Status := ScanStatusPending; ErrorMessage := "";
           Schemas := [];
           Summary := {| TotalSchemas := 0; TotalTables := 0; TotalColumns := 0;
                         ClassifiedColumns := 0; InformationTypesCounts := ∅;
                         RiskLevel_ := ""; DurationMilliseconds := 0 |} |} in
      match wrapErr "failed to create scan result" (scanRepo_Create scanResult) w with
      | (w, inr err) => (w, inr err, None)
      | (w, inl _) => (w, inl scanID, Some (scanResult, conn))
      end
  end.

Definition GetScanResult (scanID : UUID) : M ScanResult :=
  wrapErr "failed to get scan result" (scanRepo_GetByID scanID).

Definition GetScanHistory (databaseID : UUID) (limit : Z) : M (list ScanResult) :=
  let limit := if (limit <=? 0)%Z then 10%Z else limit in
  wrapErr "failed to get scan history" (scanRepo_GetByDatabaseID databaseID limit).

Definition GetLatestClassification (databaseID : UUID) : M ScanResult :=
  wrapErr "failed to get latest classification" (scanRepo_GetLatestByDatabaseID databaseID).

Definition CancelScan (scanID : UUID) : M unit :=
  scanResult ← wrapErr "failed to get scan result" (scanRepo_GetByID scanID);
  if negb (String.eqb (Status scanResult) ScanStatusPending)
     && negb (String.eqb (Status scanResult) ScanStatusRunning)
  then fail ("scan cannot be cancelled, current status: " ++ Status scanResult)
  else
    wrapErr "failed to cancel scan"
      (scanRepo_UpdateStatus scanID ScanStatusCancelled "Cancelled by user").

End Service.

End ScanService.


(* ===================================================================== *)
(** * The classification service and the repository of its patterns

    The table [classification_patterns] has the primary key [id] and a
    unique key on [pattern]; the service holds the matcher in use. *)

Module PatternService.

Import Float64 GoRegexp domain.
Local Open Scope string_scope.

Record CreatePatternRequest := {
  req_InformationType : InformationType;
  req_Pattern : string;
  req_Description : string;
  req_Priority : Z;
}.

Record patternSeed := {
  seed_InformationType : string;
  seed_Pattern : string;
  seed_Description : string;
  seed_Priority : Z;
}.

#[global] Instance ClassificationPattern_eq_dec : EqDecision ClassificationPattern.
Proof. solve_decision. Defined.

Record World := {
  classification_patterns : gmap N ClassificationPattern;
  (** per statement still to come: [Some e] makes it fail with [e] *)
  db_faults : list (option string);
  clock : Time;
  (** what [uuid.New()] is going to return *)
  uuids : list positive;
}.

Definition set_classification_patterns
    (f : gmap N ClassificationPattern → gmap N ClassificationPattern) (w : World) : World :=
  {| classification_patterns := f (classification_patterns w);
     db_faults := db_faults w; clock := clock w; uuids := uuids w |}.

Definition set_db_faults (fs : list (option string)) (w : World) : World :=
  {| classification_patterns := classification_patterns w;
     db_faults := fs; clock := clock w; uuids := uuids w |}.

(** [time.Now()] *)
Definition time_Now (w : World) : World * Time :=
  ({| classification_patterns := classification_patterns w;
      db_faults := db_faults w; clock := (clock w + 1)%Z; uuids := uuids w |},
   clock w).

(** [uuid.New()] *)
Definition uuid_New (w : World) : World * UUID :=
  match uuids w with
  | u :: us =>
      ({| classification_patterns := classification_patterns w;
          db_faults := db_faults w; clock := clock w; uuids := us |}, Npos u)
  | [] => (w, 1%N)
  end.

Definition uuid_Nil : UUID := 0%N.

(** one statement sent to the metadata database: it fails when the world
    says so, and runs otherwise *)
Definition statement {A} (run : World → World * (A + string)) (w : World)
    : World * (A + string) :=
  match db_faults w with
  | Some e :: fs => (set_db_faults fs w, inr e)
  | None :: fs => run (set_db_faults fs w)
  | [] => run w
  end.

(** [ORDER BY priority DESC, created_at DESC] *)
Definition listedBefore (p1 p2 : ClassificationPattern) : Prop :=
  (cp_Priority p2 < cp_Priority p1
   ∨ (cp_Priority p2 = cp_Priority p1 ∧ cp_CreatedAt p2 ≤ cp_CreatedAt p1))%Z.

#[global] Instance listedBefore_dec : RelDecision listedBefore.
Proof. intros p1 p2. unfold listedBefore. apply _. Defined.

Section Repository.
(** how the unique key and [WHERE pattern = ?] compare two texts (the
    collation of the column), the message of the server for a duplicate
    key, and whether [RowsAffected] counts the rows that an [UPDATE] has
    matched ([clientFoundRows] in the DSN) or only those it has changed *)
Variable same_text : string → string → bool.
Variable duplicate_entry : string → string.
Variable clientFoundRows : bool.

(** [ClassificationPatternRepository.Create] *)
Definition repo_Create (pattern : ClassificationPattern) (w : World)
    : World * (unit + string) :=
  match statement (λ w,
          match classification_patterns w !! cp_ID pattern with
          | Some _ => (w, inr (duplicate_entry "PRIMARY"))
          | None =>
              if existsb (λ row, same_text (cp_Pattern row) (cp_Pattern pattern))
                   (map_to_list (classification_patterns w)).*2
              then (w, inr (duplicate_entry "pattern"))
              else (set_classification_patterns (insert (cp_ID pattern) pattern) w,
                    inl ())
          end) w with
  | (w', inr e) => (w', inr ("failed to create classification pattern: " ++ e))
  | r => r
  end.

(** [ClassificationPatternRepository.GetByID] *)
Definition repo_GetByID (id : UUID) (w : World) : World * (ClassificationPattern + string) :=
  match statement (λ w, (w, inl (classification_patterns w !! id))) w with
  | (w', inr e) => (w', inr ("failed to scan classification pattern: " ++ e))
  | (w', inl None) => (w', inr "classification pattern not found")
  | (w', inl (Some p)) => (w', inl p)
  end.

(** [ClassificationPatternRepository.GetAll] *)
Definition repo_GetAll (w : World) : World * (list ClassificationPattern + string) :=
  match statement (λ w,
          (w, inl (merge_sort listedBefore
                     (map_to_list (classification_patterns w)).*2))) w with
  | (w', inr e) => (w', inr ("failed to query classification patterns: " ++ e))
  | r => r
  end.

(** [ClassificationPatternRepository.GetActive]: [WHERE is_active = 1] *)
Definition repo_GetActive (w : World) : World * (list ClassificationPattern + string) :=
  match statement (λ w,
          (w, inl (merge_sort listedBefore
                     (filter (λ p, cp_IsActive p = true)
                        (map_to_list (classification_patterns w)).*2)))) w with
  | (w', inr e) => (w', inr ("failed to query active patterns: " ++ e))
  | r => r
  end.

(** [ClassificationPatternRepository.Update]: every column but [id] and
    [created_at] *)
Definition repo_Update (pattern : ClassificationPattern) (w : World)
    : World * (unit + string) :=
  match statement (λ w,
          match classification_patterns w !! cp_ID pattern with
          | None => (w, inl 0%Z)
          | Some row =>
              let row' :=
                {| cp_ID := cp_ID row;
                   cp_InformationType := cp_InformationType pattern;
                   cp_Pattern := cp_Pattern pattern;
                   cp_Description := cp_Description pattern;
                   cp_Priority := cp_Priority pattern;
                   cp_IsActive := cp_IsActive pattern;
                   cp_CreatedAt := cp_CreatedAt row;
                   cp_UpdatedAt := cp_UpdatedAt pattern |} in
              if existsb (λ other, negb (N.eqb other.1 (cp_ID pattern))
                                   && same_text (cp_Pattern other.2) (cp_Pattern pattern))
                   (map_to_list (classification_patterns w))
              then (w, inr (duplicate_entry "pattern"))
              else
                (set_classification_patterns (insert (cp_ID pattern) row') w,
                 inl (if clientFoundRows || negb (bool_decide (row' = row))
                      then 1%Z else 0%Z))
          end) w with
  | (w', inr e) => (w', inr ("failed to update classification pattern: " ++ e))
  | (w', inl rows) =>
      if (rows =? 0)%Z then (w', inr "classification pattern not found")
      else (w', inl ())
  end.

(** [ClassificationPatternRepository.Delete] *)
Definition repo_Delete (id : UUID) (w : World) : World * (unit + string) :=
  match statement (λ w,
          match classification_patterns w !! id with
          | None => (w, inl 0%Z)
          | Some _ => (set_classification_patterns (delete id) w, inl 1%Z)
          end) w with
  | (w', inr e) => (w', inr ("failed to delete classification pattern: " ++ e))
  | (w', inl rows) =>
      if (rows =? 0)%Z then (w', inr "classification pattern not found")
      else (w', inl ())
  end.

(** [ClassificationPatternRepository.ExistsByPattern] *)
Definition repo_ExistsByPattern (pattern : string) (w : World) : World * (bool + string) :=
  match statement (λ w,
          (w, inl (Z.of_nat (length
                     (filter (λ row, same_text (cp_Pattern row) pattern = true)
                        (map_to_list (classification_patterns w)).*2))))) w with
  | (w', inr e) => (w', inr ("failed to check pattern existence: " ++ e))
  | (w', inl count) => (w', inl (0 <? count)%Z)
  end.

End Repository.

Section Service.
Variable same_text : string → string → bool.
Variable duplicate_entry : string → string.
Variable clientFoundRows : bool.
(** [regexp.Compile], and [loadPatternSeeds]: the file read and parsed *)
Variable Compile : string → Regexp + string.
Variable loadPatternSeeds : string → list patternSeed + string.

Local Abbreviation Service := ClassificationService.ClassificationService.
Local Abbreviation refreshClassifier := (ClassificationService.refreshClassifier Compile).

(** [reloadMatcher]: the service and the world after the call, and the
    error *)
Definition reloadMatcher (s : Service) (w : World) : Service * World * option string :=
  match repo_GetActive w with
  | (w, inr err) => (s, w, Some err)
  | (w, inl patterns) =>
      let '(s, err) := refreshClassifier s patterns in (s, w, err)
  end.

(** the loop of [ensurePatterns] over the seeds *)
Fixpoint ensurePatterns_seed (seedPatterns : list patternSeed) (w : World)
    : World * option string :=
  match seedPatterns with
  | [] => (w, None)
  | seed :: seedPatterns' =>
      match repo_ExistsByPattern same_text (seed_Pattern seed) w with
      | (w, inr err) => (w, Some err)
      | (w, inl true) => ensurePatterns_seed seedPatterns' w
      | (w, inl false) =>
          let '(w, id) := uuid_New w in
          let '(w, createdAt) := time_Now w in
          let '(w, updatedAt) := time_Now w in
          let model :=
            {| cp_ID := id;
               cp_InformationType := seed_InformationType seed;
               cp_Pattern := seed_Pattern seed;
               cp_Description := seed_Description seed;
               cp_Priority := seed_Priority seed;
               cp_IsActive := true;
               cp_CreatedAt := createdAt;
               cp_UpdatedAt := updatedAt |} in
          match repo_Create same_text duplicate_entry model w with
          | (w, inr err) =>
              (w, Some ("failed to seed pattern " ++ seed_Pattern seed ++ ": " ++ err))
          | (w, inl _) => ensurePatterns_seed seedPatterns' w
          end
      end
  end.

Definition ensurePatterns (s : Service) (defaultPatternsPath : string) (w : World)
    : Service * World * option string :=
  match repo_GetActive w with
  | (w, inr err) => (s, w, Some ("failed to load patterns: " ++ err))
  | (w, inl patterns) =>
      if (length patterns =? 0)%nat && negb (String.eqb defaultPatternsPath "") then
        match loadPatternSeeds defaultPatternsPath with
        | inr err => (s, w, Some err)
        | inl seedPatterns =>
            match ensurePatterns_seed seedPatterns w with
            | (w, Some err) => (s, w, Some err)
            | (w, None) =>
                match repo_GetActive w with
                | (w, inr err) => (s, w, Some ("failed to reload patterns: " ++ err))
                | (w, inl patterns) =>
                    let '(s, err) := refreshClassifier s patterns in (s, w, err)
                end
            end
        end
      else
        let '(s, err) := refreshClassifier s patterns in (s, w, err)
  end.

(** [NewClassificationService]: the service, or the error *)
Definition NewClassificationService (defaultPatternsPath : string) (w : World)
    : World * (Service + string) :=
  let svc := {| ClassificationService.matcher := None |} in
  match ensurePatterns svc defaultPatternsPath w with
  | (_, w, Some err) => (w, inr err)
  | (svc, w, None) => (w, inl svc)
  end.

Definition CreatePattern (s : Service) (req : CreatePatternRequest) (w : World)
    : Service * World * (UUID + string) :=
  match repo_ExistsByPattern same_text (req_Pattern req) w with
  | (w, inr err) => (s, w, inr err)
  | (w, inl true) => (s, w, inr "pattern already exists")
  | (w, inl false) =>
      let '(w, id) := uuid_New w in
      let '(w, now) := time_Now w in
      let pattern :=
        {| cp_ID := id;
           cp_InformationType := req_InformationType req;
           cp_Pattern := req_Pattern req;
           cp_Description := req_Description req;
           cp_Priority := req_Priority req;
           cp_IsActive := true;
           cp_CreatedAt := now;
           cp_UpdatedAt := now |} in
      match repo_Create same_text duplicate_entry pattern w with
      | (w, inr err) => (s, w, inr ("failed to create pattern: " ++ err))
      | (w, inl _) =>
          match reloadMatcher s w with
          | (s, w, Some err) => (s, w, inr err)
          | (s, w, None) => (s, w, inl id)
          end
      end
  end.

Definition GetPattern (id : UUID) (w : World) : World * (ClassificationPattern + string) :=
  repo_GetByID id w.

Definition GetAllPatterns (w : World) : World * (list ClassificationPattern + string) :=
  repo_GetAll w.

Definition UpdatePattern (s : Service) (id : UUID) (req : CreatePatternRequest) (w : World)
    : Service * World * option string :=
  match repo_GetByID id w with
  | (w, inr err) => (s, w, Some err)
  | (w, inl pattern) =>
      let '(w, now) := time_Now w in
      let pattern :=
        {| cp_ID := cp_ID pattern;
           cp_InformationType := req_InformationType req;
           cp_Pattern := req_Pattern req;
           cp_Description := req_Description req;
           cp_Priority := req_Priority req;
           cp_IsActive := true;
           cp_CreatedAt := cp_CreatedAt pattern;
           cp_UpdatedAt := now |} in
      match repo_Update same_text duplicate_entry clientFoundRows pattern w with
      | (w, inr err) => (s, w, Some ("failed to update pattern: " ++ err))
      | (w, inl _) => reloadMatcher s w
      end
  end.

Definition DeletePattern (s : Service) (id : UUID) (w : World)
    : Service * World * option string :=
  match repo_Delete id w with
  | (w, inr err) => (s, w, Some err)
  | (w, inl _) => reloadMatcher s w
  end.

End Service.

End PatternService.

(* ===================================================================== *)
(** * Facts about [sort.Slice] *)

Module GoSortFacts.

Import GoSort.

Section Permutation.
Context {A : Type}.
Variable lt : A → A → bool.
Variable next : Z → Z.

Lemma Swap_length (d : list A) i j : length (Swap d i j) = length d.
Proof.
  unfold Swap. destruct (d !! i), (d !! j); try done.
  by rewrite !length_insert.
Qed.

Lemma insert_swap_perm (d : list A) j x y :
  d !! j = Some y → y :: <[j:=x]> d ≡ₚ x :: d.
Proof.
  intros Hj. rewrite <- (take_drop_middle d j y Hj) at 2.
  rewrite insert_take_drop by (by eapply lookup_lt_Some).
  rewrite <- !Permutation_middle. apply perm_swap.
Qed.

Lemma Swap_perm (d : list A) i j : Swap d i j ≡ₚ d.
Proof.
  unfold Swap.
  destruct (d !! i) as [x|] eqn:Hi; [|done].
  destruct (d !! j) as [y|] eqn:Hj; [|done].
  revert i j Hi Hj. induction d as [|a d IH]; intros [|i] [|j] Hi Hj;
    simplify_eq/=; try done.
  - by apply insert_swap_perm.
  - by apply insert_swap_perm.
  - constructor. by apply IH.
Qed.

Hint Resolve Swap_perm : core.

Lemma insertionSort_inner_perm d a j : insertionSort_inner lt d a j ≡ₚ d.
Proof.
  revert d. induction j as [|j IH]; intros d; simpl; [done|].
  case_match; [|done]. by rewrite IH.
Qed.

Lemma insertionSort_outer_perm n d a i : insertionSort_outer lt n d a i ≡ₚ d.
Proof.
  revert d i. induction n as [|n IH]; intros d i; simpl; [done|].
  by rewrite IH, insertionSort_inner_perm.
Qed.

Lemma insertionSort_func_perm d a b : insertionSort_func lt d a b ≡ₚ d.
Proof. apply insertionSort_outer_perm. Qed.

Lemma siftDown_loop_perm fuel d root hi first :
  siftDown_loop lt fuel d root hi first ≡ₚ d.
Proof.
  revert d root. induction fuel as [|fuel IH]; intros d root; simpl; [done|].
  repeat case_match; try done; by rewrite IH.
Qed.

Lemma siftDown_func_perm d lo hi first : siftDown_func lt d lo hi first ≡ₚ d.
Proof. apply siftDown_loop_perm. Qed.

Lemma heapSort_build_perm d i hi first : heapSort_build lt d i hi first ≡ₚ d.
Proof.
  revert d. induction i as [|i IH]; intros d; simpl.
  - apply siftDown_func_perm.
  - by rewrite IH, siftDown_func_perm.
Qed.

Lemma heapSort_pop_perm d n first : heapSort_pop lt d n first ≡ₚ d.
Proof.
  revert d. induction n as [|n IH]; intros d; simpl; [done|].
  by rewrite IH, siftDown_func_perm.
Qed.

Lemma heapSort_func_perm d a b : heapSort_func lt d a b ≡ₚ d.
Proof.
  unfold heapSort_func. by rewrite heapSort_pop_perm, heapSort_build_perm.
Qed.

Lemma partition_loop_perm fuel d a i j :
  (partition_loop lt fuel d a i j).1 ≡ₚ d.
Proof.
  revert d i j. induction fuel as [|fuel IH]; intros d i j; simpl; [done|].
  case_match; [done|]. by rewrite IH.
Qed.

Lemma partition_func_perm d a b pivot : (partition_func lt d a b pivot).1.1 ≡ₚ d.
Proof.
  unfold partition_func. case_match; simpl.
  - by rewrite !Swap_perm.
  - destruct (partition_loop _ _ _ _ _ _) as [d' j'] eqn:E. simpl.
    rewrite Swap_perm.
    change d' with (d', j').1. rewrite <- E.
    by rewrite partition_loop_perm, !Swap_perm.
Qed.

Lemma partitionEqual_loop_perm fuel d a i j :
  (partitionEqual_loop lt fuel d a i j).1 ≡ₚ d.
Proof.
  revert d i j. induction fuel as [|fuel IH]; intros d i j; simpl; [done|].
  case_match; [done|]. by rewrite IH.
Qed.

Lemma partitionEqual_func_perm d a b pivot :
  (partitionEqual_func lt d a b pivot).1 ≡ₚ d.
Proof.
  unfold partitionEqual_func. by rewrite partitionEqual_loop_perm.
Qed.

Lemma partialInsertionSort_left_perm d j : partialInsertionSort_left lt d j ≡ₚ d.
Proof.
  revert d. induction j as [|j IH]; intros d; simpl; [done|].
  case_match; [done|]. by rewrite IH.
Qed.

Lemma partialInsertionSort_right_perm fuel d j b :
  partialInsertionSort_right lt fuel d j b ≡ₚ d.
Proof.
  revert d j. induction fuel as [|fuel IH]; intros d j; simpl; [done|].
  repeat case_match; try done. by rewrite IH.
Qed.

Lemma partialInsertionSort_steps_perm steps d a b i :
  (partialInsertionSort_steps lt steps d a b i).1 ≡ₚ d.
Proof.
  revert d i. induction steps as [|steps IH]; intros d i;
    cbn [partialInsertionSort_steps]; [done|].
  repeat case_match; simpl; try done; rewrite IH;
    rewrite ?partialInsertionSort_right_perm, ?partialInsertionSort_left_perm;
    apply Swap_perm.
Qed.

Lemma partialInsertionSort_func_perm d a b :
  (partialInsertionSort_func lt d a b).1 ≡ₚ d.
Proof. apply partialInsertionSort_steps_perm. Qed.

Lemma breakPatterns_loop_perm n (d : list A) a len idx i random :
  breakPatterns_loop next n d a len idx i random ≡ₚ d.
Proof.
  revert d i random. induction n as [|n IH]; intros d i random; simpl; [done|].
  by rewrite IH.
Qed.

Lemma breakPatterns_func_perm (d : list A) a b :
  breakPatterns_func next d a b ≡ₚ d.
Proof.
  unfold breakPatterns_func. case_match; [|done]. apply breakPatterns_loop_perm.
Qed.

Lemma reverseRange_loop_perm fuel (d : list A) i j :
  reverseRange_loop fuel d i j ≡ₚ d.
Proof.
  revert d i j. induction fuel as [|fuel IH]; intros d i j; simpl; [done|].
  case_match; [|done]. by rewrite IH.
Qed.

Lemma reverseRange_func_perm (d : list A) a b : reverseRange_func d a b ≡ₚ d.
Proof. apply reverseRange_loop_perm. Qed.

Lemma pdqsort_loop_perm fuel d a b limit wb wp :
  pdqsort_loop lt next fuel d a b limit wb wp ≡ₚ d.
Proof.
  revert d a b limit wb wp.
  induction fuel as [|fuel IH]; intros d a b limit wb wp; [done|].
  cbn [pdqsort_loop].
  case_match; [apply insertionSort_func_perm|].
  case_match; [apply heapSort_func_perm|].
  set (d1 := if negb wb then _ else _).
  assert (Hd1 : d1.1 ≡ₚ d).
  { subst d1. destruct wb; simpl; [done|apply breakPatterns_func_perm]. }
  destruct d1 as [d1 limit1]. simpl in Hd1.
  destruct (choosePivot_func lt d1 a b) as [pivot hint].
  set (d2 := match hint with decreasingHint => _ | _ => _ end).
  assert (Hd2 : d2.1.1 ≡ₚ d).
  { subst d2. destruct hint; simpl; try done. by rewrite reverseRange_func_perm. }
  destruct d2 as [[d2 pivot2] hint2]. simpl in Hd2.
  set (d3 := match hint2 with increasingHint => _ | _ => _ end).
  assert (Hd3 : d3.1 ≡ₚ d).
  { subst d3. destruct hint2; simpl; try done.
    case_match; [|done]. by rewrite partialInsertionSort_func_perm. }
  destruct d3 as [d3 done_]. simpl in Hd3.
  destruct done_; [done|].
  case_match.
  - pose proof (partitionEqual_func_perm d3 a b pivot2) as Hp.
    destruct (partitionEqual_func lt d3 a b pivot2) as [d4 mid]. simpl in Hp.
    by rewrite IH, Hp.
  - pose proof (partition_func_perm d3 a b pivot2) as Hp.
    destruct (partition_func lt d3 a b pivot2) as [[d4 mid] ap]. simpl in Hp.
    case_match; by rewrite !IH, Hp.
Qed.

Lemma Slice_with_perm d : Slice_with lt next d ≡ₚ d.
Proof. apply pdqsort_loop_perm. Qed.

End Permutation.

(** ** Ranges of a slice *)

Section Ranges.
Context {A : Type}.
Variable lt : A → A → bool.

(** the transposition of [i] and [j] *)
Definition tr (i j p : nat) : nat :=
  if decide (p = i) then j else if decide (p = j) then i else p.

Lemma Swap_lookup (d : list A) i j k :
  i < length d → j < length d → Swap d i j !! k = d !! tr i j k.
Proof.
  intros Hi Hj. unfold Swap, tr.
  destruct (lookup_lt_is_Some_2 d i Hi) as [x Hx].
  destruct (lookup_lt_is_Some_2 d j Hj) as [y Hy].
  rewrite Hx, Hy.
  destruct (decide (k = j)) as [->|Hkj].
  - rewrite list_lookup_insert_eq by (by rewrite length_insert).
    case_decide; by subst.
  - rewrite list_lookup_insert_ne by done.
    destruct (decide (k = i)) as [->|Hki].
    + by rewrite list_lookup_insert_eq.
    + by rewrite list_lookup_insert_ne.
Qed.

Lemma Less_Swap (d : list A) i j p q :
  i < length d → j < length d →
  Less lt (Swap d i j) p q = Less lt d (tr i j p) (tr i j q).
Proof. intros Hi Hj. unfold Less. by rewrite !Swap_lookup. Qed.

(** every element of [d] at an index of [[a, b)] satisfies [P] *)
Definition all_in (d : list A) (a b : nat) (P : A → Prop) : Prop :=
  ∀ k x, d !! k = Some x → a ≤ k < b → P x.

(** [d'] is [d] with the elements at the indices of [[a, b)] moved among
    themselves *)
Record stay (a b : nat) (d d' : list A) : Prop := {
  stay_length : length d' = length d;
  stay_outside : ∀ k, k < a ∨ b ≤ k → d' !! k = d !! k;
  stay_inside : ∀ k, a ≤ k < b → ∃ k', a ≤ k' < b ∧ d' !! k = d !! k';
}.

Lemma stay_refl a b d : stay a b d d.
Proof. split; [done|done|]. intros k Hk. by exists k. Qed.

Lemma stay_trans a b d1 d2 d3 : stay a b d1 d2 → stay a b d2 d3 → stay a b d1 d3.
Proof.
  intros [L1 O1 I1] [L2 O2 I2]. split.
  - congruence.
  - intros k Hk. by rewrite O2, O1.
  - intros k Hk. destruct (I2 k Hk) as (k' & Hk' & ->). apply I1, Hk'.
Qed.

Lemma stay_mono a b a' b' d d' :
  stay a b d d' → a' ≤ a → b ≤ b' → stay a' b' d d'.
Proof.
  intros [L O I] Ha Hb. split; [done| |].
  - intros k Hk. apply O. lia.
  - intros k Hk. destruct (decide (a ≤ k < b)) as [Hin|Hout].
    + destruct (I k Hin) as (k' & Hk' & ->). exists k'. split; [lia|done].
    + exists k. split; [done|]. apply O. lia.
Qed.

Lemma stay_Swap a b (d : list A) i j :
  a ≤ i < b → a ≤ j < b → stay a b d (Swap d i j).
Proof.
  intros Hi Hj.
  destruct (decide (i < length d ∧ j < length d)) as [[Li Lj]|Hout].
  - split.
    + apply Swap_length.
    + intros k Hk. rewrite Swap_lookup by done. unfold tr.
      repeat case_decide; try done; lia.
    + intros k Hk. exists (tr i j k). rewrite Swap_lookup by done.
      split; [|done]. unfold tr. repeat case_decide; lia.
  - assert (Swap d i j = d) as ->; [|apply stay_refl].
    unfold Swap.
    destruct (d !! i) eqn:Ei; [|done]. destruct (d !! j) eqn:Ej; [|done].
    apply lookup_lt_Some in Ei, Ej. lia.
Qed.

Lemma all_in_stay a b d d' P : stay a b d d' → all_in d a b P → all_in d' a b P.
Proof.
  intros [_ _ I] H k x Hx Hk. destruct (I k Hk) as (k' & Hk' & E).
  rewrite E in Hx. by eapply H.
Qed.

Lemma all_in_stay_sub a b a' b' d d' P :
  stay a' b' d d' → all_in d a b P → a ≤ a' → b' ≤ b → all_in d' a b P.
Proof. intros Hs H Ha Hb. eapply all_in_stay; [|done]. by eapply stay_mono. Qed.

Lemma all_in_stay_out a b a' b' d d' P :
  stay a' b' d d' → all_in d a b P → b ≤ a' ∨ b' ≤ a → all_in d' a b P.
Proof.
  intros [_ O _] H Hd k x Hx Hk. rewrite O in Hx by lia. by eapply H.
Qed.

Lemma all_in_sub a b a' b' d P :
  all_in d a b P → a ≤ a' → b' ≤ b → all_in d a' b' P.
Proof. intros H Ha Hb k x Hx Hk. eapply H; [done|lia]. Qed.

Lemma all_in_impl a b d (P Q : A → Prop) :
  (∀ x, P x → Q x) → all_in d a b P → all_in d a b Q.
Proof. intros HPQ H k x Hx Hk. eapply HPQ, H; done. Qed.

(** [d[a:b]] is in order: no element is less than an earlier one *)
Definition sorted_range (d : list A) (a b : nat) : Prop :=
  ∀ i j x y, d !! i = Some x → d !! j = Some y →
    a ≤ i → i ≤ j → j < b → lt y x = false.

Lemma sorted_range_stay_out a b a' b' d d' :
  stay a' b' d d' → sorted_range d a b → b ≤ a' ∨ b' ≤ a → sorted_range d' a b.
Proof.
  intros [_ O _] H Hd i j x y Hx Hy Hi Hij Hj.
  rewrite O in Hx, Hy by lia. by eapply H.
Qed.

End Ranges.

(** ** The sorted result

    [lt] is a strict weak order: asymmetric, and "not less" is
    transitive. *)

Section Sorted.
Context {A : Type}.
Variable lt : A → A → bool.
Variable next : Z → Z.
Hypothesis lt_asym : ∀ x y, lt x y = true → lt y x = false.
Hypothesis lt_negtrans : ∀ x y z, lt x y = false → lt y z = false → lt x z = false.

Lemma lt_irrefl x : lt x x = false.
Proof. destruct (lt x x) eqn:E; [|done]. by rewrite (lt_asym x x E) in E. Qed.

Lemma lt_trans_l x y z : lt x y = true → lt z y = false → lt x z = true.
Proof.
  intros Hxy Hzy. destruct (lt x z) eqn:E; [done|].
  by rewrite (lt_negtrans x z y E Hzy) in Hxy.
Qed.

Lemma lt_trans_r x y z : lt y x = false → lt y z = true → lt x z = true.
Proof.
  intros Hyx Hyz. destruct (lt x z) eqn:E; [done|].
  by rewrite (lt_negtrans y x z Hyx E) in Hyz.
Qed.

Lemma Less_eq (d : list A) i j x y :
  d !! i = Some x → d !! j = Some y → Less lt d i j = lt x y.
Proof. intros Hi Hj. unfold Less. by rewrite Hi, Hj. Qed.

(** the element at an index inside the slice *)
Ltac elem d k x H :=
  let L := fresh in
  assert (L : k < length d) by lia;
  destruct (lookup_lt_is_Some_2 d k L) as [x H]; clear L.

(** lookups in a swapped slice, by cases on the index *)
Ltac swap_cases :=
  rewrite ?Swap_lookup by lia; unfold tr; intros;
  repeat case_decide; simplify_eq; try lia.

Lemma insertionSort_inner_spec d a j i :
  a ≤ j → j ≤ i → i < length d →
  (∀ p q x y, d !! p = Some x → d !! q = Some y →
     a ≤ p → p ≤ q → q ≤ i → p ≠ j → q ≠ j → lt y x = false) →
  (∀ q x y, d !! j = Some x → d !! q = Some y → j < q → q ≤ i → lt y x = false) →
  stay a (S i) d (insertionSort_inner lt d a j)
  ∧ sorted_range lt (insertionSort_inner lt d a j) a (S i).
Proof.
  revert d. induction j as [|j IH]; intros d Ha Hj Hi H1 H2.
  - simpl. split; [apply stay_refl|].
    intros p q x y Hx Hy Hp Hpq Hq.
    destruct (decide (p = 0)) as [->|Hp0].
    + destruct (decide (q = 0)) as [->|Hq0].
      * simplify_eq. apply lt_irrefl.
      * eapply H2; [done|done|lia..].
    + eapply (H1 p q); [done|done|lia..].
  - cbn [insertionSort_inner].
    destruct ((a <? S j) && Less lt d (S j) j) eqn:Hc.
    + apply andb_true_iff in Hc as [Ha' HL]. apply Nat.ltb_lt in Ha'.
      elem d (S j) u Hu. elem d j v Hv.
      rewrite (Less_eq d _ _ u v Hu Hv) in HL.
      destruct (IH (Swap d (S j) j)) as [Hs Hsorted].
      * lia.
      * lia.
      * by rewrite Swap_length.
      * intros p q x y. swap_cases;
          solve [ apply lt_irrefl | eapply H1; [done|done|lia..] ].
      * intros q x y. swap_cases;
          solve [ by apply lt_asym | eapply H2; [done|done|lia..] ].
      * split; [|done]. eapply stay_trans; [|done]. apply stay_Swap; lia.
    + split; [apply stay_refl|].
      intros p q x y Hx Hy Hp Hpq Hq.
      destruct (decide (p = S j)) as [->|Hpj].
      { destruct (decide (q = S j)) as [->|Hqj].
        - simplify_eq. apply lt_irrefl.
        - eapply (H2 q); [done|done|lia..]. }
      destruct (decide (q = S j)) as [->|Hqj].
      2:{ eapply (H1 p q); [done|done|lia..]. }
      apply andb_false_iff in Hc as [Hc|Hc]; [apply Nat.ltb_ge in Hc; lia|].
      elem d j v Hv.
      rewrite (Less_eq d _ _ y v Hy Hv) in Hc.
      destruct (decide (p = j)) as [->|Hpj'].
      * by simplify_eq.
      * eapply lt_negtrans; [done|].
        eapply (H1 p j); [done|done|lia..].
Qed.

Lemma insertionSort_outer_spec n d a i :
  a < i → i + n ≤ length d → sorted_range lt d a i →
  stay a (i + n) d (insertionSort_outer lt n d a i)
  ∧ sorted_range lt (insertionSort_outer lt n d a i) a (i + n).
Proof.
  revert d i. induction n as [|n IH]; intros d i Hai Hlen Hs.
  - simpl. rewrite Nat.add_0_r. split; [apply stay_refl|done].
  - cbn [insertionSort_outer].
    destruct (insertionSort_inner_spec d a i i) as [Hst Hso]; [lia..| | |].
    { intros p q x y ???????. eapply (Hs p q); [done|done|lia..]. }
    { intros; lia. }
    destruct (IH (insertionSort_inner lt d a i) (S i)) as [Hst' Hso'];
      [lia| |done|].
    { rewrite (stay_length _ _ _ _ Hst). lia. }
    replace (i + S n) with (S i + n) by lia. split; [|done].
    eapply stay_trans; [|done]. eapply stay_mono; [done|lia..].
Qed.

Lemma sorted_range_short (d : list A) a b : b ≤ a + 1 → sorted_range lt d a b.
Proof.
  intros Hb i j x y Hx Hy Hi Hij Hj.
  assert (i = j) as -> by lia. simplify_eq. apply lt_irrefl.
Qed.

Lemma insertionSort_func_spec d a b :
  b ≤ length d →
  stay a b d (insertionSort_func lt d a b)
  ∧ sorted_range lt (insertionSort_func lt d a b) a b.
Proof.
  intros Hb. unfold insertionSort_func.
  destruct (decide (b ≤ a + 1)) as [Hs|Hl].
  - replace (b - (a + 1)) with 0 by lia. simpl.
    split; [apply stay_refl|by apply sorted_range_short].
  - destruct (insertionSort_outer_spec (b - (a + 1)) d a (a + 1)) as [H1 H2];
      [lia|lia|apply sorted_range_short; lia|].
    by replace (a + 1 + (b - (a + 1))) with b in * by lia.
Qed.

(** *** [partition_func] *)

Lemma partition_up_spec fuel d a i j v :
  d !! a = Some v → j < length d → S j - i ≤ fuel → i ≤ S j →
  i ≤ partition_up lt fuel d a i j ≤ S j
  ∧ all_in d i (partition_up lt fuel d a i j) (λ x, lt x v = true)
  ∧ (partition_up lt fuel d a i j ≤ j →
       ∃ x, d !! partition_up lt fuel d a i j = Some x ∧ lt x v = false).
Proof.
  intros Hv Hj. revert i. induction fuel as [|fuel IH]; intros i Hf Hi.
  - simpl. assert (i = S j) as -> by lia.
    split; [lia|]. split; [intros k x _ ?; lia|lia].
  - cbn [partition_up]. destruct ((i <=? j) && Less lt d i a) eqn:Hc.
    + apply andb_true_iff in Hc as [Hij HL]. apply Nat.leb_le in Hij.
      elem d i x Hx. rewrite (Less_eq d _ _ x v Hx Hv) in HL.
      destruct (IH (S i)) as (Hr & Hall & Hstop); [lia..|].
      split; [lia|]. split; [|done].
      intros k y Hy Hk. destruct (decide (k = i)) as [->|]; [by simplify_eq|].
      eapply Hall; [done|lia].
    + split; [lia|]. split; [intros k x _ ?; lia|].
      intros Hij. apply andb_false_iff in Hc as [Hc|Hc];
        [apply Nat.leb_gt in Hc; lia|].
      elem d i x Hx. rewrite (Less_eq d _ _ x v Hx Hv) in Hc. eauto.
Qed.

Lemma partition_down_spec d a i j v :
  d !! a = Some v → j < length d → 1 ≤ i → i ≤ S j →
  i ≤ S (partition_down lt d a i j) ∧ partition_down lt d a i j ≤ j
  ∧ all_in d (S (partition_down lt d a i j)) (S j) (λ x, lt x v = false)
  ∧ (i ≤ partition_down lt d a i j →
       ∃ x, d !! partition_down lt d a i j = Some x ∧ lt x v = true).
Proof.
  intros Hv. induction j as [|j IH]; intros Hj Hi1 Hi.
  - simpl. split; [lia|]. split; [lia|]. split; [intros k x _ ?; lia|lia].
  - cbn [partition_down]. destruct ((i <=? S j) && negb (Less lt d (S j) a)) eqn:Hc.
    + apply andb_true_iff in Hc as [Hij HL]. apply Nat.leb_le in Hij.
      apply negb_true_iff in HL.
      elem d (S j) x Hx. rewrite (Less_eq d _ _ x v Hx Hv) in HL.
      destruct IH as (Hr1 & Hr2 & Hall & Hstop); [lia..|].
      split; [lia|]. split; [lia|]. split; [|done].
      intros k y Hy Hk. destruct (decide (k = S j)) as [->|]; [by simplify_eq|].
      eapply Hall; [done|lia].
    + split; [lia|]. split; [lia|]. split; [intros k x _ ?; lia|].
      intros Hij. apply andb_false_iff in Hc as [Hc|Hc];
        [apply Nat.leb_gt in Hc; lia|].
      apply negb_false_iff in Hc.
      elem d (S j) x Hx. rewrite (Less_eq d _ _ x v Hx Hv) in Hc. eauto.
Qed.

Lemma all_in_join (d : list A) a m b P :
  all_in d a m P → all_in d m b P → all_in d a b P.
Proof.
  intros H1 H2 k x Hx Hk. destruct (decide (k < m)); [eapply H1|eapply H2]; eauto with lia.
Qed.

Lemma all_in_empty (d : list A) a b P : b ≤ a → all_in d a b P.
Proof. intros ? k x _ ?. lia. Qed.

Lemma all_in_one (d : list A) k x (P : A → Prop) :
  d !! k = Some x → P x → all_in d k (S k) P.
Proof. intros Hx HP k' x' Hx' Hk'. assert (k' = k) as -> by lia. by simplify_eq. Qed.

Lemma partition_loop_spec fuel d a i j b v :
  d !! a = Some v → a < i → i ≤ S j → j < b → b ≤ length d → S j - i ≤ fuel →
  all_in d (S a) i (λ x, lt x v = true) →
  all_in d (S j) b (λ x, lt x v = false) →
  ∀ d' j', partition_loop lt fuel d a i j = (d', j') →
  stay (S a) b d d' ∧ a ≤ j' ∧ j' < b
  ∧ all_in d' (S a) (S j') (λ x, lt x v = true)
  ∧ all_in d' (S j') b (λ x, lt x v = false).
Proof.
  revert d i j. induction fuel as [|fuel IH];
    intros d i j Hv Hai Hij Hjb Hb Hf Hlo Hhi d' j' E.
  - simpl in E. simplify_eq. assert (i = S j') as -> by lia.
    split; [apply stay_refl|]. repeat split; try done; lia.
  - cbn [partition_loop] in E.
    destruct (partition_up_spec (S j - i) d a i j v) as (Hi1 & Hup & Hupstop);
      [done|lia|lia|lia|].
    set (i1 := partition_up lt (S j - i) d a i j) in *.
    destruct (partition_down_spec d a i1 j v) as (Hj1 & Hj2 & Hdown & Hdownstop);
      [done|lia|lia|lia|].
    set (j1 := partition_down lt d a i1 j) in *.
    assert (Hlo1 : all_in d (S a) i1 (λ x, lt x v = true)) by (by eapply all_in_join).
    assert (Hhi1 : all_in d (S j1) b (λ x, lt x v = false)) by (by eapply all_in_join).
    destruct (j1 <? i1) eqn:Hc.
    + apply Nat.ltb_lt in Hc. simplify_eq.
      split; [apply stay_refl|]. split; [lia|]. split; [lia|].
      split; [|done]. eapply all_in_sub; [exact Hlo1|lia..].
    + apply Nat.ltb_ge in Hc.
      destruct Hupstop as (x & Hx & Hxv); [lia|].
      destruct Hdownstop as (y & Hy & Hyv); [lia|].
      assert (i1 ≠ j1) by (intros ?; simplify_eq; congruence).
      assert (Hst : stay (S a) b d (Swap d i1 j1)) by (apply stay_Swap; lia).
      eapply IH in E as (Hst' & ? & ? & Hlo' & Hhi').
      * split; [by eapply stay_trans|]. done.
      * rewrite Swap_lookup by lia. unfold tr. repeat case_decide; try lia. done.
      * lia.
      * lia.
      * lia.
      * by rewrite Swap_length.
      * lia.
      * intros k z. swap_cases; first [done | eapply Hlo1; [done|lia]].
      * intros k z. swap_cases; first [done | eapply Hhi1; [done|lia]].
Qed.

Lemma partition_func_spec d a b pivot :
  a ≤ pivot → pivot < b → b ≤ length d →
  ∀ d' mid ap, partition_func lt d a b pivot = (d', mid, ap) →
  stay a b d d' ∧ a ≤ mid ∧ mid < b
  ∧ ∃ v, d' !! mid = Some v
       ∧ all_in d' a mid (λ x, lt x v = true)
       ∧ all_in d' (S mid) b (λ x, lt x v = false).
Proof.
  intros Hap Hpb Hb d' mid ap E. unfold partition_func in E.
  assert (Hst0 : stay a b d (Swap d a pivot)) by (apply stay_Swap; lia).
  set (d0 := Swap d a pivot) in *.
  assert (Hb0 : b ≤ length d0) by (subst d0; by rewrite Swap_length).
  elem d0 a v Hv.
  replace (S (b - 1)) with b in E by lia.
  destruct (partition_up_spec (b - (a + 1)) d0 a (a + 1) (b - 1) v)
    as (Hi1 & Hup & Hupstop); [done|lia|lia|lia|].
  set (i1 := partition_up lt (b - (a + 1)) d0 a (a + 1) (b - 1)) in *.
  destruct (partition_down_spec d0 a i1 (b - 1) v)
    as (Hj1 & Hj2 & Hdown & Hdownstop); [done|lia|lia|lia|].
  set (j1 := partition_down lt d0 a i1 (b - 1)) in *.
  replace (S (b - 1)) with b in Hdown by lia.
  replace (a + 1) with (S a) in Hup by lia.
  (* the last step: the pivot goes to [j] *)
  assert (Hfin : ∀ d1 j, stay (S a) b d0 d1 → a ≤ j → j < b →
            all_in d1 (S a) (S j) (λ x, lt x v = true) →
            all_in d1 (S j) b (λ x, lt x v = false) →
            stay a b d (Swap d1 j a) ∧ a ≤ j ∧ j < b
            ∧ ∃ v, Swap d1 j a !! j = Some v
                 ∧ all_in (Swap d1 j a) a j (λ x, lt x v = true)
                 ∧ all_in (Swap d1 j a) (S j) b (λ x, lt x v = false)).
  { intros d1 j Hst1 Haj Hjb Hlo Hhi.
    assert (Hl1 : length d1 = length d0) by apply Hst1.
    assert (Hv1 : d1 !! a = Some v).
    { rewrite (stay_outside _ _ _ _ Hst1) by lia. done. }
    split; [|split; [done|split; [done|]]].
    { eapply stay_trans; [done|]. eapply stay_trans.
      - eapply stay_mono; [done|lia..].
      - apply stay_Swap; lia. }
    exists v. split; [|split].
    - rewrite Swap_lookup by lia. unfold tr. repeat case_decide; try lia; done.
    - intros k z. swap_cases; first [done | eapply Hlo; [done|lia]].
    - intros k z. swap_cases; first [done | eapply Hhi; [done|lia]]. }
  destruct (j1 <? i1) eqn:Hc.
  - apply Nat.ltb_lt in Hc. simplify_eq.
    apply Hfin; [apply stay_refl|lia|lia| |done].
    eapply all_in_sub; [exact Hup|lia..].
  - apply Nat.ltb_ge in Hc.
    destruct Hupstop as (x & Hx & Hxv); [lia|].
    destruct Hdownstop as (y & Hy & Hyv); [lia|].
    assert (i1 ≠ j1) by (intros ?; simplify_eq; congruence).
    destruct (partition_loop lt (b - a) (Swap d0 i1 j1) a (S i1) (j1 - 1))
      as [d1 j2] eqn:El.
    simplify_eq.
    eapply partition_loop_spec in El as (Hst' & ? & ? & Hlo' & Hhi').
    + apply Hfin; try done. eapply stay_trans; [|done]. apply stay_Swap; lia.
    + rewrite Swap_lookup by lia. unfold tr. repeat case_decide; try lia. done.
    + lia.
    + lia.
    + lia.
    + by rewrite Swap_length.
    + lia.
    + intros k z. swap_cases; first [done | eapply Hup; [done|lia]].
    + intros k z. swap_cases; first [done | eapply Hdown; [done|lia]].
Qed.

(** *** [partitionEqual_func] *)

Lemma partitionEqual_up_spec fuel d a i j v :
  d !! a = Some v → j < length d → S j - i ≤ fuel → i ≤ S j →
  i ≤ partitionEqual_up lt fuel d a i j ≤ S j
  ∧ all_in d i (partitionEqual_up lt fuel d a i j) (λ x, lt v x = false)
  ∧ (partitionEqual_up lt fuel d a i j ≤ j →
       ∃ x, d !! partitionEqual_up lt fuel d a i j = Some x ∧ lt v x = true).
Proof.
  intros Hv Hj. revert i. induction fuel as [|fuel IH]; intros i Hf Hi.
  - simpl. assert (i = S j) as -> by lia.
    split; [lia|]. split; [intros k x _ ?; lia|lia].
  - cbn [partitionEqual_up]. destruct ((i <=? j) && negb (Less lt d a i)) eqn:Hc.
    + apply andb_true_iff in Hc as [Hij HL]. apply Nat.leb_le in Hij.
      apply negb_true_iff in HL.
      elem d i x Hx. rewrite (Less_eq d _ _ v x Hv Hx) in HL.
      destruct (IH (S i)) as (Hr & Hall & Hstop); [lia..|].
      split; [lia|]. split; [|done].
      intros k y Hy Hk. destruct (decide (k = i)) as [->|]; [by simplify_eq|].
      eapply Hall; [done|lia].
    + split; [lia|]. split; [intros k x _ ?; lia|].
      intros Hij. apply andb_false_iff in Hc as [Hc|Hc];
        [apply Nat.leb_gt in Hc; lia|].
      apply negb_false_iff in Hc.
      elem d i x Hx. rewrite (Less_eq d _ _ v x Hv Hx) in Hc. eauto.
Qed.

Lemma partitionEqual_down_spec d a i j v :
  d !! a = Some v → j < length d → 1 ≤ i → i ≤ S j →
  i ≤ S (partitionEqual_down lt d a i j) ∧ partitionEqual_down lt d a i j ≤ j
  ∧ all_in d (S (partitionEqual_down lt d a i j)) (S j) (λ x, lt v x = true)
  ∧ (i ≤ partitionEqual_down lt d a i j →
       ∃ x, d !! partitionEqual_down lt d a i j = Some x ∧ lt v x = false).
Proof.
  intros Hv. induction j as [|j IH]; intros Hj Hi1 Hi.
  - simpl. split; [lia|]. split; [lia|]. split; [intros k x _ ?; lia|lia].
  - cbn [partitionEqual_down]. destruct ((i <=? S j) && Less lt d a (S j)) eqn:Hc.
    + apply andb_true_iff in Hc as [Hij HL]. apply Nat.leb_le in Hij.
      elem d (S j) x Hx. rewrite (Less_eq d _ _ v x Hv Hx) in HL.
      destruct IH as (Hr1 & Hr2 & Hall & Hstop); [lia..|].
      split; [lia|]. split; [lia|]. split; [|done].
      intros k y Hy Hk. destruct (decide (k = S j)) as [->|]; [by simplify_eq|].
      eapply Hall; [done|lia].
    + split; [lia|]. split; [lia|]. split; [intros k x _ ?; lia|].
      intros Hij. apply andb_false_iff in Hc as [Hc|Hc];
        [apply Nat.leb_gt in Hc; lia|].
      elem d (S j) x Hx. rewrite (Less_eq d _ _ v x Hv Hx) in Hc. eauto.
Qed.

Lemma partitionEqual_loop_spec fuel d a i j b v :
  d !! a = Some v → a < i → i ≤ S j → j < b → b ≤ length d → S j - i ≤ fuel →
  all_in d (S a) i (λ x, lt v x = false) →
  all_in d (S j) b (λ x, lt v x = true) →
  ∀ d' i', partitionEqual_loop lt fuel d a i j = (d', i') →
  stay (S a) b d d' ∧ a < i' ∧ i' ≤ b
  ∧ all_in d' (S a) i' (λ x, lt v x = false)
  ∧ all_in d' i' b (λ x, lt v x = true).
Proof.
  revert d i j. induction fuel as [|fuel IH];
    intros d i j Hv Hai Hij Hjb Hb Hf Hlo Hhi d' i' E.
  - simpl in E. simplify_eq. assert (i' = S j) as -> by lia.
    split; [apply stay_refl|]. repeat split; try done; lia.
  - cbn [partitionEqual_loop] in E.
    destruct (partitionEqual_up_spec (S j - i) d a i j v) as (Hi1 & Hup & Hupstop);
      [done|lia|lia|lia|].
    set (i1 := partitionEqual_up lt (S j - i) d a i j) in *.
    destruct (partitionEqual_down_spec d a i1 j v) as (Hj1 & Hj2 & Hdown & Hdownstop);
      [done|lia|lia|lia|].
    set (j1 := partitionEqual_down lt d a i1 j) in *.
    assert (Hlo1 : all_in d (S a) i1 (λ x, lt v x = false)) by (by eapply all_in_join).
    assert (Hhi1 : all_in d (S j1) b (λ x, lt v x = true)) by (by eapply all_in_join).
    destruct (j1 <? i1) eqn:Hc.
    + apply Nat.ltb_lt in Hc. simplify_eq.
      split; [apply stay_refl|]. split; [lia|]. split; [lia|].
      split; [done|]. eapply all_in_sub; [exact Hhi1|lia..].
    + apply Nat.ltb_ge in Hc.
      destruct Hupstop as (x & Hx & Hxv); [lia|].
      destruct Hdownstop as (y & Hy & Hyv); [lia|].
      assert (i1 ≠ j1) by (intros ?; simplify_eq; congruence).
      assert (Hst : stay (S a) b d (Swap d i1 j1)) by (apply stay_Swap; lia).
      eapply IH in E as (Hst' & ? & ? & Hlo' & Hhi').
      * split; [by eapply stay_trans|]. done.
      * rewrite Swap_lookup by lia. unfold tr. repeat case_decide; try lia. done.
      * lia.
      * lia.
      * lia.
      * by rewrite Swap_length.
      * lia.
      * intros k z. swap_cases; first [done | eapply Hlo1; [done|lia]].
      * intros k z. swap_cases; first [done | eapply Hhi1; [done|lia]].
Qed.

Lemma partitionEqual_func_spec d a b pivot :
  a ≤ pivot → pivot < b → b ≤ length d →
  ∀ d' mid, partitionEqual_func lt d a b pivot = (d', mid) →
  stay a b d d' ∧ a < mid ∧ mid ≤ b
  ∧ ∃ v, d !! pivot = Some v
       ∧ all_in d' a mid (λ x, lt v x = false)
       ∧ all_in d' mid b (λ x, lt v x = true).
Proof.
  intros Hap Hpb Hb d' mid E. unfold partitionEqual_func in E.
  assert (Hst0 : stay a b d (Swap d a pivot)) by (apply stay_Swap; lia).
  elem d pivot v Hv.
  eapply partitionEqual_loop_spec with (b := b) (v := v)
    in E as (Hst & ? & ? & Hlo & Hhi).
  - split; [|split; [done|split; [done|]]].
    + eapply stay_trans; [done|]. eapply stay_mono; [done|lia..].
    + exists v. split; [done|]. split; [|done].
      eapply all_in_join; [|exact Hlo].
      eapply all_in_one; [|apply lt_irrefl].
      rewrite (stay_outside _ _ _ _ Hst) by lia.
      rewrite Swap_lookup by lia. unfold tr. by case_decide.
  - rewrite Swap_lookup by lia. unfold tr. by case_decide.
  - lia.
  - lia.
  - lia.
  - by rewrite Swap_length.
  - lia.
  - apply all_in_empty. lia.
  - apply all_in_empty. lia.
Qed.

(** *** The element before the range

    [pdqsort_func] sorts [d[a:b]] when the element before it, if there is
    one, is less than no element of [d[a:b]]: it is the pivot of an
    earlier partition. *)

Definition lower_bound (d : list A) (a b : nat) : Prop :=
  a = 0 ∨ ∃ u, d !! (a - 1) = Some u ∧ all_in d a b (λ x, lt x u = false).

Lemma lower_bound_stay a b a' b' d d' :
  stay a' b' d d' → lower_bound d a b → a ≤ a' → b' ≤ b → lower_bound d' a b.
Proof.
  intros Hst [->|(u & Hu & Hall)] Ha Hb; [by left|].
  destruct (decide (a = 0)) as [->|Ha0]; [by left|right].
  exists u. split.
  - rewrite (stay_outside _ _ _ _ Hst) by lia. done.
  - by eapply all_in_stay_sub.
Qed.

Lemma lower_bound_sub a b a' b' d :
  lower_bound d a b → a' = a → b' ≤ b → lower_bound d a' b'.
Proof.
  intros [->|(u & Hu & Hall)] -> Hb; [by left|right].
  exists u. split; [done|]. eapply all_in_sub; [done|lia..].
Qed.

(** *** [partialInsertionSort_func] *)

Lemma partialInsertionSort_left_inner d a b j :
  lower_bound d a b → a ≤ j → j < b → b ≤ length d →
  partialInsertionSort_left lt d j = insertionSort_inner lt d a j.
Proof.
  revert d. induction j as [|j IH]; intros d HLB Ha Hj Hb; [done|].
  cbn [partialInsertionSort_left insertionSort_inner].
  destruct (decide (a < S j)) as [Hlt|Hge].
  - replace (a <? S j) with true by (symmetry; by apply Nat.ltb_lt).
    destruct (Less lt d (S j) j) eqn:HL; simpl; [|done].
    apply IH; [|lia..|by rewrite Swap_length].
    eapply (lower_bound_stay a b a b); [|done|done..]. apply stay_Swap; lia.
  - assert (a = S j) as -> by lia.
    replace (S j <? S j) with false by (symmetry; by apply Nat.ltb_ge).
    destruct HLB as [?|(u & Hu & Hall)]; [lia|].
    replace (S j - 1) with j in Hu by lia.
    elem d (S j) x Hx. rewrite (Less_eq d _ _ x u Hx Hu).
    by rewrite (Hall (S j) x Hx ltac:(lia)).
Qed.

Lemma sorted_range_snoc (d : list A) a i :
  sorted_range lt d a i → a < i → i < length d →
  Less lt d i (i - 1) = false → sorted_range lt d a (S i).
Proof.
  intros Hs Hai Hi HL p q x y Hx Hy Hp Hpq Hq.
  destruct (decide (q = i)) as [->|]; [|eapply (Hs p q); [done|done|lia..]].
  destruct (decide (p = i)) as [->|]; [simplify_eq; apply lt_irrefl|].
  elem d (i - 1) z Hz. rewrite (Less_eq d _ _ y z Hy Hz) in HL.
  destruct (decide (p = i - 1)) as [->|]; [by simplify_eq|].
  eapply lt_negtrans; [done|]. eapply (Hs p (i - 1)); [done|done|lia..].
Qed.

Lemma partialInsertionSort_scan_spec fuel d a i b :
  a < i → i ≤ b → b ≤ length d → b - i ≤ fuel → sorted_range lt d a i →
  i ≤ partialInsertionSort_scan lt fuel d i b
  ∧ partialInsertionSort_scan lt fuel d i b ≤ b
  ∧ sorted_range lt d a (partialInsertionSort_scan lt fuel d i b).
Proof.
  revert i. induction fuel as [|fuel IH]; intros i Hai Hib Hb Hf Hs.
  - simpl. done.
  - cbn [partialInsertionSort_scan].
    destruct ((i <? b) && negb (Less lt d i (i - 1))) eqn:Hc; [|done].
    apply andb_true_iff in Hc as [Hlt HL]. apply Nat.ltb_lt in Hlt.
    apply negb_true_iff in HL.
    destruct (IH (S i)) as (? & ? & ?); [lia..| |].
    + apply sorted_range_snoc; [done|lia..|done].
    + split; [lia|done].
Qed.

Lemma partialInsertionSort_right_stay fuel d j b lo :
  lo < j → stay lo b d (partialInsertionSort_right lt fuel d j b).
Proof.
  revert d j. induction fuel as [|fuel IH]; intros d j Hj; [apply stay_refl|].
  cbn [partialInsertionSort_right].
  destruct (b <=? j) eqn:Hbj; [apply stay_refl|]. apply Nat.leb_gt in Hbj.
  destruct (negb (Less lt d j (j - 1))); [apply stay_refl|].
  eapply stay_trans; [|apply IH; lia]. apply stay_Swap; lia.
Qed.

Lemma partialInsertionSort_steps_spec steps d a b i :
  a < i → i ≤ b → b ≤ length d → sorted_range lt d a i → lower_bound d a b →
  ∀ d' ok, partialInsertionSort_steps lt steps d a b i = (d', ok) →
  stay a b d d' ∧ (ok = true → sorted_range lt d' a b).
Proof.
  revert d i. induction steps as [|steps IH];
    intros d i Hai Hib Hb Hs HLB d' ok E.
  - simpl in E. simplify_eq. split; [apply stay_refl|done].
  - cbn [partialInsertionSort_steps] in E.
    destruct (partialInsertionSort_scan_spec (b - i) d a i b) as (Hi1 & Hi2 & Hs1);
      [done..|].
    set (i1 := partialInsertionSort_scan lt (b - i) d i b) in *.
    destruct (i1 =? b) eqn:Hib1.
    { apply Nat.eqb_eq in Hib1. simplify_eq. split; [apply stay_refl|].
      intros _. by rewrite <- Hib1. }
    apply Nat.eqb_neq in Hib1.
    destruct (b - a <? shortestShifting).
    { simplify_eq. split; [apply stay_refl|done]. }
    set (d1 := Swap d i1 (i1 - 1)) in *.
    assert (Hst1 : stay a b d d1) by (apply stay_Swap; lia).
    assert (Hl1 : length d1 = length d) by apply Swap_length.
    set (d2 := if 2 <=? i1 - a then partialInsertionSort_left lt d1 (i1 - 1) else d1) in *.
    assert (H2 : stay a i1 d1 d2 ∧ sorted_range lt d2 a i1).
    { subst d2. destruct (2 <=? i1 - a) eqn:H2.
      - apply Nat.leb_le in H2.
        rewrite (partialInsertionSort_left_inner d1 a b); [|
          by eapply (lower_bound_stay a b a b)|lia..].
        destruct (insertionSort_inner_spec d1 a (i1 - 1) (i1 - 1)) as [X Y];
          [lia..| |intros; lia|].
        { intros p q x y. subst d1. swap_cases.
          eapply (Hs1 p q); [done|done|lia..]. }
        by replace (S (i1 - 1)) with i1 in * by lia.
      - apply Nat.leb_gt in H2. split; [apply stay_refl|].
        apply sorted_range_short. lia. }
    destruct H2 as [Hst2 Hs2].
    set (d3 := if 2 <=? b - i1
               then partialInsertionSort_right lt (b - i1) d2 (i1 + 1) b else d2) in *.
    assert (Hst3 : stay i1 b d2 d3).
    { subst d3. destruct (2 <=? b - i1); [|apply stay_refl].
      apply partialInsertionSort_right_stay. lia. }
    assert (Hst13 : stay a b d d3).
    { eapply stay_trans; [done|]. eapply stay_trans.
      - eapply stay_mono; [exact Hst2|lia..].
      - eapply stay_mono; [exact Hst3|lia..]. }
    eapply IH in E as [Hst' Hs'].
    + split; [by eapply stay_trans|done].
    + lia.
    + lia.
    + rewrite (stay_length _ _ _ _ Hst13). done.
    + eapply sorted_range_stay_out; [exact Hst3|done|lia].
    + by eapply (lower_bound_stay a b a b).
Qed.

Lemma partialInsertionSort_func_spec d a b :
  a < b → b ≤ length d → lower_bound d a b →
  ∀ d' ok, partialInsertionSort_func lt d a b = (d', ok) →
  stay a b d d' ∧ (ok = true → sorted_range lt d' a b).
Proof.
  intros Hab Hb HLB. apply partialInsertionSort_steps_spec; [lia..| |done].
  apply sorted_range_short. lia.
Qed.

(** *** [breakPatterns_func], [reverseRange_func], [choosePivot_func] *)

Lemma bits_Len_bound n : 0 < n → n < 2 ^ bits_Len n ∧ 2 ^ bits_Len n ≤ 2 * n.
Proof.
  intros Hn. destruct n as [|n]; [lia|]. unfold bits_Len.
  pose proof (Nat.log2_spec (S n) ltac:(lia)) as [H1 H2].
  split; [done|]. rewrite Nat.pow_succ_r'. lia.
Qed.

Lemma breakPatterns_loop_stay n (d : list A) a b len idx i random :
  0 < len → a + len ≤ b → a < idx + i → idx + i + n ≤ b →
  stay a b d (breakPatterns_loop next n d a len idx i random).
Proof.
  intros Hlen Hab. revert d i random.
  induction n as [|n IH]; intros d i random Hi1 Hi2; [apply stay_refl|].
  cbn [breakPatterns_loop]. eapply stay_trans; [|apply IH; lia].
  apply stay_Swap; [lia|].
  destruct (bits_Len_bound len Hlen) as [Hp1 Hp2].
  unfold nextPowerOfTwo.
  set (m := 2 ^ bits_Len len) in *.
  assert (Hland : (0 ≤ Z.land (next random) (Z.of_nat m - 1) < Z.of_nat m)%Z).
  { replace (Z.of_nat m - 1)%Z with (Z.ones (Z.of_nat (bits_Len len))).
    - rewrite Z.land_ones by lia.
      replace (Z.of_nat m) with (2 ^ Z.of_nat (bits_Len len))%Z.
      + apply Z.mod_pos_bound. lia.
      + subst m. by rewrite Nat2Z.inj_pow.
    - rewrite Z.ones_equiv. subst m. rewrite Nat2Z.inj_pow. simpl. lia. }
  set (o := Z.to_nat (Z.land (next random) (Z.of_nat m - 1))) in *.
  assert (o < m) by lia.
  destruct (len <=? o) eqn:E; [apply Nat.leb_le in E|apply Nat.leb_gt in E]; lia.
Qed.

Lemma breakPatterns_func_stay (d : list A) a b :
  stay a b d (breakPatterns_func next d a b).
Proof.
  unfold breakPatterns_func. destruct (8 <=? b - a) eqn:E; [|apply stay_refl].
  apply Nat.leb_le in E.
  pose proof (Nat.div_mod_eq (b - a) 4) as Hd.
  pose proof (Nat.mod_upper_bound (b - a) 4 ltac:(lia)).
  apply breakPatterns_loop_stay; lia.
Qed.

Lemma reverseRange_loop_stay fuel (d : list A) a b i j :
  a ≤ i → j < b → stay a b d (reverseRange_loop fuel d i j).
Proof.
  revert d i j. induction fuel as [|fuel IH]; intros d i j Hi Hj; [apply stay_refl|].
  cbn [reverseRange_loop]. destruct (i <? j) eqn:E; [|apply stay_refl].
  apply Nat.ltb_lt in E. eapply stay_trans; [|apply IH; lia].
  apply stay_Swap; lia.
Qed.

Lemma reverseRange_func_stay (d : list A) a b :
  a < b → stay a b d (reverseRange_func d a b).
Proof. intros Hab. apply reverseRange_loop_stay; lia. Qed.

Lemma median_func_in (d : list A) a b c s :
  (median_func lt d a b c s).1 = a ∨ (median_func lt d a b c s).1 = b
  ∨ (median_func lt d a b c s).1 = c.
Proof.
  unfold median_func, order2_func. repeat case_match; simplify_eq/=; auto.
Qed.

Lemma choosePivot_func_range (d : list A) a b :
  8 ≤ b - a →
  a ≤ (choosePivot_func lt d a b).1 ∧ (choosePivot_func lt d a b).1 < b.
Proof.
  intros Hl. unfold choosePivot_func.
  pose proof (Nat.div_mod_eq (b - a) 4) as Hd.
  pose proof (Nat.mod_upper_bound (b - a) 4 ltac:(lia)) as Hm.
  set (q := (b - a) / 4) in *.
  replace (8 <=? b - a) with true by (symmetry; by apply Nat.leb_le).
  assert (Hfin : ∀ j s, a ≤ j < b →
            a ≤ (if s =? 0 then (j, increasingHint)
                 else if s =? maxSwaps then (j, decreasingHint)
                 else (j, unknownHint)).1 < b).
  { intros j s Hj. by repeat case_match. }
  destruct (shortestNinther <=? b - a) eqn:E.
  - apply Nat.leb_le in E. unfold shortestNinther in E.
    unfold medianAdjacent_func.
    pose proof (median_func_in d (a + q * 1 - 1) (a + q * 1) (a + q * 1 + 1) 0) as H1.
    destruct (median_func lt d (a + q * 1 - 1) (a + q * 1) (a + q * 1 + 1) 0)
      as [i s1]. simpl in H1.
    pose proof (median_func_in d (a + q * 2 - 1) (a + q * 2) (a + q * 2 + 1) s1) as H2.
    destruct (median_func lt d (a + q * 2 - 1) (a + q * 2) (a + q * 2 + 1) s1)
      as [j s2]. simpl in H2.
    pose proof (median_func_in d (a + q * 3 - 1) (a + q * 3) (a + q * 3 + 1) s2) as H3.
    destruct (median_func lt d (a + q * 3 - 1) (a + q * 3) (a + q * 3 + 1) s2)
      as [k s3]. simpl in H3.
    pose proof (median_func_in d i j k s3) as H4.
    destruct (median_func lt d i j k s3) as [m s4]. simpl in H4.
    apply Hfin. lia.
  - pose proof (median_func_in d (a + q * 1) (a + q * 2) (a + q * 3) 0) as H4.
    destruct (median_func lt d (a + q * 1) (a + q * 2) (a + q * 3) 0) as [m s4].
    simpl in H4. apply Hfin. lia.
Qed.

(** *** [heapSort_func]

    The heap of [hi] nodes starts at [first]; node [p] has the children
    [2p+1] and [2p+2]. *)

Definition heap_at (d : list A) (first hi p : nat) : Prop :=
  ∀ c x y, d !! (first + p) = Some x → d !! (first + c) = Some y →
    c = 2 * p + 1 ∨ c = 2 * p + 2 → c < hi → lt x y = false.

Definition heap_from (d : list A) (first lo hi : nat) : Prop :=
  ∀ p, lo ≤ p → heap_at d first hi p.

Lemma siftDown_loop_spec fuel d root lo hi first :
  hi ≤ root + fuel → lo ≤ root → first + hi ≤ length d →
  (∀ p, lo ≤ p → p ≠ root → heap_at d first hi p) →
  (∀ pp c x y, d !! (first + pp) = Some x → d !! (first + c) = Some y →
     lo ≤ pp → root = 2 * pp + 1 ∨ root = 2 * pp + 2 →
     c = 2 * root + 1 ∨ c = 2 * root + 2 → c < hi → lt x y = false) →
  stay (first + root) (first + hi) d (siftDown_loop lt fuel d root hi first)
  ∧ heap_from (siftDown_loop lt fuel d root hi first) first lo hi.
Proof.
  revert d root. induction fuel as [|fuel IH];
    intros d root Hf Hlo Hlen Hheap Hgrand.
  { simpl. split; [apply stay_refl|]. intros p Hp.
    destruct (decide (p = root)) as [->|]; [|by apply Hheap].
    intros c x y _ _ Hc Hchi. lia. }
  cbn [siftDown_loop].
  destruct (hi <=? 2 * root + 1) eqn:Hhi.
  { apply Nat.leb_le in Hhi. split; [apply stay_refl|]. intros p Hp.
    destruct (decide (p = root)) as [->|]; [|by apply Hheap].
    intros c x y _ _ Hc Hchi. lia. }
  apply Nat.leb_gt in Hhi.
  set (c0 := 2 * root + 1) in *.
  set (c := if (c0 + 1 <? hi) && Less lt d (first + c0) (first + c0 + 1)
            then c0 + 1 else c0).
  elem d (first + root) xr Hxr.
  assert (Hc : ∃ y, d !! (first + c) = Some y ∧ (c = c0 ∨ c = c0 + 1) ∧ c < hi
             ∧ ∀ c' z, d !! (first + c') = Some z → c' = c0 ∨ c' = c0 + 1 →
                 c' < hi → lt y z = false).
  { subst c. elem d (first + c0) y0 Hy0.
    destruct (c0 + 1 <? hi) eqn:H1; simpl.
    - apply Nat.ltb_lt in H1. elem d (first + c0 + 1) y1 Hy1.
      rewrite (Less_eq d _ _ y0 y1 Hy0 Hy1).
      destruct (lt y0 y1) eqn:H01.
      + exists y1. replace (first + (c0 + 1)) with (first + c0 + 1) by lia.
        split; [done|]. split; [by right|]. split; [lia|].
        intros c' z Hz [->| ->] _.
        * simplify_eq. by apply lt_asym.
        * replace (first + (c0 + 1)) with (first + c0 + 1) in Hz by lia.
          simplify_eq. apply lt_irrefl.
      + exists y0. split; [done|]. split; [by left|]. split; [lia|].
        intros c' z Hz [->| ->] _.
        * simplify_eq. apply lt_irrefl.
        * replace (first + (c0 + 1)) with (first + c0 + 1) in Hz by lia.
          by simplify_eq.
    - apply Nat.ltb_ge in H1. exists y0. split; [done|]. split; [by left|].
      split; [lia|]. intros c' z Hz [->| ->] ?; [|lia].
      simplify_eq. apply lt_irrefl. }
  destruct Hc as (y & Hy & Hcc & Hchi & Hmax). clearbody c.
  rewrite (Less_eq d _ _ xr y Hxr Hy).
  destruct (lt xr y) eqn:Hxy; simpl.
  2:{ split; [apply stay_refl|]. intros p Hp.
      destruct (decide (p = root)) as [->|]; [|by apply Hheap].
      intros c' x z Hx Hz Hc' Hc'hi. simplify_eq.
      eapply lt_negtrans; [exact Hxy|]. eapply Hmax; [done|subst c0; lia|done]. }
  set (d1 := Swap d (first + root) (first + c)).
  assert (Hr1 : d1 !! (first + root) = Some y).
  { subst d1. rewrite Swap_lookup by lia. unfold tr. by case_decide. }
  assert (Hc1 : d1 !! (first + c) = Some xr).
  { subst d1. rewrite Swap_lookup by lia. unfold tr.
    repeat case_decide; try done; lia. }
  assert (Ho1 : ∀ k, k ≠ root → k ≠ c → d1 !! (first + k) = d !! (first + k)).
  { intros k ??. subst d1. rewrite Swap_lookup by lia. unfold tr.
    repeat case_decide; try done; lia. }
  destruct (IH d1 c) as [Hst Hh].
  - lia.
  - lia.
  - subst d1. by rewrite Swap_length.
  - intros p Hp Hpc c' x z Hx Hz Hc' Hc'hi.
    destruct (decide (p = root)) as [->|Hpr].
    + rewrite Hr1 in Hx. simplify_eq.
      destruct (decide (c' = c)) as [->|].
      * rewrite Hc1 in Hz. simplify_eq. by apply lt_asym.
      * rewrite Ho1 in Hz by lia. eapply Hmax; [done|subst c0; lia|done].
    + rewrite Ho1 in Hx by done.
      destruct (decide (c' = root)) as [->|].
      * rewrite Hr1 in Hz. simplify_eq.
        eapply (Hgrand p c); [done|done|lia|lia|subst c0; lia|done].
      * rewrite Ho1 in Hz by (subst c0; lia).
        eapply (Hheap p); [lia|done|done|done|done|done].
  - intros pp gc x z Hx Hz Hpp Hcpp Hgc Hgchi.
    assert (pp = root) as -> by (subst c0; lia).
    rewrite Hr1 in Hx. simplify_eq.
    rewrite Ho1 in Hz by lia.
    eapply (Hheap c); [lia|lia|done|done|done|done].
  - split; [|done]. eapply stay_trans.
    + apply (stay_Swap _ _ d (first + root) (first + c)); lia.
    + eapply stay_mono; [exact Hst|lia..].
Qed.

Lemma heapSort_build_spec d i hi first :
  first + hi ≤ length d → heap_from d first (S i) hi →
  stay first (first + hi) d (heapSort_build lt d i hi first)
  ∧ heap_from (heapSort_build lt d i hi first) first 0 hi.
Proof.
  revert d. induction i as [|i IH]; intros d Hlen Hh; cbn [heapSort_build].
  - unfold siftDown_func.
    destruct (siftDown_loop_spec hi d 0 0 hi first) as [Hst Hh']; [lia..| | |].
    + intros p ? ?. apply Hh. lia.
    + intros; lia.
    + split; [|done]. eapply stay_mono; [done|lia..].
  - unfold siftDown_func.
    destruct (siftDown_loop_spec hi d (S i) (S i) hi first) as [Hst Hh']; [lia..| | |].
    + intros p ? ?. apply Hh. lia.
    + intros; lia.
    + destruct (IH (siftDown_loop lt hi d (S i) hi first)) as [Hst2 Hh2].
      * by rewrite (stay_length _ _ _ _ Hst).
      * done.
      * split; [|done]. eapply stay_trans; [|done].
        eapply stay_mono; [done|lia..].
Qed.

Lemma heap_max d first n m :
  heap_from d first 0 n → first + n ≤ length d → d !! first = Some m →
  all_in d first (first + n) (λ x, lt m x = false).
Proof.
  intros Hh Hlen Hm.
  assert (H : ∀ k x, k < n → d !! (first + k) = Some x → lt m x = false).
  { induction k as [k IHk] using lt_wf_ind. intros x Hk Hx.
    destruct k as [|k].
    - rewrite Nat.add_0_r in Hx. simplify_eq. apply lt_irrefl.
    - pose proof (Nat.div_mod_eq k 2) as Hd.
      pose proof (Nat.mod_upper_bound k 2 ltac:(lia)) as Hm2.
      set (p := k / 2) in *.
      elem d (first + p) xp Hxp.
      eapply lt_negtrans.
      + eapply (IHk p); [lia|lia|done].
      + eapply (Hh p); [lia|done|done|lia|done]. }
  intros k x Hx Hk. apply (H (k - first)); [lia|].
  by replace (first + (k - first)) with k by lia.
Qed.

Lemma heapSort_pop_spec d n hi first :
  n ≤ hi → first + hi ≤ length d →
  heap_from d first 0 n →
  sorted_range lt d (first + n) (first + hi) →
  (∀ q y, d !! q = Some y → first + n ≤ q < first + hi →
     all_in d first (first + n) (λ x, lt y x = false)) →
  stay first (first + hi) d (heapSort_pop lt d n first)
  ∧ sorted_range lt (heapSort_pop lt d n first) first (first + hi).
Proof.
  revert d. induction n as [|i IH]; intros d Hn Hlen Hh Hs Hcross.
  { simpl. split; [apply stay_refl|]. by rewrite Nat.add_0_r in Hs. }
  cbn [heapSort_pop]. unfold siftDown_func.
  elem d first m Hm.
  pose proof (heap_max d first (S i) m Hh ltac:(lia) Hm) as Hmax.
  set (d1 := Swap d first (first + i)).
  assert (Hst1 : stay first (first + S i) d d1) by (apply stay_Swap; lia).
  assert (Hl1 : length d1 = length d) by apply Swap_length.
  assert (Hi1 : d1 !! (first + i) = Some m).
  { subst d1. rewrite Swap_lookup by lia. unfold tr.
    repeat case_decide; try done. by replace (first + i) with first in * by lia. }
  assert (Ho1 : ∀ k, k ≠ first → k ≠ first + i → d1 !! k = d !! k).
  { intros k ??. subst d1. rewrite Swap_lookup by lia. unfold tr.
    repeat case_decide; try done; lia. }
  destruct (siftDown_loop_spec i d1 0 0 i first) as [Hst2 Hh2].
  - lia.
  - lia.
  - lia.
  - intros p _ Hp c x y Hx Hy Hc Hci.
    rewrite Ho1 in Hx, Hy by lia.
    eapply (Hh p); [lia|done|done|done|lia].
  - intros; lia.
  - set (d2 := siftDown_loop lt i d1 0 i first) in *.
    rewrite Nat.add_0_r in Hst2.
    assert (Hl2 : length d2 = length d1) by apply Hst2.
    assert (Hi2 : d2 !! (first + i) = Some m).
    { rewrite (stay_outside _ _ _ _ Hst2) by lia. done. }
    assert (Ho2 : ∀ k, first + i < k → d2 !! k = d !! k).
    { intros k ?. rewrite (stay_outside _ _ _ _ Hst2) by lia. apply Ho1; lia. }
    destruct (IH d2) as [Hst3 Hs3].
    + lia.
    + lia.
    + done.
    + intros p q x y Hx Hy Hp Hpq Hq.
      destruct (decide (q = first + i)) as [->|].
      { assert (p = first + i) as -> by lia. simplify_eq. apply lt_irrefl. }
      rewrite Ho2 in Hy by lia.
      destruct (decide (p = first + i)) as [->|].
      * simplify_eq. eapply (Hcross q y); [done|lia|done|lia].
      * rewrite Ho2 in Hx by lia. eapply (Hs p q); [done|done|lia..].
    + intros q y Hy Hq.
      eapply all_in_stay; [exact Hst2|].
      eapply all_in_sub; [eapply all_in_stay; [exact Hst1|]|lia..].
      destruct (decide (q = first + i)) as [->|].
      * by simplify_eq.
      * rewrite Ho2 in Hy by lia. eapply Hcross; [done|lia].
    + split; [|done]. eapply stay_trans; [|done].
      eapply stay_trans; [eapply stay_mono; [exact Hst1|lia..]|].
      eapply stay_mono; [exact Hst2|lia..].
Qed.

Lemma heapSort_func_spec d a b :
  a ≤ b → b ≤ length d →
  stay a b d (heapSort_func lt d a b)
  ∧ sorted_range lt (heapSort_func lt d a b) a b.
Proof.
  intros Hab Hb. unfold heapSort_func.
  set (hi := b - a).
  destruct (heapSort_build_spec d ((hi - 1) / 2) hi a) as [Hst1 Hh1]; [lia| |].
  { intros p Hp c x y _ _ Hc Hchi.
    pose proof (Nat.div_mod_eq (hi - 1) 2) as Hd.
    pose proof (Nat.mod_upper_bound (hi - 1) 2 ltac:(lia)). lia. }
  set (d1 := heapSort_build lt d ((hi - 1) / 2) hi a) in *.
  destruct (heapSort_pop_spec d1 hi hi a) as [Hst2 Hs2].
  - done.
  - rewrite (stay_length _ _ _ _ Hst1). lia.
  - done.
  - apply sorted_range_short. lia.
  - intros; lia.
  - replace (a + hi) with b in * by lia. split; [|done]. by eapply stay_trans.
Qed.

(** *** [pdqsort_func] *)

Lemma sorted_range_pivot (d : list A) a mid b v :
  d !! mid = Some v →
  sorted_range lt d a mid → sorted_range lt d (S mid) b →
  all_in d a mid (λ x, lt x v = true) →
  all_in d (S mid) b (λ x, lt x v = false) →
  sorted_range lt d a b.
Proof.
  intros Hv Hl Hr Hlo Hhi p q x y Hx Hy Hp Hpq Hq.
  destruct (decide (q < mid)); [eapply (Hl p q); [done|done|lia..]|].
  destruct (decide (mid < p)); [eapply (Hr p q); [done|done|lia..]|].
  assert (Hxv : lt v x = false).
  { destruct (decide (p = mid)) as [->|]; [simplify_eq; apply lt_irrefl|].
    apply lt_asym. eapply Hlo; [done|lia]. }
  assert (Hyv : lt y v = false).
  { destruct (decide (q = mid)) as [->|]; [simplify_eq; apply lt_irrefl|].
    eapply Hhi; [done|lia]. }
  by eapply lt_negtrans.
Qed.

Lemma sorted_range_equal (d : list A) a mid b v :
  all_in d a mid (λ x, lt v x = false) →
  all_in d a mid (λ x, lt x v = false) →
  all_in d mid b (λ x, lt v x = true) →
  sorted_range lt d mid b →
  sorted_range lt d a b.
Proof.
  intros Hle Hge Hgt Hr p q x y Hx Hy Hp Hpq Hq.
  destruct (decide (mid ≤ p)); [eapply (Hr p q); [done|done|lia..]|].
  assert (Hvx : lt v x = false) by (eapply Hle; [done|lia]).
  assert (Hyv : lt y v = false).
  { destruct (decide (q < mid)); [eapply Hge; [done|lia]|].
    apply lt_asym. eapply Hgt; [done|lia]. }
  by eapply lt_negtrans.
Qed.

Lemma pdqsort_loop_spec fuel d a b limit wb wp :
  b - a < fuel → a ≤ b → b ≤ length d → lower_bound d a b →
  stay a b d (pdqsort_loop lt next fuel d a b limit wb wp)
  ∧ sorted_range lt (pdqsort_loop lt next fuel d a b limit wb wp) a b.
Proof.
  revert d a b limit wb wp.
  induction fuel as [|fuel IH]; intros d a b limit wb wp Hf Hab Hb HLB; [lia|].
  cbn [pdqsort_loop].
  destruct (b - a <=? maxInsertion) eqn:Hmax; [by apply insertionSort_func_spec|].
  apply Nat.leb_gt in Hmax. unfold maxInsertion in Hmax.
  destruct (limit =? 0); [by apply heapSort_func_spec|].
  set (r1 := if negb wb then _ else _).
  assert (Hd1 : stay a b d r1.1).
  { subst r1. destruct wb; simpl; [apply stay_refl|apply breakPatterns_func_stay]. }
  destruct r1 as [d1 limit1]. simpl in Hd1.
  pose proof (choosePivot_func_range d1 a b ltac:(lia)) as Hpiv.
  destruct (choosePivot_func lt d1 a b) as [pivot hint]. simpl in Hpiv.
  set (r2 := match hint with decreasingHint => _ | _ => _ end).
  assert (Hd2 : stay a b d r2.1.1 ∧ a ≤ r2.1.2 ∧ r2.1.2 < b).
  { subst r2. destruct hint; simpl; try done. split; [|lia].
    eapply stay_trans; [done|]. apply reverseRange_func_stay. lia. }
  destruct r2 as [[d2 pivot2] hint2]. simpl in Hd2.
  destruct Hd2 as (Hd2 & Hp2a & Hp2b).
  assert (Hb2 : b ≤ length d2) by (by rewrite (stay_length _ _ _ _ Hd2)).
  assert (HLB2 : lower_bound d2 a b) by (by eapply (lower_bound_stay a b a b)).
  set (r3 := match hint2 with increasingHint => _ | _ => _ end).
  assert (Hd3 : stay a b d2 r3.1 ∧ (r3.2 = true → sorted_range lt r3.1 a b)).
  { subst r3.
    assert (Hid : stay a b d2 (d2, false).1
                  ∧ ((d2, false).2 = true → sorted_range lt (d2, false).1 a b)).
    { split; [apply stay_refl|done]. }
    destruct hint2; try done. destruct (wb && wp); [|done].
    destruct (partialInsertionSort_func lt d2 a b) as [d3 ok] eqn:E.
    eapply partialInsertionSort_func_spec in E; [done|lia|done|done]. }
  destruct r3 as [d3 ok]. simpl in Hd3. destruct Hd3 as [Hd3 Hok].
  assert (Hd03 : stay a b d d3) by (by eapply stay_trans).
  assert (Hb3 : b ≤ length d3) by (by rewrite (stay_length _ _ _ _ Hd03)).
  assert (HLB3 : lower_bound d3 a b) by (by eapply (lower_bound_stay a b a b)).
  destruct ok; [by split; [|apply Hok]|]. clear Hok.
  destruct ((0 <? a) && negb (Less lt d3 (a - 1) pivot2)) eqn:Heq.
  - (* the pivot is not greater than the element before the range *)
    apply andb_true_iff in Heq as [Ha0 HL]. apply Nat.ltb_lt in Ha0.
    apply negb_true_iff in HL.
    destruct HLB3 as [?|(u & Hu & Hall)]; [lia|].
    destruct (partitionEqual_func lt d3 a b pivot2) as [d4 mid] eqn:E.
    eapply partitionEqual_func_spec in E
      as (Hd4 & Hmid1 & Hmid2 & v & Hv & Hle & Hgt); [|done..].
    rewrite (Less_eq d3 _ _ u v Hu Hv) in HL.
    assert (Hb4 : b ≤ length d4) by (by rewrite (stay_length _ _ _ _ Hd4)).
    assert (Hge : all_in d4 a b (λ x, lt x v = false)).
    { eapply all_in_stay; [done|]. eapply all_in_impl; [|done].
      intros x Hx. simpl in Hx. by eapply lt_negtrans. }
    destruct (IH d4 mid b limit1 wb wp) as [Hd5 Hs5]; [lia|lia|done| |].
    { right. elem d4 (mid - 1) w Hw. exists w. split; [done|].
      assert (Hvw : lt v w = false) by (eapply Hle; [done|lia]).
      eapply all_in_impl; [|exact Hgt]. intros x Hx. simpl in Hx.
      eapply lt_negtrans; [|done]. by apply lt_asym. }
    split.
    + eapply stay_trans; [done|]. eapply stay_trans; [done|].
      eapply stay_mono; [done|lia..].
    + eapply (sorted_range_equal _ a mid b v); [| | |done].
      * eapply all_in_stay_out; [done|done|lia].
      * eapply all_in_stay_out; [done| |lia].
        eapply all_in_sub; [exact Hge|lia..].
      * by eapply all_in_stay.
  - clear Heq.
    destruct (partition_func lt d3 a b pivot2) as [[d4 mid] ap] eqn:E.
    eapply partition_func_spec in E
      as (Hd4 & Hmid1 & Hmid2 & v & Hv & Hlo & Hhi); [|done..].
    assert (Hb4 : b ≤ length d4) by (by rewrite (stay_length _ _ _ _ Hd4)).
    assert (HLB4 : lower_bound d4 a b) by (by eapply (lower_bound_stay a b a b)).
    assert (HLBl : ∀ d', stay (S mid) b d4 d' → lower_bound d' a mid).
    { intros d' Hst. eapply (lower_bound_sub a b a mid); [|done|lia].
      eapply (lower_bound_stay a b (S mid) b); [done|done|lia..]. }
    assert (HLBr : ∀ d', stay a mid d4 d' → lower_bound d' (mid + 1) b).
    { intros d' Hst. right. exists v. replace (mid + 1 - 1) with mid by lia. split.
      - rewrite (stay_outside _ _ _ _ Hst) by lia. done.
      - replace (mid + 1) with (S mid) by lia.
        eapply all_in_stay_out; [done|done|lia]. }
    assert (Hfin : ∀ d5 d6,
              (stay a mid d4 d5 ∧ stay (S mid) b d5 d6
               ∧ sorted_range lt d5 a mid ∧ sorted_range lt d6 (S mid) b)
              ∨ (stay (S mid) b d4 d5 ∧ stay a mid d5 d6
                 ∧ sorted_range lt d5 (S mid) b ∧ sorted_range lt d6 a mid) →
              stay a b d d6 ∧ sorted_range lt d6 a b).
    { intros d5 d6 Hcase.
      assert (Hst : stay a b d4 d6 ∧ d6 !! mid = Some v
                    ∧ all_in d6 a mid (λ x, lt x v = true)
                    ∧ all_in d6 (S mid) b (λ x, lt x v = false)
                    ∧ sorted_range lt d6 a mid ∧ sorted_range lt d6 (S mid) b).
      { destruct Hcase as [(H1 & H2 & S1 & S2)|(H1 & H2 & S1 & S2)].
        - split; [|split; [|split; [|split; [|split]]]].
          + eapply stay_trans;
              [eapply stay_mono; [exact H1|lia..]|eapply stay_mono; [exact H2|lia..]].
          + rewrite (stay_outside _ _ _ _ H2), (stay_outside _ _ _ _ H1) by lia. done.
          + eapply all_in_stay_out; [exact H2| |lia]. by eapply all_in_stay.
          + eapply all_in_stay; [exact H2|]. eapply all_in_stay_out; [exact H1|done|lia].
          + eapply sorted_range_stay_out; [exact H2|done|lia].
          + done.
        - split; [|split; [|split; [|split; [|split]]]].
          + eapply stay_trans;
              [eapply stay_mono; [exact H1|lia..]|eapply stay_mono; [exact H2|lia..]].
          + rewrite (stay_outside _ _ _ _ H2), (stay_outside _ _ _ _ H1) by lia. done.
          + eapply all_in_stay; [exact H2|]. eapply all_in_stay_out; [exact H1|done|lia].
          + eapply all_in_stay_out; [exact H2| |lia]. by eapply all_in_stay.
          + done.
          + eapply sorted_range_stay_out; [exact H2|done|lia]. }
      destruct Hst as (H6 & Hv6 & Hlo6 & Hhi6 & Sl & Sr).
      split; [|by eapply sorted_range_pivot].
      eapply stay_trans; [exact Hd03|]. by eapply stay_trans. }
    destruct (mid - a <? b - mid).
    + destruct (IH d4 a mid limit1 true true) as [H5 S5]; [lia|lia|lia| |].
      { apply HLBl, stay_refl. }
      set (d5 := pdqsort_loop lt next fuel d4 a mid limit1 true true) in *.
      destruct (IH d5 (mid + 1) b limit1 ((b - a) / 8 <=? mid - a) ap) as [H6 S6];
        [lia|lia| |by apply HLBr|].
      { rewrite (stay_length _ _ _ _ H5). done. }
      replace (mid + 1) with (S mid) in * by lia.
      eapply Hfin. left. done.
    + destruct (IH d4 (mid + 1) b limit1 true true) as [H5 S5]; [lia|lia|lia| |].
      { apply HLBr, stay_refl. }
      set (d5 := pdqsort_loop lt next fuel d4 (mid + 1) b limit1 true true) in *.
      replace (mid + 1) with (S mid) in * by lia.
      destruct (IH d5 a mid limit1 ((b - a) / 8 <=? b - mid) ap) as [H6 S6];
        [lia|lia| |by apply HLBl|].
      { rewrite (stay_length _ _ _ _ H5). lia. }
      eapply Hfin. right. done.
Qed.

(** the whole slice, as a list in order *)
Lemma sorted_range_Sorted (d : list A) :
  sorted_range lt d 0 (length d) → StronglySorted (λ x y, lt y x = false) d.
Proof.
  induction d as [|x d IH]; intros Hs; constructor.
  - apply IH. intros i j u v Hu Hv Hi Hij Hj.
    eapply (Hs (S i) (S j)); [done|done|lia|lia|simpl; lia].
  - apply Forall_forall. intros y Hy.
    apply list_elem_of_lookup in Hy as [k Hk].
    eapply (Hs 0 (S k)); [done|done|lia|lia|].
    apply lookup_lt_Some in Hk. simpl. lia.
Qed.

Lemma Slice_with_sorted d :
  StronglySorted (λ x y, lt y x = false) (Slice_with lt next d).
Proof.
  unfold Slice_with, pdqsort_func.
  destruct (pdqsort_loop_spec (S (length d - 0)) d 0 (length d)
              (bits_Len (length d)) true true) as [Hst Hs];
    [lia|lia|lia|by left|].
  apply sorted_range_Sorted. by rewrite (stay_length _ _ _ _ Hst).
Qed.
End Sorted.

(** ** [sort.Slice] commutes with a change of representation

    The sort reads its elements through [less] only: sorting the images
    under [f] with [lt] is sorting the elements with [lt] on the images. *)

Section Natural.
Context {A B : Type}.
Variable f : A → B.
Variable lt : B → B → bool.
Variable next : Z → Z.

Definition lt_on (x y : A) : bool := lt (f x) (f y).

Lemma Less_fmap (d : list A) i j : Less lt (f <$> d) i j = Less lt_on d i j.
Proof.
  unfold Less. rewrite !list_lookup_fmap.
  by destruct (d !! i), (d !! j).
Qed.

Lemma Swap_fmap (d : list A) i j : Swap (f <$> d) i j = f <$> Swap d i j.
Proof.
  unfold Swap. rewrite !list_lookup_fmap.
  destruct (d !! i), (d !! j); simpl; try done.
  by rewrite !list_fmap_insert.
Qed.

Ltac nat_simp := rewrite ?Less_fmap, ?Swap_fmap, ?length_fmap.

Lemma insertionSort_inner_fmap (d : list A) a j :
  insertionSort_inner lt (f <$> d) a j = f <$> insertionSort_inner lt_on d a j.
Proof.
  revert d. induction j as [|j IH]; intros d; simpl; [done|].
  nat_simp. case_match; [|done]. apply IH.
Qed.

Lemma insertionSort_outer_fmap n (d : list A) a i :
  insertionSort_outer lt n (f <$> d) a i = f <$> insertionSort_outer lt_on n d a i.
Proof.
  revert d i. induction n as [|n IH]; intros d i; simpl; [done|].
  by rewrite insertionSort_inner_fmap, IH.
Qed.

Lemma insertionSort_func_fmap (d : list A) a b :
  insertionSort_func lt (f <$> d) a b = f <$> insertionSort_func lt_on d a b.
Proof. apply insertionSort_outer_fmap. Qed.

Lemma siftDown_loop_fmap fuel (d : list A) root hi first :
  siftDown_loop lt fuel (f <$> d) root hi first
  = f <$> siftDown_loop lt_on fuel d root hi first.
Proof.
  revert d root. induction fuel as [|fuel IH]; intros d root; simpl; [done|].
  nat_simp. repeat case_match; first [done | apply IH].
Qed.

Lemma siftDown_func_fmap (d : list A) lo hi first :
  siftDown_func lt (f <$> d) lo hi first = f <$> siftDown_func lt_on d lo hi first.
Proof. apply siftDown_loop_fmap. Qed.

Lemma heapSort_build_fmap (d : list A) i hi first :
  heapSort_build lt (f <$> d) i hi first = f <$> heapSort_build lt_on d i hi first.
Proof.
  revert d. induction i as [|i IH]; intros d; simpl; rewrite siftDown_func_fmap;
    [done|apply IH].
Qed.

Lemma heapSort_pop_fmap (d : list A) n first :
  heapSort_pop lt (f <$> d) n first = f <$> heapSort_pop lt_on d n first.
Proof.
  revert d. induction n as [|n IH]; intros d; simpl; [done|].
  by rewrite Swap_fmap, siftDown_func_fmap, IH.
Qed.

Lemma heapSort_func_fmap (d : list A) a b :
  heapSort_func lt (f <$> d) a b = f <$> heapSort_func lt_on d a b.
Proof.
  unfold heapSort_func. by rewrite heapSort_build_fmap, heapSort_pop_fmap.
Qed.

Lemma partition_up_fmap fuel (d : list A) a i j :
  partition_up lt fuel (f <$> d) a i j = partition_up lt_on fuel d a i j.
Proof.
  revert i. induction fuel as [|fuel IH]; intros i; simpl; [done|].
  nat_simp. by rewrite IH.
Qed.

Lemma partition_down_fmap (d : list A) a i j :
  partition_down lt (f <$> d) a i j = partition_down lt_on d a i j.
Proof. induction j as [|j IH]; simpl; [done|]. nat_simp. by rewrite IH. Qed.

Lemma partition_loop_fmap fuel (d : list A) a i j :
  partition_loop lt fuel (f <$> d) a i j
  = prod_map (fmap f) id (partition_loop lt_on fuel d a i j).
Proof.
  revert d i j. induction fuel as [|fuel IH]; intros d i j; simpl; [done|].
  rewrite !partition_up_fmap, !partition_down_fmap.
  case_match; [done|]. by rewrite Swap_fmap, IH.
Qed.

Lemma partition_func_fmap (d : list A) a b pivot :
  partition_func lt (f <$> d) a b pivot
  = prod_map (prod_map (fmap f) id) id (partition_func lt_on d a b pivot).
Proof.
  unfold partition_func.
  rewrite !Swap_fmap, !partition_up_fmap, !partition_down_fmap.
  case_match; [done|].
  rewrite partition_loop_fmap.
  destruct (partition_loop lt_on _ _ _ _ _) as [d' j'].
  cbn [prod_map fst snd id]. by rewrite Swap_fmap.
Qed.

Lemma partitionEqual_up_fmap fuel (d : list A) a i j :
  partitionEqual_up lt fuel (f <$> d) a i j = partitionEqual_up lt_on fuel d a i j.
Proof.
  revert i. induction fuel as [|fuel IH]; intros i; simpl; [done|].
  nat_simp. by rewrite IH.
Qed.

Lemma partitionEqual_down_fmap (d : list A) a i j :
  partitionEqual_down lt (f <$> d) a i j = partitionEqual_down lt_on d a i j.
Proof. induction j as [|j IH]; simpl; [done|]. nat_simp. by rewrite IH. Qed.

Lemma partitionEqual_loop_fmap fuel (d : list A) a i j :
  partitionEqual_loop lt fuel (f <$> d) a i j
  = prod_map (fmap f) id (partitionEqual_loop lt_on fuel d a i j).
Proof.
  revert d i j. induction fuel as [|fuel IH]; intros d i j; simpl; [done|].
  rewrite !partitionEqual_up_fmap, !partitionEqual_down_fmap.
  case_match; [done|]. by rewrite Swap_fmap, IH.
Qed.

Lemma partitionEqual_func_fmap (d : list A) a b pivot :
  partitionEqual_func lt (f <$> d) a b pivot
  = prod_map (fmap f) id (partitionEqual_func lt_on d a b pivot).
Proof.
  unfold partitionEqual_func. by rewrite Swap_fmap, partitionEqual_loop_fmap.
Qed.

Lemma partialInsertionSort_scan_fmap fuel (d : list A) i b :
  partialInsertionSort_scan lt fuel (f <$> d) i b
  = partialInsertionSort_scan lt_on fuel d i b.
Proof.
  revert i. induction fuel as [|fuel IH]; intros i; simpl; [done|].
  nat_simp. by rewrite IH.
Qed.

Lemma partialInsertionSort_left_fmap (d : list A) j :
  partialInsertionSort_left lt (f <$> d) j = f <$> partialInsertionSort_left lt_on d j.
Proof.
  revert d. induction j as [|j IH]; intros d; simpl; [done|].
  nat_simp. case_match; [done|]. apply IH.
Qed.

Lemma partialInsertionSort_right_fmap fuel (d : list A) j b :
  partialInsertionSort_right lt fuel (f <$> d) j b
  = f <$> partialInsertionSort_right lt_on fuel d j b.
Proof.
  revert d j. induction fuel as [|fuel IH]; intros d j; simpl; [done|].
  nat_simp. repeat case_match; first [done | apply IH].
Qed.

Lemma partialInsertionSort_steps_fmap steps (d : list A) a b i :
  partialInsertionSort_steps lt steps (f <$> d) a b i
  = prod_map (fmap f) id (partialInsertionSort_steps lt_on steps d a b i).
Proof.
  revert d i. induction steps as [|steps IH]; intros d i;
    cbn [partialInsertionSort_steps]; [done|].
  rewrite !partialInsertionSort_scan_fmap.
  case_match; [done|]. case_match; [done|].
  rewrite Swap_fmap.
  destruct (2 <=? _ - a), (2 <=? b - _);
    rewrite ?partialInsertionSort_left_fmap, ?partialInsertionSort_right_fmap;
    apply IH.
Qed.

Lemma partialInsertionSort_func_fmap (d : list A) a b :
  partialInsertionSort_func lt (f <$> d) a b
  = prod_map (fmap f) id (partialInsertionSort_func lt_on d a b).
Proof. apply partialInsertionSort_steps_fmap. Qed.

Lemma breakPatterns_loop_fmap n (d : list A) a len idx i random :
  breakPatterns_loop next n (f <$> d) a len idx i random
  = f <$> breakPatterns_loop next n d a len idx i random.
Proof.
  revert d i random. induction n as [|n IH]; intros d i random; simpl; [done|].
  by rewrite Swap_fmap, IH.
Qed.

Lemma breakPatterns_func_fmap (d : list A) a b :
  breakPatterns_func next (f <$> d) a b = f <$> breakPatterns_func next d a b.
Proof.
  unfold breakPatterns_func. case_match; [|done]. apply breakPatterns_loop_fmap.
Qed.

Lemma order2_func_fmap (d : list A) a b s :
  order2_func lt (f <$> d) a b s = order2_func lt_on d a b s.
Proof. unfold order2_func. by rewrite Less_fmap. Qed.

Lemma median_func_fmap (d : list A) a b c s :
  median_func lt (f <$> d) a b c s = median_func lt_on d a b c s.
Proof.
  unfold median_func. rewrite order2_func_fmap.
  destruct (order2_func lt_on d a b s) as [[a1 b1] s1]. rewrite order2_func_fmap.
  destruct (order2_func lt_on d b1 c s1) as [[b2 c2] s2]. by rewrite order2_func_fmap.
Qed.

Lemma choosePivot_func_fmap (d : list A) a b :
  choosePivot_func lt (f <$> d) a b = choosePivot_func lt_on d a b.
Proof.
  unfold choosePivot_func, medianAdjacent_func.
  destruct (8 <=? b - a); [|done].
  destruct (shortestNinther <=? b - a).
  - rewrite median_func_fmap. destruct (median_func lt_on d _ _ _ _) as [i s1].
    rewrite median_func_fmap. destruct (median_func lt_on d _ _ _ _) as [j s2].
    rewrite median_func_fmap. destruct (median_func lt_on d _ _ _ _) as [k s3].
    by rewrite median_func_fmap.
  - by rewrite median_func_fmap.
Qed.

Lemma reverseRange_loop_fmap fuel (d : list A) i j :
  reverseRange_loop fuel (f <$> d) i j = f <$> reverseRange_loop fuel d i j.
Proof.
  revert d i j. induction fuel as [|fuel IH]; intros d i j; simpl; [done|].
  case_match; [|done]. by rewrite Swap_fmap, IH.
Qed.

Lemma reverseRange_func_fmap (d : list A) a b :
  reverseRange_func (f <$> d) a b = f <$> reverseRange_func d a b.
Proof. apply reverseRange_loop_fmap. Qed.

Lemma pdqsort_loop_fmap fuel (d : list A) a b limit wb wp :
  pdqsort_loop lt next fuel (f <$> d) a b limit wb wp
  = f <$> pdqsort_loop lt_on next fuel d a b limit wb wp.
Proof.
  revert d a b limit wb wp.
  induction fuel as [|fuel IH]; intros d a b limit wb wp; [done|].
  cbn [pdqsort_loop].
  case_match; [apply insertionSort_func_fmap|].
  case_match; [apply heapSort_func_fmap|].
  destruct wb; simpl.
  all: rewrite ?breakPatterns_func_fmap, choosePivot_func_fmap.
  all: destruct (choosePivot_func lt_on _ a b) as [pivot [| |]].
  all: rewrite ?reverseRange_func_fmap.
  all: try destruct wp; simpl.
  all: rewrite ?partialInsertionSort_func_fmap.
  all: try destruct (partialInsertionSort_func lt_on _ a b) as [d3 [|]]; simpl.
  all: try done.
  all: rewrite Less_fmap.
  all: case_match.
  all: rewrite ?partitionEqual_func_fmap, ?partition_func_fmap.
  all: try (destruct (partitionEqual_func lt_on _ a b _) as [d4 mid]; simpl; apply IH).
  all: destruct (partition_func lt_on _ a b _) as [[d4 mid] ap]; simpl.
  all: case_match; by rewrite !IH.
Qed.

Lemma Slice_with_fmap (d : list A) :
  Slice_with lt next (f <$> d) = f <$> Slice_with lt_on next d.
Proof.
  unfold Slice_with, pdqsort_func. rewrite length_fmap. apply pdqsort_loop_fmap.
Qed.

End Natural.

(** ** Short slices: insertion sort, which keeps ties in place *)

Section Stable.
Context {A : Type}.
Variable lt : A → A → bool.
Variable next : Z → Z.
Variable P : A → Prop.
Context `{!∀ x, Decision (P x)}.

Lemma Swap_cons (x : A) d i j : Swap (x :: d) (S i) (S j) = x :: Swap d i j.
Proof. unfold Swap. simpl. by destruct (d !! i), (d !! j). Qed.

(** two neighbours that are not both in [P] may change places *)
Lemma filter_Swap_adjacent (d : list A) j u v :
  d !! j = Some v → d !! S j = Some u → ¬ (P u ∧ P v) →
  filter P (Swap d (S j) j) = filter P d.
Proof.
  revert d. induction j as [|j IH]; intros d Hv Hu Hn.
  - destruct d as [|v' [|u' r]]; simplify_eq/=.
    unfold Swap. simpl. rewrite !filter_cons.
    destruct (decide (P u)), (decide (P v)); try done. by destruct Hn.
  - destruct d as [|x d]; simplify_eq/=.
    rewrite Swap_cons, !filter_cons. by rewrite (IH d Hv Hu Hn).
Qed.

(** [P] holds of elements that are not less than one another *)
Definition tied_in (d : list A) : Prop :=
  ∀ x y, x ∈ d → y ∈ d → P x → P y → lt x y = false.

Lemma tied_in_perm d d' : d' ≡ₚ d → tied_in d → tied_in d'.
Proof. intros Hp Ht x y Hx Hy. rewrite Hp in Hx, Hy. by apply Ht. Qed.

Lemma insertionSort_inner_filter d a j :
  tied_in d → filter P (insertionSort_inner lt d a j) = filter P d.
Proof.
  revert d. induction j as [|j IH]; intros d Ht; simpl; [done|].
  destruct ((a <? S j) && Less lt d (S j) j) eqn:Hc; [|done].
  apply andb_true_iff in Hc as [_ HL]. unfold Less in HL.
  destruct (d !! S j) as [u|] eqn:Hu; [|done].
  destruct (d !! j) as [v|] eqn:Hv; [|done].
  rewrite IH.
  - eapply filter_Swap_adjacent; [done|done|]. intros [Pu Pv].
    rewrite (Ht u v) in HL; [done| | |done|done];
      by eapply list_elem_of_lookup_2.
  - eapply tied_in_perm; [|done]. apply Swap_perm.
Qed.

Lemma insertionSort_outer_filter n d a i :
  tied_in d → filter P (insertionSort_outer lt n d a i) = filter P d.
Proof.
  revert d i. induction n as [|n IH]; intros d i Ht; simpl; [done|].
  rewrite IH, insertionSort_inner_filter; [done|done|].
  eapply tied_in_perm; [|done]. apply insertionSort_inner_perm.
Qed.

Lemma Slice_with_short d :
  length d ≤ maxInsertion →
  Slice_with lt next d = insertionSort_func lt d 0 (length d).
Proof.
  intros Hl. unfold Slice_with, pdqsort_func. cbn [pdqsort_loop].
  rewrite Nat.sub_0_r. by replace (length d <=? maxInsertion) with true
    by (symmetry; by apply Nat.leb_le).
Qed.

Lemma Slice_with_stable d :
  length d ≤ maxInsertion → tied_in d →
  filter P (Slice_with lt next d) = filter P d.
Proof.
  intros Hl Ht. rewrite Slice_with_short by done.
  by apply insertionSort_outer_filter.
Qed.

End Stable.

(** ** [sort.Slice]: the result *)

Lemma Slice_perm {A} (less : A → A → bool) (d : list A) : Slice less d ≡ₚ d.
Proof. apply Slice_with_perm. Qed.

Lemma Slice_length {A} (less : A → A → bool) (d : list A) :
  length (Slice less d) = length d.
Proof. by rewrite Slice_perm. Qed.

(** in order: no element is less than an earlier one *)
Definition in_order {A} (less : A → A → bool) (d : list A) : Prop :=
  StronglySorted (λ x y, less y x = false) d.

Lemma in_order_fmap {A B} (f : A → B) (less : B → B → bool) (d : list A) :
  in_order (lt_on f less) d → in_order less (f <$> d).
Proof.
  unfold in_order. induction 1 as [|x d Hs IH Hall]; simpl; constructor; [done|].
  by apply Forall_fmap.
Qed.

Lemma Forall_sig {A} (Q : A → Prop) (d : list A) :
  Forall Q d → ∃ d' : list (sig Q), proj1_sig <$> d' = d.
Proof.
  induction 1 as [|x d Hx _ [d' <-]]; [by exists []|].
  by exists (exist _ x Hx :: d').
Qed.

(** [less] need be a strict weak order on the elements of the slice only *)
Lemma Slice_in_order {A} (less : A → A → bool) (Q : A → Prop) (d : list A) :
  (∀ x y, Q x → Q y → less x y = true → less y x = false) →
  (∀ x y z, Q x → Q y → Q z →
     less x y = false → less y z = false → less x z = false) →
  Forall Q d → in_order less (Slice less d).
Proof.
  intros Hasym Hneg HQ. destruct (Forall_sig Q d HQ) as [d' <-].
  unfold Slice. rewrite Slice_with_fmap. apply in_order_fmap.
  apply Slice_with_sorted.
  - intros [x Hx] [y Hy]. unfold lt_on. simpl. by apply Hasym.
  - intros [x Hx] [y Hy] [z Hz]. unfold lt_on. simpl. by apply Hneg.
Qed.

Lemma Slice_stable {A} (less : A → A → bool) (P : A → Prop)
    `{!∀ x, Decision (P x)} (d : list A) :
  length d ≤ 12 → tied_in less P d → filter P (Slice less d) = filter P d.
Proof. apply Slice_with_stable. Qed.


End GoSortFacts.

(* ===================================================================== *)
(** * Facts about [float64] *)

Module Float64Facts.

Import Float64.

Lemma ltb_asym (x y : float64) : SFltb x y = true → SFltb y x = false.
Proof.
  unfold SFltb, SFcompare.
  destruct x as [[]|[]| |[] m1 e1], y as [[]|[]| |[] m2 e2]; try done.
  - destruct (Z.compare_spec e1 e2), (Z.compare_spec e2 e1); try done; try lia.
    subst. change (Pos.compare_cont Eq ?a ?b) with (Pos.compare a b).
    destruct (Pos.compare_spec m1 m2), (Pos.compare_spec m2 m1); try done; lia.
  - destruct (Z.compare_spec e1 e2), (Z.compare_spec e2 e1); try done; try lia.
    subst. change (Pos.compare_cont Eq ?a ?b) with (Pos.compare a b).
    destruct (Pos.compare_spec m1 m2), (Pos.compare_spec m2 m1); try done; lia.
Qed.

(** "not less" is transitive through a number *)
Lemma ltb_negtrans (x y z : float64) :
  is_nan y = false →
  SFltb x y = false → SFltb y z = false → SFltb x z = false.
Proof.
  unfold SFltb, SFcompare, is_nan.
  destruct x as [[]|[]| |[] m1 e1], y as [[]|[]| |[] m2 e2],
           z as [[]|[]| |[] m3 e3]; try done.
  all: change (Pos.compare_cont Eq ?a ?b) with (Pos.compare a b).
  all: intros _.
  all: destruct (Z.compare_spec e1 e2), (Z.compare_spec e2 e3),
         (Z.compare_spec e1 e3); try done; try lia.
  all: subst.
  all: destruct (Pos.compare_spec m1 m2), (Pos.compare_spec m2 m3),
         (Pos.compare_spec m1 m3); try done; try lia.
Qed.

(** ** No operation of the classifier makes a NaN *)

Lemma iter_pos_inv {T} (P : T → Prop) (g : T → T) p x :
  (∀ y, P y → P (g y)) → P x → P (SpecFloat.iter_pos g p x).
Proof.
  intros Hg. revert x. induction p as [p IH|p IH|]; intros x Hx; simpl; auto.
Qed.

Lemma shr_1_nonneg mrs : (0 ≤ shr_m mrs)%Z → (0 ≤ shr_m (shr_1 mrs))%Z.
Proof. destruct mrs as [[|[]|[]] r s]; simpl; lia. Qed.

Lemma shr_fexp_nonneg m e l :
  (0 ≤ m)%Z → (0 ≤ shr_m (shr_fexp prec emax m e l).1)%Z.
Proof.
  intros Hm. unfold shr_fexp, shr.
  assert (H0 : (0 ≤ shr_m (shr_record_of_loc m l))%Z).
  { by destruct l as [|[]]. }
  destruct (_ - e)%Z; simpl; try done.
  by apply iter_pos_inv; [apply shr_1_nonneg|].
Qed.

Lemma round_nearest_even_nonneg m l : (0 ≤ m)%Z → (0 ≤ round_nearest_even m l)%Z.
Proof. intros Hm. destruct l as [|[]]; simpl; try lia. destruct (Z.even m); lia. Qed.

Lemma binary_round_aux_not_nan sx mx ex lx :
  (0 ≤ mx)%Z → is_nan (binary_round_aux prec emax sx mx ex lx) = false.
Proof.
  intros Hm. unfold binary_round_aux.
  pose proof (shr_fexp_nonneg mx ex lx Hm) as H1.
  destruct (shr_fexp prec emax mx ex lx) as [mrs' e']. simpl in H1.
  pose proof (shr_fexp_nonneg _ e' loc_Exact
                (round_nearest_even_nonneg _ (loc_of_shr_record mrs') H1)) as H2.
  destruct (shr_fexp prec emax _ e' loc_Exact) as [mrs'' e'']. simpl in H2.
  destruct (shr_m mrs''); try done. by case_match.
Qed.

Lemma binary_normalize_not_nan m e s :
  is_nan (binary_normalize prec emax m e s) = false.
Proof.
  destruct m; simpl; [done| |]; unfold binary_round;
    destruct (shl_align _ _ _); by apply binary_round_aux_not_nan.
Qed.

Lemma of_int_not_nan n : is_nan (of_int n) = false.
Proof. apply binary_normalize_not_nan. Qed.

(** a number that is neither NaN nor an infinity *)
Definition is_finite (x : float64) : bool :=
  match x with S754_zero _ | S754_finite _ _ _ => true | _ => false end.

Lemma add_not_nan x y : is_nan x = false → is_finite y = true → is_nan (add x y) = false.
Proof.
  destruct x as [[]|[]| |sx mx ex], y as [[]|[]| |sy my ey]; try done.
  intros _ _. apply binary_normalize_not_nan.
Qed.

Lemma sub_not_nan x y : is_nan x = false → is_finite y = true → is_nan (sub x y) = false.
Proof.
  destruct x as [[]|[]| |sx mx ex], y as [[]|[]| |sy my ey]; try done.
  intros _ _. apply binary_normalize_not_nan.
Qed.

Lemma SFdiv_core_binary_nonneg m1 e1 m2 e2 :
  (0 < m1)%Z → (0 < m2)%Z →
  (0 ≤ (SFdiv_core_binary prec emax m1 e1 m2 e2).1.1)%Z.
Proof.
  intros H1 H2. unfold SFdiv_core_binary.
  set (s := (e1 - e2 - _)%Z).
  set (m' := match s with 0%Z => m1 | Z.pos _ => Z.shiftl m1 s | Z.neg _ => 0%Z end).
  assert (Hm' : (0 ≤ m')%Z).
  { subst m'. destruct s; try lia. apply Z.shiftl_nonneg. lia. }
  destruct (Z.div_eucl m' m2) as [q r] eqn:E. simpl.
  assert (q = (m' / m2)%Z) as -> by (unfold Z.div; by rewrite E).
  apply Z.div_pos; lia.
Qed.

Lemma div_not_nan x y :
  is_nan x = false → (∃ s m e, y = S754_finite s m e) → is_nan (div x y) = false.
Proof.
  intros Hx (sy & my & ey & ->).
  destruct x as [sx|sx| |sx mx ex]; try done.
  unfold div, SFdiv.
  pose proof (SFdiv_core_binary_nonneg (Z.pos mx) ex (Z.pos my) ey
                ltac:(lia) ltac:(lia)) as H.
  destruct (SFdiv_core_binary prec emax (Z.pos mx) ex (Z.pos my) ey)
    as [[mz ez] lz].
  by apply binary_round_aux_not_nan.
Qed.

End Float64Facts.

(* ===================================================================== *)
(** * The classifier: what the specification says of it *)

Module ClassifierFacts.

Import Float64 GoStrings GoRegexp domain classifier.
Import GoSortFacts Float64Facts.
Local Open Scope string_scope.

(** ** The confidence score, as the specification words it *)






(** ** The matches of a name, in the order of the snapshot *)

Definition matches_of (ps : list Pattern) (n : string) : list match_ :=
  (λ p, {| pattern := p; score := calculateConfidenceScore n p |})
    <$> filter (λ p, MatchString (regex p) n = true) ps.

(** no match has a greater score than [m] *)
Definition is_top (ms : list match_) (m : match_) : bool :=
  forallb (λ m', negb (byScore m' m)) ms.

Definition text (m : match_) : string := Pattern_ (pattern m).

(** a rule and the pattern [SetPatterns] compiles it to *)
Definition compiled_from (Compile : string → Regexp + string)
    (rule : ClassificationPattern) (p : Pattern) : Prop :=
  InformationType_ p = cp_InformationType rule
  ∧ Pattern_ p = cp_Pattern rule
  ∧ Description p = cp_Description rule
  ∧ Priority p = cp_Priority rule
  ∧ Compile (cp_Pattern rule) = inl (regex p).

Section Facts.
Variable Compile : string → Regexp + string.
Variable TrimSpace ToLower : string → string.

Lemma commonWordsPenalty_loop_spec words n :
  commonWordsPenalty_loop words n
  = if existsb (Contains n) words && (String.length n <? 10)%nat
    then decimal 1 10 else of_int 0.
Proof.
  induction words as [|w words IH]; simpl; [done|].
  rewrite IH.
  by destruct (Contains n w), (String.length n <? 10)%nat,
       (existsb (Contains n) words).
Qed.



Lemma of_int_100_finite : ∃ s m e, of_int 100 = S754_finite s m e.
Proof. eexists _, _, _. vm_compute. reflexivity. Qed.

Lemma calculateConfidenceScore_not_nan n p :
  is_nan (calculateConfidenceScore n p) = false.
Proof.
  unfold calculateConfidenceScore.
  set (base := div _ _).
  assert (Hb : is_nan base = false).
  { apply div_not_nan; [apply of_int_not_nan|apply of_int_100_finite]. }
  set (ex := if MatchString _ _ then _ else _).
  assert (He : is_finite ex = true).
  { subst ex. by repeat case_match. }
  rewrite commonWordsPenalty_loop_spec.
  set (pen := if _ && _ then _ else _).
  assert (Hp : is_finite pen = true) by (subst pen; by case_match).
  set (f := sub _ _).
  assert (Hf : is_nan f = false) by (by apply sub_not_nan; [apply add_not_nan|]).
  by repeat case_match.
Qed.

(** the score lies in [[0, 1]] *)
Lemma calculateConfidenceScore_range n p :
  ltb (calculateConfidenceScore n p) (of_int 0) = false
  ∧ gtb (calculateConfidenceScore n p) (of_int 1) = false.
Proof.
  unfold calculateConfidenceScore.
  set (f := sub _ _).
  destruct (gtb f (of_int 1)) eqn:Hgt; [done|].
  destruct (ltb f (of_int 0)) eqn:Hlt; [done|]. done.
Qed.

Lemma ClassifyColumn_matches_spec ps n acc :
  ClassifyColumn_matches ps n acc = (acc ++ matches_of ps n)%list.
Proof.
  revert acc. induction ps as [|p ps IH]; intros acc; simpl.
  { by rewrite app_nil_r. }
  unfold matches_of. rewrite filter_cons.
  destruct (MatchString (regex p) n) eqn:Hm.
  - rewrite IH. rewrite decide_True by done. simpl.
    by rewrite <- app_assoc.
  - rewrite IH. by rewrite decide_False by done.
Qed.

Lemma matches_of_not_nan ps n :
  Forall (λ m, is_nan (score m) = false) (matches_of ps n).
Proof.
  unfold matches_of. apply Forall_fmap, Forall_forall. intros p _. simpl.
  apply calculateConfidenceScore_not_nan.
Qed.

Lemma byScore_irrefl m : byScore m m = false.
Proof.
  unfold byScore, gtb. destruct (SFltb (score m) (score m)) eqn:E; [|done].
  by rewrite (ltb_asym _ _ E) in E.
Qed.

Lemma Slice_byScore_in_order ps n :
  in_order byScore (GoSort.Slice byScore (matches_of ps n)).
Proof.
  eapply (Slice_in_order byScore (λ m, is_nan (score m) = false)).
  - intros x y _ _. unfold byScore, gtb. apply ltb_asym.
  - intros x y z _ Hy _. unfold byScore, gtb. intros H1 H2.
    by eapply ltb_negtrans.
  - apply matches_of_not_nan.
Qed.

(** [ClassifyColumn] on a name that is not [""] *)
Lemma ClassifyColumn_unfold c columnName :
  columnName ≠ "" →
  ClassifyColumn TrimSpace ToLower c columnName
  = match matches_of (patterns c) (ToLower (TrimSpace columnName)) with
    | [] => notClassified
    | first :: _ =>
        let sorted :=
          GoSort.Slice byScore
            (matches_of (patterns c) (ToLower (TrimSpace columnName))) in
        {| InformationType := InformationType_ (pattern (hd first sorted));
           ConfidenceScore := score (hd first sorted);
           MatchedPatterns := text <$> sorted |}
    end.
Proof.
  intros Hne. unfold ClassifyColumn.
  destruct (String.eqb_spec columnName ""); [done|].
  rewrite ClassifyColumn_matches_spec. simpl.
  by destruct (matches_of _ _).
Qed.


Lemma ClassifyColumn_empty c :
  ClassifyColumn TrimSpace ToLower c "" = notClassified.
Proof. done. Qed.

Lemma is_top_spec ms m :
  is_top ms m = true ↔ ∀ m', m' ∈ ms → byScore m' m = false.
Proof.
  unfold is_top. rewrite forallb_forall. split.
  - intros H m' Hm'. apply list_elem_of_In in Hm'.
    by apply negb_true_iff, H.
  - intros H m' Hm'. apply list_elem_of_In in Hm'.
    by apply negb_true_iff, H.
Qed.

Lemma in_order_head {A} (less : A → A → bool) (x : A) (l : list A) :
  less x x = false → in_order less (x :: l) → ∀ y, y ∈ x :: l → less y x = false.
Proof.
  intros Hx Hs y Hy. apply StronglySorted_inv in Hs as [_ Hall].
  apply elem_of_cons in Hy as [->|Hy]; [done|].
  rewrite Forall_forall in Hall. by apply Hall.
Qed.

(** ** C2: the confidence score *)


(** ** C3: the winner and the matched patterns *)

(** C3, amended. For every name whose normalized form
    [ToLower (TrimSpace columnName)] is not empty (the name itself then is
    not empty either, which is all that [ClassifyColumn] tests) and has a
    matching pattern, [matchedPatterns] lists the texts of all matching
    patterns by descending score, and the information type and the score
    returned are those of its first entry, a match of the highest score.
    When at most 12 patterns match, that entry is the first match of the
    highest score in the order of the snapshot, and matches that tie keep
    the order of the snapshot. *)
Theorem C3_best_match (c : Classifier) (columnName : string) :
  columnName ≠ "" →
  ToLower (TrimSpace columnName) ≠ "" →
  matches_of (patterns c) (ToLower (TrimSpace columnName)) ≠ [] →
  ∃ sorted best,
    sorted ≡ₚ matches_of (patterns c) (ToLower (TrimSpace columnName))
    ∧ in_order byScore sorted
    ∧ MatchedPatterns (ClassifyColumn TrimSpace ToLower c columnName)
        = text <$> sorted
    ∧ head sorted = Some best
    ∧ InformationType (ClassifyColumn TrimSpace ToLower c columnName)
        = InformationType_ (pattern best)
    ∧ ConfidenceScore (ClassifyColumn TrimSpace ToLower c columnName) = score best
    ∧ is_top (matches_of (patterns c) (ToLower (TrimSpace columnName))) best = true
    ∧ ((length (matches_of (patterns c) (ToLower (TrimSpace columnName))) ≤ 12)%nat →
         head (filter (λ m, is_top (matches_of (patterns c)
                                      (ToLower (TrimSpace columnName))) m = true)
                 (matches_of (patterns c) (ToLower (TrimSpace columnName))))
           = Some best
         ∧ ∀ (P : match_ → Prop) (dec : ∀ m, Decision (P m)),
             tied_in byScore P (matches_of (patterns c) (ToLower (TrimSpace columnName))) →
             filter P sorted
             = filter P (matches_of (patterns c) (ToLower (TrimSpace columnName)))).
Proof.
  intros Hne _ Hms. rewrite (ClassifyColumn_unfold c columnName Hne).
  set (ms := matches_of (patterns c) (ToLower (TrimSpace columnName))) in *.
  pose proof (Slice_byScore_in_order (patterns c) (ToLower (TrimSpace columnName)))
    as Hord.
  fold ms in Hord.
  pose proof (Slice_perm byScore ms) as Hperm.
  destruct ms as [|first ms'] eqn:Ems; [done|]. rewrite <- Ems in *.
  cbn zeta. set (sorted := GoSort.Slice byScore ms) in *.
  destruct sorted as [|best rest] eqn:Es.
  { apply Permutation_nil_l in Hperm. by rewrite Ems in Hperm. }
  exists (best :: rest), best. simpl.
  assert (Htop : is_top ms best = true).
  { apply is_top_spec. intros m' Hm'. rewrite <- Hperm in Hm'.
    eapply in_order_head; [apply byScore_irrefl|done|done]. }
  repeat split; try done.
  - (* the first of the best, in the order of the snapshot *)
    assert (Hst : filter (λ m, is_top ms m = true) (best :: rest)
                  = filter (λ m, is_top ms m = true) ms).
    { rewrite <- Es. apply Slice_stable; [done|].
      intros x y Hx Hy _ Hy'. by apply (proj1 (is_top_spec ms y)). }
    rewrite <- Hst. rewrite filter_cons. by rewrite decide_True.
  - intros P dec Htied. rewrite <- Es. by apply Slice_stable.
Qed.

(** ** C9: not classified, and nothing matched *)

Lemma matches_of_pattern ps n m :
  m ∈ matches_of ps n → pattern m ∈ ps ∧ MatchString (regex (pattern m)) n = true.
Proof.
  unfold matches_of. intros Hm.
  apply list_elem_of_fmap in Hm as (p & -> & Hp).
  apply list_elem_of_filter in Hp as [Hp1 Hp2]. done.
Qed.

Lemma matches_of_nil ps n :
  matches_of ps n = [] ↔ ∀ p, p ∈ ps → MatchString (regex p) n = false.
Proof.
  unfold matches_of. split.
  - intros H p Hp. apply fmap_nil_inv in H.
    destruct (MatchString (regex p) n) eqn:E; [|done].
    assert (p ∈ filter (λ p, MatchString (regex p) n = true) ps) as Hin
      by (by apply list_elem_of_filter).
    rewrite H in Hin. by apply elem_of_nil in Hin.
  - intros H. replace (filter _ ps) with (@nil Pattern); [done|].
    symmetry. induction ps as [|p ps IH]; [done|].
    rewrite filter_cons_False.
    + apply IH. intros q Hq. apply H. by right.
    + rewrite (H p); [done|by left].
Qed.

(** when a pattern matches, the type returned is that of a match and
    [matchedPatterns] is not empty *)
Lemma ClassifyColumn_matched c columnName :
  columnName ≠ "" →
  matches_of (patterns c) (ToLower (TrimSpace columnName)) ≠ [] →
  ∃ best,
    best ∈ matches_of (patterns c) (ToLower (TrimSpace columnName))
    ∧ InformationType (ClassifyColumn TrimSpace ToLower c columnName)
        = InformationType_ (pattern best)
    ∧ MatchedPatterns (ClassifyColumn TrimSpace ToLower c columnName) ≠ [].
Proof.
  intros Hne Hms. rewrite (ClassifyColumn_unfold c columnName Hne).
  set (ms := matches_of (patterns c) (ToLower (TrimSpace columnName))) in *.
  pose proof (Slice_perm byScore ms) as Hperm.
  destruct ms as [|first ms'] eqn:Ems; [done|]. rewrite <- Ems in *.
  cbn zeta. destruct (GoSort.Slice byScore ms) as [|best rest] eqn:Es.
  { apply Permutation_nil_l in Hperm. by rewrite Ems in Hperm. }
  exists best. simpl. split; [|done]. rewrite <- Hperm. by left.
Qed.

(** C9, amended. For every name and snapshot, an empty [matchedPatterns]
    comes with the result [{NA, 0.0, []}]; when no rule of the snapshot
    carries the type NA itself, the information type is NA if and only if
    [matchedPatterns] is empty; and when no pattern matches (an empty rule
    set included) the result is [{NA, 0.0, []}]. *)
Theorem C9_na_iff_nothing_matched (c : Classifier) (columnName : string) :
  (MatchedPatterns (ClassifyColumn TrimSpace ToLower c columnName) = [] →
     ClassifyColumn TrimSpace ToLower c columnName = notClassified)
  ∧ ((∀ p, p ∈ patterns c → InformationType_ p ≠ InfoTypeNA) →
       InformationType (ClassifyColumn TrimSpace ToLower c columnName) = InfoTypeNA
       ↔ MatchedPatterns (ClassifyColumn TrimSpace ToLower c columnName) = [])
  ∧ ((∀ p, p ∈ patterns c →
        MatchString (regex p) (ToLower (TrimSpace columnName)) = false) →
       ClassifyColumn TrimSpace ToLower c columnName = notClassified).
Proof.
  destruct (decide (columnName = "")) as [->|Hne].
  { rewrite ClassifyColumn_empty. done. }
  destruct (decide (matches_of (patterns c) (ToLower (TrimSpace columnName)) = []))
    as [Hnil|Hms].
  { rewrite (ClassifyColumn_unfold c columnName Hne), Hnil. done. }
  destruct (ClassifyColumn_matched c columnName Hne Hms) as (best & Hbest & HT & HMne).
  apply matches_of_pattern in Hbest as [Hin Hmatch].
  split; [done|]. split.
  - intros Hna. split; [|done]. intros Hty. rewrite HT in Hty.
    by destruct (Hna _ Hin).
  - intros Hno. rewrite (Hno _ Hin) in Hmatch. done.
Qed.

(** ** C5 and C6: [SetPatterns] *)

Lemma SetPatterns_compile_ok rules acc :
  (∀ rule, rule ∈ rules → ∃ re, Compile (cp_Pattern rule) = inl re) →
  ∃ compiled,
    Forall2 (compiled_from Compile) rules compiled
    ∧ SetPatterns_compile Compile rules acc = inl (acc ++ compiled)%list.
Proof.
  revert acc. induction rules as [|rule rules IH]; intros acc Hok.
  { exists []. split; [constructor|]. simpl. by rewrite app_nil_r. }
  destruct (Hok rule) as [re Hre]; [by left|].
  destruct (IH (acc ++ [ {| InformationType_ := cp_InformationType rule;
                            Pattern_ := cp_Pattern rule;
                            Description := cp_Description rule;
                            Priority := cp_Priority rule;
                            regex := re |} ])%list) as (compiled & HF & HS).
  { intros r Hr. apply Hok. by right. }
  exists ({| InformationType_ := cp_InformationType rule;
             Pattern_ := cp_Pattern rule;
             Description := cp_Description rule;
             Priority := cp_Priority rule;
             regex := re |} :: compiled). split.
  - constructor; [|done]. by repeat split.
  - simpl. rewrite Hre, HS. by rewrite <- app_assoc.
Qed.

Lemma SetPatterns_compile_bad pre bad post e acc :
  (∀ rule, rule ∈ pre → ∃ re, Compile (cp_Pattern rule) = inl re) →
  Compile (cp_Pattern bad) = inr e →
  SetPatterns_compile Compile (pre ++ bad :: post) acc
  = inr ("failed to compile regex pattern '" ++ cp_Pattern bad ++ "': " ++ e).
Proof.
  revert acc. induction pre as [|rule pre IH]; intros acc Hok Hbad; simpl.
  { by rewrite Hbad. }
  destruct (Hok rule) as [re Hre]; [by left|]. rewrite Hre.
  apply IH; [|done]. intros r Hr. apply Hok. by right.
Qed.

Lemma first_bad rules :
  (∃ rule, rule ∈ rules ∧ ∃ e, Compile (cp_Pattern rule) = inr e) →
  ∃ pre bad post e,
    rules = (pre ++ bad :: post)%list
    ∧ (∀ rule, rule ∈ pre → ∃ re, Compile (cp_Pattern rule) = inl re)
    ∧ Compile (cp_Pattern bad) = inr e.
Proof.
  induction rules as [|rule rules IH]; intros (r & Hr & e & He).
  { by apply elem_of_nil in Hr. }
  destruct (Compile (cp_Pattern rule)) as [re|e'] eqn:E.
  - destruct IH as (pre & bad & post & e' & -> & Hpre & Hbad).
    { apply elem_of_cons in Hr as [->|Hr]; [congruence|]. eauto. }
    exists (rule :: pre), bad, post, e'. split; [done|]. split; [|done].
    intros r' Hr'. apply elem_of_cons in Hr' as [->|Hr']; eauto.
  - exists [], rule, rules, e'. split; [done|]. split; [|done].
    intros r' Hr'. by apply elem_of_nil in Hr'.
Qed.

(** C5. For every rule sequence with a rule whose pattern text does not
    compile, [SetPatterns] and [refreshClassifier] return the compile error
    that names the first such pattern and leave the classifier and the
    service as they were, so [ClassifyColumn] answers after the call as it
    did before. *)
Theorem C5_failed_reload_keeps_snapshot (c : Classifier)
    (s : ClassificationService.ClassificationService)
    (rules : list ClassificationPattern) :
  (∃ rule, rule ∈ rules ∧ ∃ e, Compile (cp_Pattern rule) = inr e) →
  ∃ pre bad post e,
    rules = (pre ++ bad :: post)%list
    ∧ (∀ rule, rule ∈ pre → ∃ re, Compile (cp_Pattern rule) = inl re)
    ∧ Compile (cp_Pattern bad) = inr e
    ∧ SetPatterns Compile c rules
      = (c, Some ("failed to compile regex pattern '" ++ cp_Pattern bad ++ "': " ++ e))
    ∧ ClassificationService.refreshClassifier Compile s rules
      = (s, Some ("failed to prepare classifier: "
                  ++ "failed to compile regex pattern '" ++ cp_Pattern bad ++ "': " ++ e))
    ∧ ∀ columnName,
        ClassificationService.ClassifyColumn TrimSpace ToLower
          (ClassificationService.refreshClassifier Compile s rules).1 columnName
        = ClassificationService.ClassifyColumn TrimSpace ToLower s columnName.
Proof.
  intros Hbad. destruct (first_bad rules Hbad) as (pre & bad & post & e & -> & Hpre & He).
  exists pre, bad, post, e.
  assert (HS : ∀ c', SetPatterns Compile c' (pre ++ bad :: post)
            = (c', Some ("failed to compile regex pattern '" ++ cp_Pattern bad
                         ++ "': " ++ e))).
  { intros c'. unfold SetPatterns.
    by rewrite (SetPatterns_compile_bad pre bad post e [] Hpre He). }
  assert (HR : ClassificationService.refreshClassifier Compile s (pre ++ bad :: post)
          = (s, Some ("failed to prepare classifier: "
                      ++ "failed to compile regex pattern '" ++ cp_Pattern bad
                      ++ "': " ++ e))).
  { unfold ClassificationService.refreshClassifier, NewClassifier. by rewrite HS. }
  repeat split; try done. intros columnName. by rewrite HR.
Qed.

Lemma in_order_byPriority snapshot :
  in_order byPriority snapshot →
  StronglySorted (λ x y, (Priority y ≤ Priority x)%Z) snapshot.
Proof.
  unfold in_order. induction 1 as [|x l Hs IH Hall]; constructor; [done|].
  eapply Forall_impl; [done|]. intros y Hy. unfold byPriority in Hy.
  by apply Z.ltb_ge in Hy.
Qed.

(** C6, amended. For every sequence of rules whose pattern texts all
    compile, [SetPatterns] produces a snapshot that is a permutation of the
    compiled input sorted by priority descending; when there are at most 12
    rules, rules of equal priority keep the order of the input. *)
Theorem C6_snapshot_by_priority (c : Classifier) (rules : list ClassificationPattern) :
  (∀ rule, rule ∈ rules → ∃ re, Compile (cp_Pattern rule) = inl re) →
  ∃ compiled snapshot,
    SetPatterns Compile c rules = ({| patterns := snapshot |}, None)
    ∧ Forall2 (compiled_from Compile) rules compiled
    ∧ snapshot ≡ₚ compiled
    ∧ StronglySorted (λ x y, (Priority y ≤ Priority x)%Z) snapshot
    ∧ ((length rules ≤ 12)%nat →
         ∀ priority, filter (λ p, Priority p = priority) snapshot
                     = filter (λ p, Priority p = priority) compiled).
Proof.
  intros Hok. destruct (SetPatterns_compile_ok rules [] Hok) as (compiled & HF & HS).
  simpl in HS. exists compiled, (GoSort.Slice byPriority compiled).
  split; [unfold SetPatterns; by rewrite HS|]. split; [done|].
  split; [apply Slice_perm|]. split.
  - apply in_order_byPriority.
    apply (Slice_in_order byPriority (λ _, True)).
    + intros x y _ _. unfold byPriority. rewrite !Z.ltb_lt, Z.ltb_ge. lia.
    + intros x y z _ _ _. unfold byPriority. rewrite !Z.ltb_ge. lia.
    + by apply Forall_forall.
  - intros Hlen priority. apply Slice_stable.
    + by rewrite <- (Forall2_length _ _ _ HF).
    + intros x y _ _ Hx Hy. unfold byPriority. apply Z.ltb_ge. lia.
Qed.

End Facts.

(** ** Running the classifier

    On ASCII names, with the fragment of [regexp]. *)

Definition rule (infoType pattern : string) (priority : Z) : ClassificationPattern :=
  {| cp_ID := 0; cp_InformationType := infoType; cp_Pattern := pattern;
     cp_Description := ""; cp_Priority := priority; cp_IsActive := true;
     cp_CreatedAt := 0; cp_UpdatedAt := 0 |}.

(** the classifier after [SetPatterns(rules)] *)
Definition load (rules : list ClassificationPattern) : Classifier :=
  (SetPatterns GoRegexp.Compile {| patterns := [] |} rules).1.

Definition Classify (c : Classifier) (columnName : string) : MatchResult :=
  ClassifyColumn TrimSpace_ascii ToLower_ascii c columnName.

(** the compiled expression of a text of the fragment *)
Definition MustCompile (expr : string) : Regexp :=
  match GoRegexp.Compile expr with
  | inl re => re
  | inr _ => {| MatchString := λ _, false; FindString := λ _, "" |}
  end.

Definition compiled_rule (infoType pattern : string) (priority : Z) : Pattern :=
  {| InformationType_ := infoType; Pattern_ := pattern; Description := "";
     Priority := priority; regex := MustCompile pattern |}.

(** the examples of the specification *)
Example Classify_user_ssn :
  Classify (load [rule InfoTypeSSN "ssn" 90]) "user_ssn"
  = {| InformationType := InfoTypeSSN; ConfidenceScore := of_int 1;
       MatchedPatterns := ["ssn"] |}.
Proof. vm_compute. reflexivity. Qed.

Example Classify_id :
  Classify (load [rule InfoTypeAccountNumber "id" 50]) "id"
  = {| InformationType := InfoTypeAccountNumber; ConfidenceScore := decimal 6 10;
       MatchedPatterns := ["id"] |}.
Proof. vm_compute. reflexivity. Qed.

(** a partial match at priority 70 and an exact match at priority 60 do
    not tie: [0.7 + 0.1] is below [0.6 + 0.2] in [float64] *)
Example Classify_rounding :
  Classify (load [rule InfoTypeUsername "abc" 70; rule InfoTypeFullName "abcd" 60]) "abcd"
  = {| InformationType := InfoTypeFullName; ConfidenceScore := decimal 8 10;
       MatchedPatterns := ["abcd"; "abc"] |}.
Proof. vm_compute. reflexivity. Qed.

(** ** C1: a name of white space *)

(** C1. The guard of [ClassifyColumn] compares the name with [""] before
    it is trimmed: a name of three spaces gets past it, is trimmed to
    [""], and is classified by a rule whose expression matches the empty
    string. *)
Theorem C1_blank_name_is_classified :
  Classify (load [rule InfoTypeAddress ".*" 50]) "   "
  = {| InformationType := InfoTypeAddress; ConfidenceScore := decimal 7 10;
       MatchedPatterns := [".*"] |}.
Proof. vm_compute. reflexivity. Qed.

(** ** C2 *)







(** ** C3 *)

Definition one_rule : Classifier :=
  {| patterns := [compiled_rule InfoTypeSSN "ssn" 90] |}.

(** four rules: two of priority 80 that match ["work_email"] in part, one
    of priority 50 that does, and one of priority 90 that does not *)
Definition mail_rules : list ClassificationPattern :=
  [rule InfoTypeFullName "work" 50; rule InfoTypeEmailAddress "email" 80;
   rule InfoTypeSSN "ssn" 90; rule InfoTypeUsername "mail" 80].

(** the match of a rule on a name *)
Definition match_of (infoType patternStr : string) (priority : Z) (n : string) : match_ :=
  {| pattern := compiled_rule infoType patternStr priority;
     score := calculateConfidenceScore n (compiled_rule infoType patternStr priority) |}.

Lemma C3_best_match_witness :
  "  Work_Email " ≠ ""
  ∧ ToLower_ascii (TrimSpace_ascii "  Work_Email ") ≠ ""
  ∧ matches_of (patterns (load mail_rules)) (ToLower_ascii (TrimSpace_ascii "  Work_Email "))
    ≠ []
  ∧ text <$> matches_of (patterns (load mail_rules)) "work_email" = ["email"; "mail"; "work"]
  ∧ score <$> matches_of (patterns (load mail_rules)) "work_email"
    = [decimal 9 10; decimal 9 10; decimal 6 10]
  ∧ InformationType (Classify (load mail_rules) "  Work_Email ") = InfoTypeEmailAddress
  ∧ ConfidenceScore (Classify (load mail_rules) "  Work_Email ") = decimal 9 10
  ∧ MatchedPatterns (Classify (load mail_rules) "  Work_Email ") = ["email"; "mail"; "work"].
Proof.
  assert (H1 : "  Work_Email " ≠ "") by discriminate.
  assert (H2 : ToLower_ascii (TrimSpace_ascii "  Work_Email ") ≠ "")
    by (vm_compute; discriminate).
  assert (H3 : matches_of (patterns (load mail_rules))
                 (ToLower_ascii (TrimSpace_ascii "  Work_Email ")) ≠ [])
    by (vm_compute; discriminate).
  split; [exact H1|]. split; [exact H2|]. split; [exact H3|].
  split; [vm_compute; reflexivity|]. split; [vm_compute; reflexivity|].
  destruct (C3_best_match TrimSpace_ascii ToLower_ascii (load mail_rules) "  Work_Email "
              H1 H2 H3)
    as (sorted & best & Hperm & Hord & HM & Hhd & HT & HS & _ & Hfew).
  destruct Hfew as [Hfirst Hties]; [vm_compute; lia|].
  set (ms := matches_of (patterns (load mail_rules))
               (ToLower_ascii (TrimSpace_ascii "  Work_Email "))) in *.
  assert (Ems : ms = [match_of InfoTypeEmailAddress "email" 80 "work_email";
                      match_of InfoTypeUsername "mail" 80 "work_email";
                      match_of InfoTypeFullName "work" 50 "work_email"]).
  { vm_compute. reflexivity. }
  assert (Hbest : best = match_of InfoTypeEmailAddress "email" 80 "work_email").
  { rewrite Ems in Hfirst. vm_compute in Hfirst. injection Hfirst as <-.
    vm_compute. reflexivity. }
  unfold Classify.
  split; [rewrite HT, Hbest; reflexivity|].
  split; [rewrite HS, Hbest; vm_compute; reflexivity|].
  rewrite HM.
  (* the matches of score 0.9 keep the order of the snapshot *)
  pose proof (Hties (λ m, score m = decimal 9 10) _) as Hnine.
  assert (Htied : tied_in byScore (λ m, score m = decimal 9 10) ms).
  { intros x y _ _ Hx Hy. unfold byScore. rewrite Hx, Hy. vm_compute. reflexivity. }
  specialize (Hnine Htied). clear Hties Htied Hfirst HM HT HS H3.
  set (e := match_of InfoTypeEmailAddress "email" 80 "work_email") in *.
  set (m := match_of InfoTypeUsername "mail" 80 "work_email") in *.
  set (w := match_of InfoTypeFullName "work" 50 "work_email") in *.
  clearbody ms. subst ms best.
  assert (He : text e = "email" ∧ score e = decimal 9 10) by (split; vm_compute; reflexivity).
  assert (Hm : text m = "mail" ∧ score m = decimal 9 10) by (split; vm_compute; reflexivity).
  assert (Hw : text w = "work" ∧ score w ≠ decimal 9 10 ∧ byScore m w = true).
  { split; [vm_compute; reflexivity|]. split; vm_compute; [discriminate|reflexivity]. }
  clearbody e m w.
  destruct He as [Te Se], Hm as [Tm Sm], Hw as (Tw & Sw & Hmw).
  symmetry in Hperm. apply permutations_Permutation in Hperm. simpl in Hperm.
  repeat (apply elem_of_cons in Hperm as [Hperm|Hperm]);
    try (by apply elem_of_nil in Hperm); subst sorted; simpl.
  all: rewrite !filter_cons, !filter_nil in Hnine.
  all: rewrite !(decide_True (P := score e = decimal 9 10)),
         !(decide_True (P := score m = decimal 9 10)),
         !(decide_False (P := score w = decimal 9 10)) in Hnine by done.
  all: first
    [ by rewrite Te, Tm, Tw
    | exfalso; apply StronglySorted_inv in Hord as [Hord _];
      apply StronglySorted_inv in Hord as [_ Hord];
      apply Forall_cons in Hord as [Hord _]; congruence
    | exfalso; injection Hnine as Heq; congruence
    | exfalso; injection Hhd as Heq; congruence ].
Defined.

(** thirteen rules of one priority; all match ["abc"], the fourth and the
    seventh exactly *)
Definition thirteen_rules : list ClassificationPattern :=
  [rule InfoTypeFirstName "a" 50; rule InfoTypeLastName "b" 50;
   rule InfoTypeAddress "c" 50; rule InfoTypeUsername "abc" 50;
   rule InfoTypeEmailAddress "ab" 50; rule InfoTypePhoneNumber "bc" 50;
   rule InfoTypeFullName "^abc$" 50; rule InfoTypeIPAddress "^a" 50;
   rule InfoTypeMACAddress "c$" 50; rule InfoTypePostalCode "^ab" 50;
   rule InfoTypeNationalID "bc$" 50; rule InfoTypeBankAccount "a." 50;
   rule InfoTypeDriverLicense ".c" 50].

(** C3 as stated fails: with thirteen matches, two of them of the highest
    score, the result carries the type of the second one in the order of
    the snapshot, and [matchedPatterns] does not keep the order of the
    snapshot among equal scores. *)
Lemma C3_thirteen_matches :
  text <$> matches_of (patterns (load thirteen_rules)) "abc"
  = ["a"; "b"; "c"; "abc"; "ab"; "bc"; "^abc$"; "^a"; "c$"; "^ab"; "bc$"; "a."; ".c"]
  ∧ (λ m, (text m, InformationType_ (pattern m)))
      <$> filter (λ m, is_top (matches_of (patterns (load thirteen_rules)) "abc") m = true)
            (matches_of (patterns (load thirteen_rules)) "abc")
    = [("abc", InfoTypeUsername); ("^abc$", InfoTypeFullName)]
  ∧ InformationType (Classify (load thirteen_rules) "abc") = InfoTypeFullName
  ∧ MatchedPatterns (Classify (load thirteen_rules) "abc")
    = ["^abc$"; "abc"; "b"; "c"; "ab"; "bc"; "a"; "^a"; "c$"; "^ab"; "bc$"; "a."; ".c"].
Proof. vm_compute. repeat split; reflexivity. Qed.

(** ** C5 *)

Definition rules_with_bad : list ClassificationPattern :=
  [rule InfoTypeSSN "ssn" 90; rule InfoTypeAccountNumber "*id" 50;
   rule InfoTypeEmailAddress "email" 80].

Lemma C5_failed_reload_witness :
  (∃ rule, rule ∈ rules_with_bad ∧ ∃ e, GoRegexp.Compile (cp_Pattern rule) = inr e)
  ∧ ∃ msg,
      ClassificationService.refreshClassifier GoRegexp.Compile
        {| ClassificationService.matcher := Some one_rule |} rules_with_bad
      = ({| ClassificationService.matcher := Some one_rule |}, Some msg)
      ∧ ∀ columnName,
          ClassificationService.ClassifyColumn TrimSpace_ascii ToLower_ascii
            (ClassificationService.refreshClassifier GoRegexp.Compile
               {| ClassificationService.matcher := Some one_rule |} rules_with_bad).1
            columnName
          = ClassificationService.ClassifyColumn TrimSpace_ascii ToLower_ascii
              {| ClassificationService.matcher := Some one_rule |} columnName.
Proof.
  assert (H : ∃ rule, rule ∈ rules_with_bad
                ∧ ∃ e, GoRegexp.Compile (cp_Pattern rule) = inr e).
  { exists (rule InfoTypeAccountNumber "*id" 50). split.
    - right. left.
    - eexists. vm_compute. reflexivity. }
  split; [exact H|].
  destruct (C5_failed_reload_keeps_snapshot GoRegexp.Compile
              TrimSpace_ascii ToLower_ascii one_rule
              {| ClassificationService.matcher := Some one_rule |} rules_with_bad H)
    as (pre & bad & post & e & _ & _ & _ & _ & HR & HC).
  eexists. split; [exact HR|exact HC].
Defined.

Example failed_reload_message :
  (SetPatterns GoRegexp.Compile one_rule rules_with_bad).2
  = Some ("failed to compile regex pattern '*id': " ++
          "error parsing regexp: missing argument to repetition operator: `*`").
Proof. vm_compute. reflexivity. Qed.

(** ** C6 *)

Definition three_rules : list ClassificationPattern :=
  [rule InfoTypeAccountNumber "id" 50; rule InfoTypeSSN "ssn" 90;
   rule InfoTypeEmailAddress "email" 50].

Lemma C6_snapshot_by_priority_witness :
  (∀ rule, rule ∈ three_rules → ∃ re, GoRegexp.Compile (cp_Pattern rule) = inl re)
  ∧ ∃ snapshot,
      SetPatterns GoRegexp.Compile one_rule three_rules
        = ({| patterns := snapshot |}, None)
      ∧ StronglySorted (λ x y, (Priority y ≤ Priority x)%Z) snapshot.
Proof.
  assert (H : ∀ rule, rule ∈ three_rules →
                ∃ re, GoRegexp.Compile (cp_Pattern rule) = inl re).
  { intros r Hr. unfold three_rules in Hr.
    repeat (apply elem_of_cons in Hr as [->|Hr]); try (by apply elem_of_nil in Hr);
      eexists; vm_compute; reflexivity. }
  split; [exact H|].
  destruct (C6_snapshot_by_priority GoRegexp.Compile one_rule three_rules H)
    as (compiled & snapshot & HS & _ & _ & Hsorted & _).
  exists snapshot. split; [exact HS|exact Hsorted].
Defined.

Example three_rules_snapshot :
  Pattern_ <$> patterns (load three_rules) = ["ssn"; "id"; "email"].
Proof. vm_compute. reflexivity. Qed.

(** twelve rules of priority 50 and a last one of priority 60 *)
Definition thirteen_priorities : list ClassificationPattern :=
  [rule InfoTypeFirstName "a" 50; rule InfoTypeLastName "b" 50;
   rule InfoTypeAddress "c" 50; rule InfoTypeUsername "d" 50;
   rule InfoTypeEmailAddress "e" 50; rule InfoTypePhoneNumber "f" 50;
   rule InfoTypeFullName "g" 50; rule InfoTypeIPAddress "h" 50;
   rule InfoTypeMACAddress "i" 50; rule InfoTypePostalCode "j" 50;
   rule InfoTypeNationalID "k" 50; rule InfoTypeBankAccount "l" 50;
   rule InfoTypeSSN "m" 60].

(** C6 as stated fails: with thirteen rules, the rules of priority 50 do
    not keep the order of the input in the snapshot. *)
Lemma C6_thirteen_rules :
  (SetPatterns GoRegexp.Compile {| patterns := [] |} thirteen_priorities).2 = None
  ∧ Pattern_ <$> patterns (load thirteen_priorities)
    = ["m"; "g"; "c"; "d"; "e"; "f"; "a"; "h"; "i"; "j"; "k"; "l"; "b"]
  ∧ Pattern_ <$> filter (λ p, Priority p = 50%Z) (patterns (load thirteen_priorities))
    ≠ cp_Pattern <$> filter (λ r, cp_Priority r = 50%Z) thirteen_priorities.
Proof.
  split; [vm_compute; reflexivity|]. split; [vm_compute; reflexivity|].
  vm_compute. discriminate.
Qed.

(** ** C9 *)

Lemma C9_na_iff_nothing_matched_witness :
  (∀ p, p ∈ patterns one_rule → InformationType_ p ≠ InfoTypeNA)
  ∧ (InformationType (Classify one_rule "created_at") = InfoTypeNA
     ↔ MatchedPatterns (Classify one_rule "created_at") = []).
Proof.
  assert (H : ∀ p, p ∈ patterns one_rule → InformationType_ p ≠ InfoTypeNA).
  { intros p Hp. apply list_elem_of_singleton in Hp as ->. discriminate. }
  split; [exact H|].
  exact (proj1 (proj2 (C9_na_iff_nothing_matched TrimSpace_ascii ToLower_ascii
                         one_rule "created_at")) H).
Defined.

(** C9 as stated fails: a rule may carry the type NA, and a name it
    matches is reported NA with a matched pattern. *)
Lemma C9_rule_of_type_NA :
  InformationType (Classify {| patterns := [compiled_rule InfoTypeNA "tmp" 10] |} "tmp_col")
    = InfoTypeNA
  ∧ MatchedPatterns (Classify {| patterns := [compiled_rule InfoTypeNA "tmp" 10] |} "tmp_col")
    = ["tmp"].
Proof. vm_compute. split; reflexivity. Qed.

End ClassifierFacts.

(* ===================================================================== *)
(** * The scan service: what the specification says of it *)

Module ScanFacts.

Import Float64 domain ScanService.
Local Open Scope string_scope.
Local Open Scope Z_scope.

(** ** The risk level, as the specification words it *)

(** the sum of the counts of the information types of a partition *)
Definition count_of (counts : gmap string Z) (types : list string) : Z :=
  foldr (λ t sum, default 0 (counts !! t) + sum) 0 types.

(** [highCount] and [mediumCount] are Go [int]s *)
Definition riskLevel (counts : gmap string Z) (totalColumns : Z) : RiskLevel :=
  if totalColumns =? 0 then RiskLevelLow
  else
    let highCount := Int.wrap (count_of counts highRiskTypes) in
    let medCount := Int.wrap (count_of counts mediumRiskTypes) in
    let pct :=
      mul (div (of_int (Int.add highCount medCount)) (of_int totalColumns))
        (of_int 100) in
    if (0 <? highCount) && gtb pct (of_int 20) then RiskLevelCritical
    else if (0 <? highCount) || gtb pct (of_int 15) then RiskLevelHigh
    else if (0 <? medCount) || gtb pct (of_int 5) then RiskLevelMedium
    else RiskLevelLow.

(** the sum of the counts of the entries whose type is in [types] *)
Definition entry_sum (types : list string) (entries : list (string * Z)) : Z :=
  foldr (λ e sum, (if bool_decide (e.1 ∈ types) then e.2 else 0) + sum) 0 entries.

(** the result trees that the table stores, row by row *)
Definition trees (t : gmap N ScanResult) : gmap N (list SchemaResult * ScanSummary) :=
  (λ r, (Schemas r, Summary r)) <$> t.

(** what [UpdateStatus] makes of a row *)
Definition with_status (status : ScanStatus) (completedAt : option Time)
    (errorMessage : string) (r : ScanResult) : ScanResult :=
  {| ID := ID r; DatabaseID := DatabaseID r; StartedAt := StartedAt r;
     CompletedAt := completedAt; Status := status; ErrorMessage := errorMessage;
     Schemas := Schemas r; Summary := Summary r |}.

(** the next [n] statements are answered by the metadata database *)
Definition answered (n : nat) (w : World) : Prop :=
  ∀ i e, (i < n)%nat → db_faults w !! i ≠ Some (Some e).

Lemma wrap_add_l a b : Int.wrap (Int.wrap a + b) = Int.wrap (a + b).
Proof.
  unfold Int.wrap. f_equal.
  replace ((a + 2 ^ 63) mod 2 ^ 64 - 2 ^ 63 + b + 2 ^ 63)
    with ((a + 2 ^ 63) mod 2 ^ 64 + b) by lia.
  rewrite Zplus_mod_idemp_l. f_equal. lia.
Qed.

Lemma wrap_idem a : Int.wrap (Int.wrap a) = Int.wrap a.
Proof.
  transitivity (Int.wrap (Int.wrap a + 0)); [f_equal; lia|].
  rewrite wrap_add_l. f_equal. lia.
Qed.

Lemma wrap_small z : - 2 ^ 63 ≤ z < 2 ^ 63 → Int.wrap z = z.
Proof. intros Hz. unfold Int.wrap. rewrite Z.mod_small; lia. Qed.

Lemma calculateRiskLevel_types_spec types infoType count riskCount :
  calculateRiskLevel_types types infoType count riskCount
  = if bool_decide (infoType ∈ types) then Int.add riskCount count else riskCount.
Proof.
  induction types as [|t types IH]; simpl; [done|].
  destruct (String.eqb_spec infoType t) as [->|Hne].
  - rewrite bool_decide_eq_true_2; [done|by left].
  - rewrite IH.
    rewrite (bool_decide_ext (infoType ∈ t :: types) (infoType ∈ types)); [done|].
    rewrite elem_of_cons. split; [by intros [?|?]|by right].
Qed.

Lemma calculateRiskLevel_range_spec entries high medium :
  Int.wrap high = high → Int.wrap medium = medium →
  calculateRiskLevel_range entries high medium
  = (Int.wrap (high + entry_sum highRiskTypes entries),
     Int.wrap (medium + entry_sum mediumRiskTypes entries)).
Proof.
  revert high medium. induction entries as [|[k v] entries IH]; intros h m Hh Hm.
  { simpl. by rewrite !Z.add_0_r, Hh, Hm. }
  cbn [calculateRiskLevel_range entry_sum foldr fst snd].
  rewrite !calculateRiskLevel_types_spec.
  fold (entry_sum highRiskTypes entries). fold (entry_sum mediumRiskTypes entries).
  rewrite IH.
  - f_equal.
    + destruct (bool_decide (k ∈ highRiskTypes)).
      * unfold Int.add. rewrite wrap_add_l. f_equal. lia.
      * f_equal.
    + destruct (bool_decide (k ∈ mediumRiskTypes)).
      * unfold Int.add. rewrite wrap_add_l. f_equal. lia.
      * f_equal.
  - destruct (bool_decide (k ∈ highRiskTypes)); [apply wrap_idem|done].
  - destruct (bool_decide (k ∈ mediumRiskTypes)); [apply wrap_idem|done].
Qed.

Lemma entry_sum_perm types entries entries' :
  entries ≡ₚ entries' → entry_sum types entries = entry_sum types entries'.
Proof.
  unfold entry_sum. induction 1 as [|e l l' _ IH|e1 e2 l|l1 l2 l3 _ IH1 _ IH2];
    simpl; lia.
Qed.

Lemma count_of_insert_notin (counts : gmap string Z) k v types :
  k ∉ types → count_of (<[k:=v]> counts) types = count_of counts types.
Proof.
  induction types as [|t types IH]; intros Hk; simpl; [done|].
  apply not_elem_of_cons in Hk as [Hkt Hk].
  rewrite lookup_insert_ne by done. by rewrite IH.
Qed.

Lemma count_of_insert (counts : gmap string Z) k v types :
  NoDup types → counts !! k = None →
  count_of (<[k:=v]> counts) types
  = (if bool_decide (k ∈ types) then v else 0) + count_of counts types.
Proof.
  intros Hnd Hk. induction types as [|t types IH]; cbn [count_of foldr].
  { by rewrite bool_decide_eq_false_2 by apply not_elem_of_nil. }
  fold (count_of (<[k:=v]> counts) types). fold (count_of counts types).
  apply NoDup_cons in Hnd as [Ht Hnd].
  destruct (decide (t = k)) as [->|Hne].
  - rewrite lookup_insert_eq, Hk. simpl.
    rewrite count_of_insert_notin by done.
    rewrite bool_decide_eq_true_2; [lia|by left].
  - rewrite lookup_insert_ne by done. rewrite IH by done.
    rewrite (bool_decide_ext (k ∈ t :: types) (k ∈ types)); [lia|].
    rewrite elem_of_cons. split; [by intros [?|?]|by right].
Qed.

Lemma count_of_empty types : count_of ∅ types = 0.
Proof. induction types as [|t types IH]; simpl; [done|]. by rewrite lookup_empty, IH. Qed.

Lemma entry_sum_map_to_list (counts : gmap string Z) types :
  NoDup types → entry_sum types (map_to_list counts) = count_of counts types.
Proof.
  intros Hnd. induction counts as [|k v counts Hk _ IH] using map_first_key_ind.
  { by rewrite map_to_list_empty, count_of_empty. }
  rewrite (entry_sum_perm _ _ _ (map_to_list_insert counts k v Hk)).
  rewrite count_of_insert by done. simpl. by rewrite IH.
Qed.

Lemma NoDup_highRiskTypes : NoDup highRiskTypes.
Proof. apply (bool_decide_unpack _). vm_compute. exact I. Qed.

Lemma NoDup_mediumRiskTypes : NoDup mediumRiskTypes.
Proof. apply (bool_decide_unpack _). vm_compute. exact I. Qed.

(** ** C4: the risk level *)

(** C4. For every map of counts and every [totalColumns], in whatever
    order the map is ranged over, [calculateRiskLevel] returns Low when
    [totalColumns] is 0, and otherwise, with [highCount] and [medCount] the
    sums of the counts of the high-risk and of the medium-risk information
    types and [pct = (highCount+medCount)/totalColumns*100] in [float64]:
    Critical if [highCount > 0] and [pct > 20]; else High if
    [highCount > 0] or [pct > 15]; else Medium if [medCount > 0] or
    [pct > 5]; else Low. *)
Theorem C4_risk_level (infoTypeCounts : gmap string Z) (totalColumns : Z)
    (entries : list (string * Z)) :
  entries ≡ₚ map_to_list infoTypeCounts →
  calculateRiskLevel_on entries totalColumns = riskLevel infoTypeCounts totalColumns.
Proof.
  intros Hperm. unfold calculateRiskLevel_on, riskLevel.
  destruct (totalColumns =? 0); [done|].
  rewrite calculateRiskLevel_range_spec by done.
  rewrite !(entry_sum_perm _ _ _ Hperm).
  rewrite (entry_sum_map_to_list _ _ NoDup_highRiskTypes).
  rewrite (entry_sum_map_to_list _ _ NoDup_mediumRiskTypes).
  done.
Qed.

(** the examples of the specification *)
Example risk_no_columns : calculateRiskLevel ∅ 0 = RiskLevelLow.
Proof. reflexivity. Qed.

Example risk_three_high_of_ten :
  calculateRiskLevel_on [(InfoTypeSSN, 3)] 10 = RiskLevelCritical.
Proof. vm_compute. reflexivity. Qed.

Example risk_two_medium_of_twenty :
  calculateRiskLevel_on [(InfoTypeEmailAddress, 2)] 20 = RiskLevelMedium.
Proof. vm_compute. reflexivity. Qed.

(** one column in five is [pct = 20], which is not above 20 *)
Example risk_one_high_of_five :
  calculateRiskLevel_on [(InfoTypeSSN, 1)] 5 = RiskLevelHigh.
Proof. vm_compute. reflexivity. Qed.


(** ** The statements on the table of scan results *)

Lemma answered_head w e fs : answered 1 w → db_faults w ≠ Some e :: fs.
Proof. intros H Heq. apply (H 0%nat e); [lia|]. by rewrite Heq. Qed.

Lemma answered_tail w f fs : answered 2 w → db_faults w = f :: fs → ∀ e fs', fs ≠ Some e :: fs'.
Proof.
  intros H Heq e fs' ->. apply (H 1%nat e); [lia|]. by rewrite Heq.
Qed.

Lemma answered_le n m w : (n ≤ m)%nat → answered m w → answered n w.
Proof. intros Hle H i e Hi. apply H. lia. Qed.

Lemma trees_insert t id r r' :
  t !! id = Some r → Schemas r' = Schemas r → Summary r' = Summary r →
  trees (<[id := r']> t) = trees t.
Proof.
  intros Hr HS HM. unfold trees. rewrite fmap_insert, HS, HM.
  apply insert_id. by rewrite lookup_fmap, Hr.
Qed.

Lemma trees_is_Some t t' id : trees t' = trees t → is_Some (t !! id) → is_Some (t' !! id).
Proof.
  intros Heq Hs. apply (f_equal (λ m, m !! id)) in Heq.
  unfold trees in Heq. rewrite !lookup_fmap in Heq.
  destruct Hs as [r Hr]. rewrite Hr in Heq. by destruct (t' !! id).
Qed.

(** whatever the store answers, [UpdateStatus] leaves the trees and the
    sessions alone *)
Lemma scanRepo_UpdateStatus_frame id status msg w :
  trees (scan_results (scanRepo_UpdateStatus id status msg w).1) = trees (scan_results w)
  ∧ open_sessions (scanRepo_UpdateStatus id status msg w).1 = open_sessions w.
Proof.
  unfold scanRepo_UpdateStatus, statement.
  destruct (terminal status); simpl;
    destruct (db_faults w) as [|[e|] fs]; simpl;
    destruct (scan_results w !! id) as [r|] eqn:Hr; simpl;
    try destruct (rowsAffected _ _); simpl; split; try done;
    by eapply trees_insert.
Qed.

(** a failed [UpdateStatus] has written nothing *)
Lemma scanRepo_UpdateStatus_failed id status msg w w' e :
  scanRepo_UpdateStatus id status msg w = (w', inr e) →
  scan_results w' = scan_results w.
Proof.
  unfold scanRepo_UpdateStatus, statement.
  destruct (terminal status); simpl;
    destruct (db_faults w) as [|[e'|] fs]; simpl;
    destruct (scan_results w !! id) as [r|] eqn:Hr; simpl;
    try destruct (rowsAffected _ _); simpl; intros [= <- <-]; done.
Qed.

(** a successful [UpdateStatus] has rewritten the row *)
Lemma scanRepo_UpdateStatus_done id status msg w :
  (scanRepo_UpdateStatus id status msg w).2 = inl () →
  ∃ r, scan_results w !! id = Some r
     ∧ scan_results (scanRepo_UpdateStatus id status msg w).1
       = <[id := with_status status
                   (if terminal status then Some (clock w) else None) msg r]>
           (scan_results w).
Proof.
  unfold scanRepo_UpdateStatus, statement.
  destruct (terminal status); simpl;
    destruct (db_faults w) as [|[e'|] fs]; simpl;
    destruct (scan_results w !! id) as [r|] eqn:Hr; simpl;
    try destruct (rowsAffected _ _); simpl; try done;
    intros _; by exists r.
Qed.

(** a write of another status changes the row *)
Lemma rowsAffected_status w r status t msg :
  Status r ≠ status → rowsAffected w (same_status r status t msg) = true.
Proof.
  intros Hne. unfold rowsAffected, same_status.
  rewrite bool_decide_eq_false_2 by (by intros [? _]). apply orb_true_r.
Qed.

(** [UpdateStatus] succeeds when the store answers and the row is there
    with another status, or with any status if the connection counts the
    rows found *)
Lemma scanRepo_UpdateStatus_answered id status msg w r :
  scan_results w !! id = Some r → answered 1 w →
  clientFoundRows w = true ∨ Status r ≠ status →
  (scanRepo_UpdateStatus id status msg w).2 = inl ().
Proof.
  intros Hr Hans Hrow. unfold scanRepo_UpdateStatus, statement.
  assert (Haff : ∀ w' t, clientFoundRows w' = clientFoundRows w →
                         rowsAffected w' (same_status r status t msg) = true).
  { intros w' t Hw'. unfold rowsAffected, same_status. rewrite Hw'.
    destruct Hrow as [->|Hne]; [done|].
    rewrite bool_decide_eq_false_2 by (by intros [? _]). by rewrite orb_true_r. }
  destruct (terminal status); simpl;
    destruct (db_faults w) as [|[e'|] fs] eqn:Hf; simpl; rewrite ?Hr; simpl;
    rewrite ?Haff by done; simpl; try done;
    by destruct (answered_head w e' fs Hans).
Qed.

Lemma scanRepo_Update_sessions r w :
  open_sessions (scanRepo_Update r w).1 = open_sessions w.
Proof.
  unfold scanRepo_Update, statement.
  destruct (json_unsupported _); [done|].
  destruct (db_faults w) as [|[e'|] fs]; simpl;
    destruct (scan_results w !! ID r); simpl; try destruct (rowsAffected _ _); done.
Qed.

Lemma scanRepo_Update_failed r w w' e :
  scanRepo_Update r w = (w', inr e) → scan_results w' = scan_results w.
Proof.
  unfold scanRepo_Update, statement.
  destruct (json_unsupported _); [by intros [= <- <-]|].
  destruct (db_faults w) as [|[e'|] fs]; simpl;
    destruct (scan_results w !! ID r); simpl; try destruct (rowsAffected _ _);
    simpl; intros [= <- <-]; done.
Qed.

Lemma dbConnRepo_UpdateLastScannedAt_frame id t w :
  scan_results (dbConnRepo_UpdateLastScannedAt id t w).1 = scan_results w
  ∧ open_sessions (dbConnRepo_UpdateLastScannedAt id t w).1 = open_sessions w.
Proof.
  unfold dbConnRepo_UpdateLastScannedAt, statement. simpl.
  destruct (db_faults w) as [|[e'|] fs]; simpl;
    destruct (database_connections w !! id); simpl; try destruct (rowsAffected _ _);
    done.
Qed.

(** ** C10: the default limit of the scan history *)

(** C10. For every [databaseID], [GetScanHistory] with [limit <= 0] asks
    the result store for 10 rows, and with [limit > 0] asks for [limit]
    rows. *)
Theorem C10_history_limit (databaseID : UUID) (limit : Z) (w : World) :
  (limit ≤ 0 →
   GetScanHistory databaseID limit w
   = wrapErr "failed to get scan history" (scanRepo_GetByDatabaseID databaseID 10) w)
  ∧ (0 < limit →
     GetScanHistory databaseID limit w
     = wrapErr "failed to get scan history" (scanRepo_GetByDatabaseID databaseID limit) w).
Proof.
  unfold GetScanHistory. split; intros Hl.
  - by rewrite (proj2 (Z.leb_le limit 0) Hl).
  - by rewrite (proj2 (Z.leb_gt limit 0) Hl).
Qed.

(** ** C7: cancelling a scan *)

(** C7. For every stored scan whose status is neither Pending nor Running,
    [CancelScan] writes nothing, and, the read of the row being answered,
    returns the error "scan cannot be cancelled, current status: ..."; for
    every stored scan whose status is Pending or Running, the read and the
    write being answered, [CancelScan] returns no error and the row has
    status Cancelled and the message "Cancelled by user". *)
Theorem C7_cancel_scan (scanID : UUID) (r : ScanResult) (w : World) :
  scan_results w !! scanID = Some r →
  (Status r ≠ ScanStatusPending → Status r ≠ ScanStatusRunning →
   scan_results (CancelScan scanID w).1 = scan_results w
   ∧ (answered 1 w →
      (CancelScan scanID w).2
      = inr ("scan cannot be cancelled, current status: " ++ Status r)))
  ∧ (Status r = ScanStatusPending ∨ Status r = ScanStatusRunning →
     answered 2 w →
     (CancelScan scanID w).2 = inl ()
     ∧ scan_results (CancelScan scanID w).1
       = <[scanID := with_status ScanStatusCancelled (Some (clock w))
                       "Cancelled by user" r]> (scan_results w)).
Proof.
  intros Hr. split.
  - intros Hp Hn.
    assert (Ht : negb (String.eqb (Status r) ScanStatusPending)
                 && negb (String.eqb (Status r) ScanStatusRunning) = true).
    { destruct (String.eqb_spec (Status r) ScanStatusPending); [done|].
      by destruct (String.eqb_spec (Status r) ScanStatusRunning). }
    unfold CancelScan, mbind, M_bind, wrapErr, scanRepo_GetByID, statement, fail.
    destruct (db_faults w) as [|[e|] fs] eqn:Hf; simpl; rewrite ?Hr, ?Ht; simpl.
    + done.
    + split; [done|]. intros Hans. by destruct (answered_head w e fs Hans).
    + done.
  - intros Hc Hans.
    assert (Ht : negb (String.eqb (Status r) ScanStatusPending)
                 && negb (String.eqb (Status r) ScanStatusRunning) = false).
    { destruct Hc as [-> | ->]; reflexivity. }
    assert (Haff : ∀ w' t msg,
               rowsAffected w' (same_status r ScanStatusCancelled t msg) = true).
    { intros w' t msg. apply rowsAffected_status. by destruct Hc as [-> | ->]. }
    unfold CancelScan, mbind, M_bind, wrapErr, scanRepo_GetByID, statement.
    destruct (db_faults w) as [|[e|] fs] eqn:Hf; simpl; rewrite ?Hr, ?Ht; simpl.
    + unfold scanRepo_UpdateStatus, statement. simpl. rewrite Hf, Hr, Haff. done.
    + by destruct (answered_head w e fs (answered_le 1 2 w ltac:(lia) Hans)).
    + unfold scanRepo_UpdateStatus, statement. simpl.
      destruct fs as [|[e|] fs']; simpl; rewrite ?Hr, ?Haff; try done.
      by destruct (answered_tail w None (Some e :: fs') Hans Hf e fs').
Qed.


(** ** The body of a scan *)

Section Scan.
Variable sql_Open : string → Z → string → string → option string.
Variable server_Ping : string → Z → string → string → option string.
Variable server_schemas : list string + string.
Variable server_tables : string → list string + string.
Variable server_columns : string → string → list MySQLColumnInfo + string.
Variable Decrypt : string → string + string.
Variable ClassifyColumn : string → InformationType * float64 * list string.

Local Abbreviation performScan_connected :=
  (performScan_connected server_schemas server_tables server_columns ClassifyColumn).
Local Abbreviation performScan_inspect :=
  (performScan_inspect sql_Open server_Ping server_schemas server_tables server_columns
     ClassifyColumn).
Local Abbreviation performScan :=
  (performScan sql_Open server_Ping server_schemas server_tables server_columns Decrypt
     ClassifyColumn).
Local Abbreviation StartScan_go :=
  (StartScan_go sql_Open server_Ping server_schemas server_tables server_columns Decrypt
     ClassifyColumn).

Lemma performScan_connected_sessions scanResult conn startTime inspector w :
  open_sessions (performScan_connected scanResult conn startTime inspector w).1
  = open_sessions w.
Proof.
  unfold ScanService.performScan_connected, mbind, M_bind, wrapErr, pure, total, time_Now.
  destruct (GetSchemas server_schemas inspector) as [schemas|e]; simpl; [|done].
  destruct (performScan_schemas _ _ _ _ _ _ _) as [[schemaResults c]|e]; simpl; [|done].
  match goal with |- context [scanRepo_Update ?r ?w'] =>
    pose proof (scanRepo_Update_sessions r w') as Hs;
    destruct (scanRepo_Update r w') as [w2 [[]|e]] end; simpl in *; [|done].
  by rewrite (proj2 (dbConnRepo_UpdateLastScannedAt_frame _ _ _)).
Qed.

Lemma performScan_connected_failed scanResult conn startTime inspector w w1 err :
  performScan_connected scanResult conn startTime inspector w = (w1, inr err) →
  scan_results w1 = scan_results w.
Proof.
  unfold ScanService.performScan_connected, mbind, M_bind, wrapErr, pure, total, time_Now.
  destruct (GetSchemas server_schemas inspector) as [schemas|e]; simpl;
    [|by intros [= <- <-]].
  destruct (performScan_schemas _ _ _ _ _ _ _) as [[schemaResults c]|e]; simpl;
    [|by intros [= <- <-]].
  match goal with |- context [scanRepo_Update ?r ?w'] =>
    pose proof (scanRepo_Update_failed r w') as Hf;
    destruct (scanRepo_Update r w') as [w2 [[]|e]] end; simpl in *; [done|].
  intros [= <- <-]. by rewrite (Hf _ _ eq_refl).
Qed.

Lemma performScan_sessions scanResult conn w :
  open_sessions (performScan scanResult conn w).1 = open_sessions w.
Proof.
  unfold ScanService.performScan, mbind, M_bind, wrapErr, pure, total, time_Now.
  simpl.
  match goal with |- context [scanRepo_UpdateStatus ?i ?s ?m ?w'] =>
    pose proof (proj2 (scanRepo_UpdateStatus_frame i s m w')) as Hs;
    destruct (scanRepo_UpdateStatus i s m w') as [w2 [[]|e]] end; simpl in *; [|done].
  destruct (Decrypt _) as [password|e]; simpl; [|done].
  unfold ScanService.performScan_inspect, Connect, Close, NewMySQLInspector.
  destruct (sql_Open _ _ _ _) as [e|]; simpl; [done|].
  destruct (server_Ping _ _ _ _) as [e|]; simpl; [done|].
  match goal with |- context [performScan_connected ?r ?c ?t ?i ?w'] =>
    pose proof (performScan_connected_sessions r c t i w') as Hc;
    destruct (performScan_connected r c t i w') as [w3 res] end; simpl in *.
  rewrite Hc, <- Hs. lia.
Qed.

Lemma performScan_failed scanResult conn w w1 err :
  performScan scanResult conn w = (w1, inr err) →
  trees (scan_results w1) = trees (scan_results w).
Proof.
  unfold ScanService.performScan, mbind, M_bind, wrapErr, pure, total, time_Now.
  simpl.
  match goal with |- context [scanRepo_UpdateStatus ?i ?s ?m ?w'] =>
    pose proof (proj1 (scanRepo_UpdateStatus_frame i s m w')) as Hs;
    destruct (scanRepo_UpdateStatus i s m w') as [w2 [[]|e]] end; simpl in *;
    [|by intros [= <- <-]].
  destruct (Decrypt _) as [password|e]; simpl; [|by intros [= <- <-]].
  unfold ScanService.performScan_inspect, Connect, Close, NewMySQLInspector.
  destruct (sql_Open _ _ _ _) as [e|]; simpl; [by intros [= <- <-]|].
  destruct (server_Ping _ _ _ _) as [e|]; simpl; [by intros [= <- <-]|].
  match goal with |- context [performScan_connected ?r ?c ?t ?i ?w'] =>
    pose proof (performScan_connected_failed r c t i w') as Hc;
    destruct (performScan_connected r c t i w') as [w3 res] end; simpl in *.
  intros [= <- ->]. simpl. by rewrite (Hc _ _ eq_refl).
Qed.

(** what a failed body leaves in the table: nothing, if its first write
    (of the status Running) failed, and that write alone otherwise *)
Lemma performScan_failed_rows scanResult conn w w1 err :
  performScan scanResult conn w = (w1, inr err) →
  scan_results w1 = scan_results w
  ∨ ∃ r0, scan_results w !! ID scanResult = Some r0
        ∧ scan_results w1
          = <[ID scanResult := with_status ScanStatusRunning None "" r0]> (scan_results w).
Proof.
  unfold ScanService.performScan, mbind, M_bind, wrapErr, pure, total, time_Now.
  simpl.
  match goal with |- context [scanRepo_UpdateStatus ?i ?s ?m ?w'] =>
    pose proof (scanRepo_UpdateStatus_failed i s m w') as Hf;
    pose proof (scanRepo_UpdateStatus_done i s m w') as Hd;
    destruct (scanRepo_UpdateStatus i s m w') as [w2 [[]|e]] end; simpl in *.
  2: { intros [= <- <-]. left. exact (Hf _ _ eq_refl). }
  destruct (Hd eq_refl) as (r0 & Hr0 & Hw2). clear Hf Hd.
  assert (Hright : ∀ w3, scan_results w3 = scan_results w2 →
            scan_results w3 = scan_results w
            ∨ ∃ r0, scan_results w !! ID scanResult = Some r0
                  ∧ scan_results w3
                    = <[ID scanResult := with_status ScanStatusRunning None "" r0]>
                        (scan_results w)).
  { intros w3 ->. right. by exists r0. }
  destruct (Decrypt _) as [password|e]; simpl; [|intros [= <- <-]; by apply Hright].
  unfold ScanService.performScan_inspect, Connect, Close, NewMySQLInspector.
  destruct (sql_Open _ _ _ _) as [e|]; simpl; [intros [= <- <-]; by apply Hright|].
  destruct (server_Ping _ _ _ _) as [e|]; simpl; [intros [= <- <-]; by apply Hright|].
  match goal with |- context [performScan_connected ?r ?c ?t ?i ?w'] =>
    pose proof (performScan_connected_failed r c t i w') as Hc;
    destruct (performScan_connected r c t i w') as [w3 res] end; simpl in *.
  intros [= <- ->]. apply Hright. simpl. by rewrite (Hc _ _ eq_refl).
Qed.

(** ** C8: an error in the body of a scan *)

(** C8. On every exit path of the body of a scan the inspector's session
    is closed, and [StartScan] returns the identifier of the scan whenever
    it has started the body. For every error [err] that the body returns,
    the goroutine sends one write of the status Failed with the text of
    [err] and drops the outcome of that write; the result trees that the
    table stores are those from before the scan; if the write succeeds the
    row of the scan has status Failed and the message [err]; the write
    succeeds when the store answers it and the scan was stored with a
    status other than Failed (with any status, if the connection counts
    the rows found); if the write fails the table is as the body left it;
    and the body left the table as it found it, if its own first write
    failed, and with the row of the scan set to Running otherwise. *)
Theorem C8_failed_scan (scanResult : ScanResult) (conn : DatabaseConnection) (w : World) :
  open_sessions (performScan scanResult conn w).1 = open_sessions w
  ∧ open_sessions (StartScan_go scanResult conn w) = open_sessions w
  ∧ (∀ databaseID w0 w' res,
       StartScan databaseID w0 = (w', res, Some (scanResult, conn)) →
       res = inl (ID scanResult))
  ∧ ∀ w1 err,
      performScan scanResult conn w = (w1, inr err) →
      let write := scanRepo_UpdateStatus (ID scanResult) ScanStatusFailed err w1 in
      StartScan_go scanResult conn w = write.1
      ∧ trees (scan_results (StartScan_go scanResult conn w)) = trees (scan_results w)
      ∧ (write.2 = inl () →
         ∃ r, scan_results (StartScan_go scanResult conn w) !! ID scanResult = Some r
            ∧ Status r = ScanStatusFailed ∧ ErrorMessage r = err)
      ∧ (∀ r, scan_results w !! ID scanResult = Some r →
              clientFoundRows w1 = true ∨ Status r ≠ ScanStatusFailed →
              answered 1 w1 → write.2 = inl ())
      ∧ (∀ e, write.2 = inr e →
              scan_results (StartScan_go scanResult conn w) = scan_results w1)
      ∧ (scan_results w1 = scan_results w
         ∨ ∃ r0, scan_results w !! ID scanResult = Some r0
               ∧ scan_results w1
                 = <[ID scanResult := with_status ScanStatusRunning None "" r0]>
                     (scan_results w)).
Proof.
  split; [apply performScan_sessions|]. split.
  { unfold ScanService.StartScan_go.
    pose proof (performScan_sessions scanResult conn w) as Hs.
    destruct (performScan scanResult conn w) as [w1 [[]|err]]; simpl in *; [done|].
    by rewrite (proj2 (scanRepo_UpdateStatus_frame _ _ _ _)). }
  split.
  { intros databaseID w0 w' res. unfold ScanService.StartScan.
    destruct (wrapErr _ (dbConnRepo_GetByID databaseID) w0) as [wa [c|e]]; [|done].
    destruct (uuid_New wa) as [wb scanID]. destruct (time_Now wb) as [wc now].
    destruct (wrapErr _ (scanRepo_Create _) wc) as [wd [[]|e]]; [|done].
    by intros [= <- <- <- <-]. }
  intros w1 err Hrun write.
  assert (Hgo : StartScan_go scanResult conn w = write.1).
  { unfold ScanService.StartScan_go. by rewrite Hrun. }
  pose proof (performScan_failed_rows _ _ _ _ _ Hrun) as Hrows.
  rewrite Hgo. subst write. split; [done|]. split; [|split; [|split; [|split]]].
  - rewrite (proj1 (scanRepo_UpdateStatus_frame _ _ _ _)).
    exact (performScan_failed _ _ _ _ _ Hrun).
  - intros Hok. apply scanRepo_UpdateStatus_done in Hok as (r & Hr & ->).
    eexists. rewrite lookup_insert_eq. done.
  - intros r Hr Hrow Hans.
    destruct Hrows as [Hsame|(r0 & Hr0 & Hset)].
    + apply scanRepo_UpdateStatus_answered with r; [by rewrite Hsame|done|done].
    + apply scanRepo_UpdateStatus_answered
        with (with_status ScanStatusRunning None "" r0);
        [by rewrite Hset, lookup_insert_eq|done|by right].
  - intros e He.
    destruct (scanRepo_UpdateStatus _ _ _ w1) as [w2 res] eqn:Hw. simpl in *. subst res.
    exact (scanRepo_UpdateStatus_failed _ _ _ _ _ _ Hw).
  - exact Hrows.
Qed.

End Scan.

(** ** A store, a server and a scan to run the service on *)

Definition pending_scan : ScanResult :=
  {| ID := 1%N; DatabaseID := 7%N; StartedAt := 100; CompletedAt := None;
     Status := ScanStatusPending; ErrorMessage := ""; Schemas := [];
     Summary := {| TotalSchemas := 0; TotalTables := 0; TotalColumns := 0;
                   ClassifiedColumns := 0; InformationTypesCounts := ∅;
                   RiskLevel_ := ""; DurationMilliseconds := 0 |} |}.

Definition completed_scan : ScanResult :=
  with_status ScanStatusCompleted (Some 150) "" pending_scan.

Definition shop_connection : DatabaseConnection :=
  {| dc_ID := 7%N; dc_Host := "db.shop"; dc_Port := 3306; dc_Username := "scanner";
     dc_EncryptedPassword := "c2VjcmV0"; dc_DatabaseName := "shop";
     dc_Description := ""; dc_CreatedAt := 10; dc_UpdatedAt := 10;
     dc_LastScannedAt := None; dc_IsActive := true |}.

(** the store with one scan, and the faults of its next statements *)
Definition store (r : ScanResult) (faults : list (option string)) : World :=
  {| scan_results := {[ ID r := r ]};
     database_connections := {[ 7%N := shop_connection ]};
     db_faults := faults; clock := 200; uuids := []; open_sessions := 0;
     clientFoundRows := false |}.

Definition column (name dataType : string) : MySQLColumnInfo :=
  {| ci_ColumnName := name; ci_DataType := dataType; ci_IsNullable := false;
     ci_DefaultValue := None; ci_ColumnKey := "" |}.

(** a server with one table of two columns *)
Definition shop_schemas : list string + string := inl ["shop"].
Definition shop_tables (schema : string) : list string + string := inl ["users"].
Definition shop_columns (schema table : string) : list MySQLColumnInfo + string :=
  inl [column "id" "int"; column "email" "varchar"].
Definition shop_Decrypt (s : string) : string + string := inl s.
Definition shop_Classify (name : string) : InformationType * float64 * list string :=
  if String.eqb name "email" then (InfoTypeEmailAddress, decimal 9 10, ["email"])
  else (InfoTypeNA, of_int 0, []).

Definition opened (host : string) (port : Z) (user password : string) : option string :=
  None.
Definition accepting (host : string) (port : Z) (user password : string) : option string :=
  None.
Definition refusing (host : string) (port : Z) (user password : string) : option string :=
  Some "connection refused".

(** the goroutine of a scan of the shop, the server accepting or refusing
    the session *)
Definition scan_shop (ping : string → Z → string → string → option string) : World → World :=
  StartScan_go opened ping shop_schemas shop_tables shop_columns shop_Decrypt shop_Classify
    pending_scan shop_connection.

Definition body_shop (ping : string → Z → string → string → option string) : M unit :=
  performScan opened ping shop_schemas shop_tables shop_columns shop_Decrypt shop_Classify
    pending_scan shop_connection.

Lemma answered_nil n w : db_faults w = [] → answered n w.
Proof. intros Hf i e _. by rewrite Hf, lookup_nil. Qed.

(** the scan of the shop when nothing fails *)
Example scan_shop_completed :
  ∃ r, scan_results (scan_shop accepting (store pending_scan [])) !! 1%N = Some r
     ∧ Status r = ScanStatusCompleted
     ∧ TotalColumns (Summary r) = 2 ∧ ClassifiedColumns (Summary r) = 1
     ∧ RiskLevel_ (Summary r) = RiskLevelHigh
     ∧ open_sessions (scan_shop accepting (store pending_scan [])) = 0%nat.
Proof. eexists. vm_compute. repeat split. Qed.

Lemma C4_risk_level_witness :
  [(InfoTypeSSN, 3)] ≡ₚ map_to_list ({[ InfoTypeSSN := 3 ]} : gmap string Z)
  ∧ calculateRiskLevel_on [(InfoTypeSSN, 3)] 10 = RiskLevelCritical.
Proof.
  assert (H : [(InfoTypeSSN, 3)] ≡ₚ map_to_list ({[ InfoTypeSSN := 3 ]} : gmap string Z)).
  { by rewrite map_to_list_singleton. }
  split; [exact H|].
  rewrite (C4_risk_level {[ InfoTypeSSN := 3 ]} 10 [(InfoTypeSSN, 3)] H).
  vm_compute. reflexivity.
Defined.

Lemma C10_history_limit_witness :
  (-5 ≤ 0
   ∧ GetScanHistory 7%N (-5) (store pending_scan [])
     = wrapErr "failed to get scan history" (scanRepo_GetByDatabaseID 7%N 10)
         (store pending_scan []))
  ∧ (0 < 3
     ∧ GetScanHistory 7%N 3 (store pending_scan [])
       = wrapErr "failed to get scan history" (scanRepo_GetByDatabaseID 7%N 3)
           (store pending_scan [])).
Proof.
  split; (split; [lia|]).
  - apply (C10_history_limit 7%N (-5) (store pending_scan [])). lia.
  - apply (C10_history_limit 7%N 3 (store pending_scan [])). lia.
Defined.

(** the history of the shop, asked with no limit *)
Example history_default_limit :
  GetScanHistory 7%N 0 (store pending_scan []) = (store pending_scan [], inl [pending_scan]).
Proof. vm_compute. reflexivity. Qed.

Lemma C7_cancel_scan_witness :
  ((CancelScan 1%N (store completed_scan [])).2
   = inr "scan cannot be cancelled, current status: completed"
   ∧ scan_results (CancelScan 1%N (store completed_scan [])).1
     = scan_results (store completed_scan []))
  ∧ ((CancelScan 1%N (store pending_scan [])).2 = inl ()
     ∧ Status <$> scan_results (CancelScan 1%N (store pending_scan [])).1 !! 1%N
       = Some ScanStatusCancelled).
Proof.
  split.
  - destruct (C7_cancel_scan 1%N completed_scan (store completed_scan []))
      as [Hno _]; [reflexivity|].
    destruct Hno as [Hsame Herr]; [discriminate|discriminate|].
    split; [|exact Hsame]. apply Herr. by apply answered_nil.
  - destruct (C7_cancel_scan 1%N pending_scan (store pending_scan []))
      as [_ Hyes]; [reflexivity|].
    destruct Hyes as [Hok Hrow]; [by left|by apply answered_nil|].
    split; [exact Hok|]. rewrite Hrow, lookup_insert_eq. reflexivity.
Defined.

Lemma C8_failed_scan_witness :
  ((body_shop refusing (store pending_scan [])).2
   = inr "failed to connect to MySQL: failed to ping MySQL database: connection refused"
   ∧ ∃ r, scan_results (scan_shop refusing (store pending_scan [])) !! 1%N = Some r
        ∧ Status r = ScanStatusFailed
        ∧ ErrorMessage r
          = "failed to connect to MySQL: failed to ping MySQL database: connection refused")
  ∧ ((body_shop refusing (store pending_scan [None; Some "connection lost"])).2
     = inr "failed to connect to MySQL: failed to ping MySQL database: connection refused"
     ∧ scan_results (scan_shop refusing (store pending_scan [None; Some "connection lost"]))
       = {[ 1%N := with_status ScanStatusRunning None "" pending_scan ]}).
Proof.
  split.
  - split; [vm_compute; reflexivity|].
    destruct (C8_failed_scan opened refusing shop_schemas shop_tables shop_columns
                shop_Decrypt shop_Classify pending_scan shop_connection
                (store pending_scan []))
      as (_ & _ & _ & Herr).
    destruct (Herr (body_shop refusing (store pending_scan [])).1
                "failed to connect to MySQL: failed to ping MySQL database: connection refused")
      as (_ & _ & Hrow & Hok & _).
    { vm_compute. reflexivity. }
    apply Hrow, (Hok pending_scan).
    + reflexivity.
    + right. discriminate.
    + apply answered_nil. vm_compute. reflexivity.
  - split; [vm_compute; reflexivity|].
    destruct (C8_failed_scan opened refusing shop_schemas shop_tables shop_columns
                shop_Decrypt shop_Classify pending_scan shop_connection
                (store pending_scan [None; Some "connection lost"]))
      as (_ & _ & _ & Herr).
    destruct (Herr (body_shop refusing (store pending_scan [None; Some "connection lost"])).1
                "failed to connect to MySQL: failed to ping MySQL database: connection refused")
      as (_ & _ & _ & _ & Hlost & Hleft).
    { vm_compute. reflexivity. }
    unfold scan_shop.
    rewrite (Hlost "failed to update scan status: connection lost")
      by (vm_compute; reflexivity).
    destruct Hleft as [Hsame|(r0 & Hr0 & Hset)].
    + exfalso. apply (f_equal (λ t, Status <$> t !! 1%N)) in Hsame.
      vm_compute in Hsame. discriminate.
    + rewrite Hset. injection Hr0 as <-. apply insert_singleton_eq.
Defined.

(** C8, the store failing: the metadata database is lost when the scan
    begins, so the body fails at its first write, the write of the status
    Failed fails as well, and the row is left Pending. *)
Lemma C8_store_down :
  (body_shop accepting
     (store pending_scan [Some "connection lost"; Some "connection lost"])).2
  = inr "failed to update scan status to running: failed to update scan status: connection lost"
  ∧ scan_results
      (scan_shop accepting
         (store pending_scan [Some "connection lost"; Some "connection lost"])) !! 1%N
    = Some pending_scan.
Proof. split; vm_compute; reflexivity. Qed.

(** the store lost during the scan: the row is left Running *)
Example scan_shop_left_running :
  Status <$> scan_results
      (scan_shop accepting
         (store pending_scan [None; Some "connection lost"; Some "connection lost"])) !! 1%N
  = Some ScanStatusRunning.
Proof. vm_compute. reflexivity. Qed.

End ScanFacts.

(* ===================================================================== *)
(** * The classifier: scores and the upkeep of the snapshot *)

Module ClassifierLaws.

Import Float64 GoStrings GoRegexp domain classifier.
Import GoSortFacts Float64Facts ClassifierFacts.

Lemma in_order_filter {A} (less : A → A → bool) (P : A → Prop)
    `{!∀ x, Decision (P x)} (l : list A) :
  in_order less l → in_order less (filter P l).
Proof.
  unfold in_order. induction 1 as [|x l Hs IH Hall]; [constructor|].
  rewrite filter_cons. destruct (decide (P x)); [|done].
  constructor; [done|]. apply Forall_forall. intros y Hy.
  apply list_elem_of_filter in Hy as [_ Hy]. rewrite Forall_forall in Hall. auto.
Qed.

Lemma filter_comm {A} (P Q : A → Prop) `{!∀ x, Decision (P x)} `{!∀ x, Decision (Q x)}
    (l : list A) :
  filter P (filter Q l) = filter Q (filter P l).
Proof.
  induction l as [|x l IH]; [done|].
  rewrite !(filter_cons _ x l).
  destruct (decide (P x)), (decide (Q x)); rewrite ?filter_cons_True, ?filter_cons_False by done;
    congruence.
Qed.

Lemma filter_nil_all {A} (P : A → Prop) `{!∀ x, Decision (P x)} (l : list A) :
  filter P l = [] → Forall (λ x, ¬ P x) l.
Proof.
  induction l as [|x l IH]; [constructor|].
  rewrite filter_cons. destruct (decide (P x)); [done|]. by constructor; auto.
Qed.

(** two lists in descending order of a key, with the same elements of
    every key in the same order, are equal *)
Lemma in_order_classes_eq {A} (key : A → Z) (l1 l2 : list A) :
  in_order (λ x y, (key y <? key x)%Z) l1 →
  in_order (λ x y, (key y <? key x)%Z) l2 →
  (∀ k, filter (λ x, key x = k) l1 = filter (λ x, key x = k) l2) →
  l1 = l2.
Proof.
  unfold in_order. intros H1. revert l2.
  induction H1 as [|x l1 Hs1 IH Hall1]; intros l2 H2 Hcl.
  { destruct l2 as [|y l2]; [done|].
    specialize (Hcl (key y)). rewrite filter_cons, decide_True in Hcl by done. done. }
  destruct H2 as [|y l2 Hs2 Hall2].
  { specialize (Hcl (key x)). rewrite filter_cons, decide_True in Hcl by done. done. }
  assert (Hxy : key x = key y).
  { pose proof (Hcl (key x)) as Hx. pose proof (Hcl (key y)) as Hy.
    rewrite (filter_cons _ x), decide_True in Hx by done.
    rewrite (filter_cons _ y l2), decide_True in Hy by done.
    assert (x ∈ y :: l2) as Hxin.
    { eapply (list_elem_of_filter (λ z, key z = key x)). rewrite <- Hx. by left. }
    assert (y ∈ x :: l1) as Hyin.
    { eapply (list_elem_of_filter (λ z, key z = key y)). rewrite Hy. by left. }
    rewrite Forall_forall in Hall1, Hall2.
    apply elem_of_cons in Hxin as [->|Hxin]; [done|].
    apply elem_of_cons in Hyin as [->|Hyin]; [done|].
    specialize (Hall1 _ Hyin). specialize (Hall2 _ Hxin). simpl in *.
    apply Z.ltb_ge in Hall1, Hall2. lia. }
  assert (x = y) as ->.
  { specialize (Hcl (key x)).
    rewrite (filter_cons _ x), decide_True in Hcl by done.
    rewrite (filter_cons _ y l2), decide_True in Hcl by done. congruence. }
  f_equal. apply IH; [done|]. intros k. specialize (Hcl k).
  rewrite !(filter_cons _ y) in Hcl. destruct (decide (key y = k)); congruence.
Qed.

Lemma class_empty {A} (key : A → Z) (l : list A) (bound k : Z) :
  (k < bound)%Z →
  filter (λ x, key x = k) (filter (λ x, (bound ≤ key x)%Z) l) = [].
Proof.
  intros Hk. induction l as [|a l IH]; [done|].
  rewrite (filter_cons _ a l). destruct (decide (bound ≤ key a)%Z); [|done].
  rewrite filter_cons_False by lia. done.
Qed.

(** the elements of a key, when [x] is put behind the elements of a key
    not below its own *)
Lemma class_insert {A} (key : A → Z) (l : list A) (x : A) (k : Z) :
  filter (λ y, key y = k) (l ++ [x])
  = filter (λ y, key y = k)
      (filter (λ y, (key x ≤ key y)%Z) l ++ x :: filter (λ y, (key y < key x)%Z) l).
Proof.
  induction l as [|a l IH]; [done|].
  rewrite <- app_comm_cons, (filter_cons _ a (l ++ [x])), IH.
  rewrite (filter_cons (λ y, (key x ≤ key y)%Z) a l).
  rewrite (filter_cons (λ y, (key y < key x)%Z) a l).
  destruct (decide (key x ≤ key a)%Z) as [Hle|Hgt].
  - rewrite (decide_False (P := (key a < key x)%Z)) by lia.
    by rewrite <- app_comm_cons, (filter_cons _ a).
  - rewrite (decide_True (P := (key a < key x)%Z)) by lia.
    rewrite !filter_app, !(filter_cons _ x), !(filter_cons _ a).
    destruct (decide (key a = k)) as [Hk|Hk]; [|done].
    rewrite (class_empty key l (key x) k) by lia.
    repeat (case_match; try lia); done.
Qed.

Lemma in_order_app {A} (less : A → A → bool) (l1 l2 : list A) :
  in_order less l1 → in_order less l2 →
  (∀ x y, x ∈ l1 → y ∈ l2 → less y x = false) →
  in_order less (l1 ++ l2).
Proof.
  unfold in_order. intros H1 H2 H12. induction H1 as [|x l1 Hs IH Hall]; [done|].
  simpl. constructor.
  - apply IH. intros a b Ha Hb. apply H12; [by right|done].
  - apply Forall_app. split; [done|]. apply Forall_forall. intros y Hy.
    apply H12; [by left|done].
Qed.

Local Open Scope string_scope.

(** the pattern that [RemovePattern(infoType, patternStr)] removes *)
Definition removed (infoType patternStr : string) (p : Pattern) : Prop :=
  InformationType_ p = infoType ∧ Pattern_ p = patternStr.

#[global] Instance removed_dec infoType patternStr p : Decision (removed infoType patternStr p).
Proof. unfold removed. apply _. Defined.

(** the pattern that [AddPattern(pattern)] appends, [regex] being the
    compiled expression *)
Definition added (pattern : Pattern) (regex : Regexp) : Pattern :=
  {| InformationType_ := InformationType_ pattern; Pattern_ := Pattern_ pattern;
     Description := Description pattern; Priority := Priority pattern;
     regex := regex |}.

Section Laws.
Variable Compile : string → Regexp + string.
Variable TrimSpace ToLower : string → string.

Lemma byPriority_asym x y : byPriority x y = true → byPriority y x = false.
Proof. unfold byPriority. rewrite Z.ltb_lt, Z.ltb_ge. lia. Qed.

Lemma byPriority_negtrans x y z :
  byPriority x y = false → byPriority y z = false → byPriority x z = false.
Proof. unfold byPriority. rewrite !Z.ltb_ge. lia. Qed.

Lemma Slice_byPriority_in_order ps : in_order byPriority (GoSort.Slice byPriority ps).
Proof.
  apply (Slice_in_order byPriority (λ _, True)).
  - intros x y _ _. apply byPriority_asym.
  - intros x y z _ _ _. apply byPriority_negtrans.
  - by apply Forall_forall.
Qed.

Lemma Slice_byPriority_classes ps priority :
  (length ps ≤ 12)%nat →
  filter (λ p, Priority p = priority) (GoSort.Slice byPriority ps)
  = filter (λ p, Priority p = priority) ps.
Proof.
  intros Hlen. apply Slice_stable; [done|].
  intros x y _ _ Hx Hy. unfold byPriority. apply Z.ltb_ge. lia.
Qed.

(** a sort of at most 12 patterns keeps apart, and in their order, the
    patterns that were in order already *)
Lemma Slice_byPriority_filter (P : Pattern → Prop) `{!∀ x, Decision (P x)} ps :
  (length ps ≤ 12)%nat → in_order byPriority (filter P ps) →
  filter P (GoSort.Slice byPriority ps) = filter P ps.
Proof.
  intros Hlen Hord. apply (in_order_classes_eq Priority).
  - apply (in_order_filter byPriority), Slice_byPriority_in_order.
  - done.
  - intros k. rewrite !(filter_comm (λ p, Priority p = k) P).
    by rewrite Slice_byPriority_classes.
Qed.

Lemma RemovePattern_loop_spec ps infoType patternStr acc :
  RemovePattern_loop ps infoType patternStr acc
  = (acc ++ filter (λ p, ¬ removed infoType patternStr p) ps)%list.
Proof.
  revert acc. induction ps as [|p ps IH]; intros acc; simpl.
  { by rewrite app_nil_r. }
  rewrite filter_cons. unfold removed at 2.
  destruct (String.eqb_spec (InformationType_ p) infoType) as [Ht|Ht];
    destruct (String.eqb_spec (Pattern_ p) patternStr) as [Hp|Hp]; simpl.
  - rewrite IH. rewrite decide_False; [done|]. intros H. by apply H.
  - rewrite IH, decide_True, <- app_assoc; [done|]. by intros [_ ?].
  - rewrite IH, decide_True, <- app_assoc; [done|]. by intros [? _].
  - rewrite IH, decide_True, <- app_assoc; [done|]. by intros [? _].
Qed.

Lemma matches_of_score ps n m :
  m ∈ matches_of ps n → score m = calculateConfidenceScore n (pattern m).
Proof.
  unfold matches_of. intros Hm. by apply list_elem_of_fmap in Hm as (p & -> & _).
Qed.

(** the score that [ClassifyColumn] returns is [0.0] or the score of a
    pattern *)
Lemma ClassifyColumn_score c columnName :
  ConfidenceScore (ClassifyColumn TrimSpace ToLower c columnName) = of_int 0
  ∨ ∃ p, ConfidenceScore (ClassifyColumn TrimSpace ToLower c columnName)
         = calculateConfidenceScore (ToLower (TrimSpace columnName)) p.
Proof.
  destruct (decide (columnName = "")) as [->|Hne]; [by left|].
  rewrite (ClassifyColumn_unfold TrimSpace ToLower c columnName Hne).
  set (ms := matches_of (patterns c) (ToLower (TrimSpace columnName))).
  pose proof (Slice_perm byScore ms) as Hperm.
  assert (Hin : ∀ m, m ∈ ms → score m
                = calculateConfidenceScore (ToLower (TrimSpace columnName)) (pattern m))
    by apply matches_of_score.
  destruct ms as [|first ms'] eqn:Ems; [by left|]. rewrite <- Ems in *.
  right. cbn zeta. destruct (GoSort.Slice byScore ms) as [|best rest] eqn:Es.
  { apply Permutation_nil_l in Hperm. by rewrite Ems in Hperm. }
  exists (pattern best). simpl. apply Hin. rewrite <- Hperm. by left.
Qed.

(** ** The score *)

(** X1. Whatever the priority of a pattern, its confidence score for a
    name is a number (not NaN) from 0.0 to 1.0, and so is the confidence
    score that [ClassifyColumn] returns, for every snapshot and every
    name. *)
Theorem X1_score_between_0_and_1 (c : Classifier) (columnName n : string) (p : Pattern) :
  (is_nan (calculateConfidenceScore n p) = false
   ∧ ltb (calculateConfidenceScore n p) (of_int 0) = false
   ∧ gtb (calculateConfidenceScore n p) (of_int 1) = false)
  ∧ (is_nan (ConfidenceScore (ClassifyColumn TrimSpace ToLower c columnName)) = false
     ∧ ltb (ConfidenceScore (ClassifyColumn TrimSpace ToLower c columnName)) (of_int 0)
       = false
     ∧ gtb (ConfidenceScore (ClassifyColumn TrimSpace ToLower c columnName)) (of_int 1)
       = false).
Proof.
  split.
  - split; [apply calculateConfidenceScore_not_nan|apply calculateConfidenceScore_range].
  - destruct (ClassifyColumn_score c columnName) as [->|[q ->]].
    + by vm_compute.
    + split; [apply calculateConfidenceScore_not_nan|apply calculateConfidenceScore_range].
Qed.

(** ** [AddPattern] *)

(** X2. [AddPattern] of a pattern whose text does not compile returns the
    error that names the text and leaves the classifier as it was. When
    the text compiles, the new snapshot is a permutation of the old one and
    the added pattern, in descending order of priority; and when the old
    snapshot was in order and held fewer than 12 patterns, the old patterns
    keep their order and the added one comes after those of a priority
    greater than or equal to its own. *)
Theorem X2_AddPattern (c : Classifier) (pattern : Pattern) :
  (∀ err, Compile (Pattern_ pattern) = inr err →
     AddPattern Compile c pattern
     = (c, Some ("failed to compile regex pattern '" ++ Pattern_ pattern ++ "': " ++ err)))
  ∧ (∀ regex, Compile (Pattern_ pattern) = inl regex →
       ∃ snapshot,
         AddPattern Compile c pattern = ({| patterns := snapshot |}, None)
         ∧ snapshot ≡ₚ (patterns c ++ [added pattern regex])%list
         ∧ StronglySorted (λ x y, (Priority y ≤ Priority x)%Z) snapshot
         ∧ (in_order byPriority (patterns c) → (length (patterns c) < 12)%nat →
            snapshot
            = (filter (λ p, (Priority pattern ≤ Priority p)%Z) (patterns c)
               ++ added pattern regex
               :: filter (λ p, (Priority p < Priority pattern)%Z) (patterns c))%list)).
Proof.
  split.
  { intros err He. unfold AddPattern. by rewrite He. }
  intros re Hre. exists (GoSort.Slice byPriority (patterns c ++ [added pattern re])%list).
  split; [unfold AddPattern; by rewrite Hre|].
  split; [apply Slice_perm|].
  split; [apply in_order_byPriority, Slice_byPriority_in_order|].
  intros Hord Hlen. apply (in_order_classes_eq Priority).
  - apply Slice_byPriority_in_order.
  - apply (in_order_app byPriority).
    + by apply (in_order_filter byPriority).
    + constructor; [by apply (in_order_filter byPriority)|].
      apply Forall_forall. intros y Hy. apply list_elem_of_filter in Hy as [Hy _].
      unfold byPriority. apply Z.ltb_ge. simpl. lia.
    + intros x y Hx Hy. apply list_elem_of_filter in Hx as [Hx _].
      unfold byPriority. apply Z.ltb_ge.
      apply elem_of_cons in Hy as [->|Hy]; [simpl; lia|].
      apply list_elem_of_filter in Hy as [Hy _]. lia.
  - intros k. rewrite Slice_byPriority_classes
      by (rewrite length_app; simpl; lia).
    exact (class_insert Priority (patterns c) (added pattern re) k).
Qed.

(** ** [RemovePattern] *)

Lemma filter_all {A} (P : A → Prop) `{!∀ x, Decision (P x)} (l : list A) :
  (∀ x, x ∈ l → P x) → filter P l = l.
Proof.
  induction l as [|x l IH]; intros Hall; [done|].
  rewrite filter_cons_True by (apply Hall; by left). f_equal. apply IH.
  intros y Hy. apply Hall. by right.
Qed.

(** X3. [RemovePattern(infoType, patternStr)] drops the patterns that have
    both that information type and that text, and keeps the others in
    their order; a snapshot in descending order of priority stays so;
    removing twice is removing once; and removing a pattern that is not
    there changes nothing. *)
Theorem X3_RemovePattern (c : Classifier) (infoType patternStr : string) :
  patterns (RemovePattern c infoType patternStr)
  = filter (λ p, ¬ removed infoType patternStr p) (patterns c)
  ∧ (in_order byPriority (patterns c) →
     in_order byPriority (patterns (RemovePattern c infoType patternStr)))
  ∧ RemovePattern (RemovePattern c infoType patternStr) infoType patternStr
    = RemovePattern c infoType patternStr
  ∧ ((∀ p, p ∈ patterns c → ¬ removed infoType patternStr p) →
     RemovePattern c infoType patternStr = c).
Proof.
  assert (Hspec : ∀ c', patterns (RemovePattern c' infoType patternStr)
                        = filter (λ p, ¬ removed infoType patternStr p) (patterns c')).
  { intros c'. unfold RemovePattern. simpl. by rewrite RemovePattern_loop_spec. }
  split; [apply Hspec|]. split; [|split].
  - intros Hord. rewrite Hspec. by apply (in_order_filter byPriority).
  - unfold RemovePattern at 1 3. f_equal.
    rewrite !RemovePattern_loop_spec. simpl. rewrite <- Hspec.
    apply filter_all. intros p Hp. rewrite Hspec in Hp.
    by apply list_elem_of_filter in Hp as [Hp _].
  - intros Hnone. destruct c as [ps]. unfold RemovePattern. simpl in *. f_equal.
    rewrite RemovePattern_loop_spec. simpl. by apply filter_all.
Qed.

(** X4. On a classifier whose snapshot is in descending order of priority
    and holds fewer than 12 patterns, none of them with the information
    type and the text of [pattern], removing [pattern] after adding it
    gives the classifier back. *)
Theorem X4_RemovePattern_undoes_AddPattern (c : Classifier) (pattern : Pattern)
    (regex : Regexp) :
  Compile (Pattern_ pattern) = inl regex →
  in_order byPriority (patterns c) →
  (length (patterns c) < 12)%nat →
  (∀ p, p ∈ patterns c → ¬ removed (InformationType_ pattern) (Pattern_ pattern) p) →
  RemovePattern (AddPattern Compile c pattern).1 (InformationType_ pattern)
    (Pattern_ pattern)
  = c.
Proof.
  intros Hre Hord Hlen Hnone. unfold AddPattern. rewrite Hre. simpl.
  destruct c as [ps]. unfold RemovePattern. simpl in *. f_equal.
  rewrite RemovePattern_loop_spec. simpl.
  assert (Hf : filter (λ p, ¬ removed (InformationType_ pattern) (Pattern_ pattern) p)
                 (ps ++ [added pattern regex])%list = ps).
  { rewrite filter_app, filter_all by done.
    rewrite filter_cons_False, filter_nil, app_nil_r; [done|].
    intros H. by apply H. }
  fold (added pattern regex).
  rewrite Slice_byPriority_filter.
  - done.
  - rewrite length_app. simpl. lia.
  - by rewrite Hf.
Qed.

End Laws.

(** ** On the fragment of [regexp] *)

Definition email_rule : Pattern := compiled_rule InfoTypeEmailAddress "email" 80.

Lemma one_rule_in_order : in_order byPriority (patterns one_rule).
Proof. repeat constructor. Qed.

Lemma X2_AddPattern_witness :
  GoRegexp.Compile (Pattern_ email_rule) = inl (MustCompile "email")
  ∧ in_order byPriority (patterns one_rule)
  ∧ (length (patterns one_rule) < 12)%nat
  ∧ Pattern_ <$> patterns (AddPattern GoRegexp.Compile one_rule email_rule).1
    = ["ssn"; "email"].
Proof.
  assert (H1 : GoRegexp.Compile (Pattern_ email_rule) = inl (MustCompile "email"))
    by reflexivity.
  assert (H3 : (length (patterns one_rule) < 12)%nat) by (simpl; lia).
  split; [exact H1|]. split; [exact one_rule_in_order|]. split; [exact H3|].
  destruct (proj2 (X2_AddPattern GoRegexp.Compile one_rule email_rule) _ H1)
    as (snapshot & -> & _ & _ & Hpos).
  simpl. rewrite (Hpos one_rule_in_order H3). reflexivity.
Defined.

Example AddPattern_bad_text :
  AddPattern GoRegexp.Compile one_rule (compiled_rule InfoTypeAccountNumber "*id" 50)
  = (one_rule,
     Some ("failed to compile regex pattern '*id': " ++
           "error parsing regexp: missing argument to repetition operator: `*`")).
Proof. vm_compute. reflexivity. Qed.

Lemma X3_RemovePattern_witness :
  in_order byPriority (patterns one_rule)
  ∧ (∀ p, p ∈ patterns one_rule → ¬ removed InfoTypeEmailAddress "ssn" p)
  ∧ in_order byPriority (patterns (RemovePattern one_rule InfoTypeSSN "ssn"))
  ∧ RemovePattern one_rule InfoTypeEmailAddress "ssn" = one_rule.
Proof.
  assert (H : ∀ p, p ∈ patterns one_rule → ¬ removed InfoTypeEmailAddress "ssn" p).
  { intros p Hp. apply list_elem_of_singleton in Hp as ->. by intros [? _]. }
  split; [exact one_rule_in_order|]. split; [exact H|].
  destruct (X3_RemovePattern one_rule InfoTypeSSN "ssn") as (_ & Hord & _ & _).
  destruct (X3_RemovePattern one_rule InfoTypeEmailAddress "ssn") as (_ & _ & _ & Hid).
  split; [exact (Hord one_rule_in_order)|exact (Hid H)].
Defined.

(** the type and the text must both agree for a pattern to be removed *)
Example RemovePattern_other_type :
  Pattern_ <$> patterns (RemovePattern one_rule InfoTypeEmailAddress "ssn") = ["ssn"]
  ∧ patterns (RemovePattern one_rule InfoTypeSSN "ssn") = [].
Proof. split; reflexivity. Qed.

Lemma X4_RemovePattern_undoes_AddPattern_witness :
  GoRegexp.Compile (Pattern_ email_rule) = inl (MustCompile "email")
  ∧ (∀ p, p ∈ patterns one_rule
        → ¬ removed (InformationType_ email_rule) (Pattern_ email_rule) p)
  ∧ RemovePattern (AddPattern GoRegexp.Compile one_rule email_rule).1
      InfoTypeEmailAddress "email"
    = one_rule.
Proof.
  assert (H1 : GoRegexp.Compile (Pattern_ email_rule) = inl (MustCompile "email"))
    by reflexivity.
  assert (H4 : ∀ p, p ∈ patterns one_rule
                 → ¬ removed (InformationType_ email_rule) (Pattern_ email_rule) p).
  { intros p Hp. apply list_elem_of_singleton in Hp as ->. by intros [? _]. }
  split; [exact H1|]. split; [exact H4|].
  apply (X4_RemovePattern_undoes_AddPattern GoRegexp.Compile one_rule email_rule
           (MustCompile "email") H1 one_rule_in_order); [simpl; lia|exact H4].
Defined.

End ClassifierLaws.

(* ===================================================================== *)
(** * The scan service: starting, reading and cancelling scans *)

Module ScanLaws.

Import Float64 domain ScanService ScanFacts.
Local Open Scope string_scope.
Local Open Scope Z_scope.

(** the world when the next statement has been answered *)
Definition answer (w : World) : World :=
  match db_faults w with
  | [] => w
  | _ :: fs => set_db_faults fs w
  end.

Lemma scan_results_answer w : scan_results (answer w) = scan_results w.
Proof. unfold answer. by destruct (db_faults w). Qed.

Lemma scanRepo_GetByID_frame id w :
  scan_results (scanRepo_GetByID id w).1 = scan_results w.
Proof.
  unfold scanRepo_GetByID, statement.
  destruct (db_faults w) as [|[e|] fs]; simpl; by destruct (scan_results w !! id).
Qed.

Lemma scanRepo_GetByID_answered id w :
  answered 1 w →
  scanRepo_GetByID id w
  = (answer w, match scan_results w !! id with
               | Some r => inl r
               | None => inr "scan result not found"
               end).
Proof.
  intros Hans. unfold scanRepo_GetByID, statement, answer.
  destruct (db_faults w) as [|[e|] fs] eqn:Hf; simpl.
  - by destruct (scan_results w !! id).
  - by destruct (answered_head w e fs Hans).
  - by destruct (scan_results w !! id).
Qed.

Lemma dbConnRepo_GetByID_frame id w :
  scan_results (dbConnRepo_GetByID id w).1 = scan_results w
  ∧ database_connections (dbConnRepo_GetByID id w).1 = database_connections w.
Proof.
  unfold dbConnRepo_GetByID, statement.
  destruct (db_faults w) as [|[e|] fs]; simpl; by destruct (database_connections w !! id).
Qed.

Lemma dbConnRepo_GetByID_found id w w' conn :
  dbConnRepo_GetByID id w = (w', inl conn) → database_connections w !! id = Some conn.
Proof.
  unfold dbConnRepo_GetByID, statement.
  destruct (db_faults w) as [|[e|] fs]; simpl;
    destruct (database_connections w !! id); simpl; congruence.
Qed.

Lemma dbConnRepo_GetByID_missing id w :
  database_connections w !! id = None → answered 1 w →
  (dbConnRepo_GetByID id w).2 = inr "database connection not found".
Proof.
  intros Hnone Hans. unfold dbConnRepo_GetByID, statement.
  destruct (db_faults w) as [|[e|] fs] eqn:Hf; simpl; rewrite ?Hnone; try done.
  by destruct (answered_head w e fs Hans).
Qed.

Lemma scanRepo_Create_cases r w :
  (∃ e, (scanRepo_Create r w).2 = inr e
        ∧ scan_results (scanRepo_Create r w).1 = scan_results w)
  ∨ ((scanRepo_Create r w).2 = inl ()
     ∧ scan_results w !! ID r = None
     ∧ scan_results (scanRepo_Create r w).1 = <[ID r := r]> (scan_results w)).
Proof.
  unfold scanRepo_Create, wrapErr, statement.
  destruct (json_unsupported _); simpl; [eauto|].
  destruct (db_faults w) as [|[e|] fs]; simpl;
    destruct (scan_results w !! ID r) eqn:Hr; simpl; eauto.
Qed.

Lemma uuid_New_frame w :
  scan_results (uuid_New w).1 = scan_results w ∧ (uuid_New w).2 ≠ uuid_Nil.
Proof. unfold uuid_New. by destruct (uuids w). Qed.

(** ** [StartScan] *)

(** X5. When [StartScan] returns an error it has stored no scan and
    started no goroutine; and for a database identifier that has no
    connection, the store answering, the error is "failed to get database
    connection: database connection not found". *)
Theorem X5_StartScan_error (databaseID : UUID) (w : World) :
  (∀ err, (StartScan databaseID w).1.2 = inr err →
     (StartScan databaseID w).2 = None
     ∧ scan_results (StartScan databaseID w).1.1 = scan_results w)
  ∧ (database_connections w !! databaseID = None → answered 1 w →
     (StartScan databaseID w).1.2
     = inr "failed to get database connection: database connection not found").
Proof.
  unfold StartScan, wrapErr. split.
  - intros err.
    pose proof (proj1 (dbConnRepo_GetByID_frame databaseID w)) as Hc.
    destruct (dbConnRepo_GetByID databaseID w) as [wa [conn|e]]; simpl in *; [|done].
    pose proof (proj1 (uuid_New_frame wa)) as Hu.
    destruct (uuid_New wa) as [wb scanID]. simpl in *.
    unfold time_Now. simpl.
    match goal with |- context [scanRepo_Create ?r ?w0] =>
      destruct (scanRepo_Create_cases r w0) as [(e & He & Hs)|(Hok & _ & _)];
      destruct (scanRepo_Create r w0) as [wd [[]|e']] end; simpl in *; try done.
    intros _. split; [done|]. by rewrite Hs, Hu, Hc.
  - intros Hnone Hans.
    pose proof (dbConnRepo_GetByID_missing databaseID w Hnone Hans) as Hm.
    destruct (dbConnRepo_GetByID databaseID w) as [wa [conn|e]]; simpl in *; [done|].
    by injection Hm as ->.
Qed.

(** X6. When [StartScan] returns an identifier, it is not [uuid.Nil], it
    was not the identifier of a stored scan, and the one row that has been
    added under it is a Pending scan of the database with no result tree;
    the goroutine has been started on that scan and on the connection
    stored for the database; and on the store as [StartScan] leaves it,
    that is before the goroutine has written to it, [GetScanResult], the
    store answering, returns a Pending scan of the database with that
    identifier. *)
Theorem X6_StartScan_stores_pending_scan (databaseID scanID : UUID) (w w' : World)
    (started : option (ScanResult * DatabaseConnection)) :
  StartScan databaseID w = (w', inl scanID, started) →
  ∃ scanResult conn,
    started = Some (scanResult, conn)
    ∧ database_connections w !! databaseID = Some conn
    ∧ scanID ≠ uuid_Nil
    ∧ scan_results w !! scanID = None
    ∧ scan_results w' = <[scanID := scanResult]> (scan_results w)
    ∧ ID scanResult = scanID ∧ DatabaseID scanResult = databaseID
    ∧ Status scanResult = ScanStatusPending ∧ Schemas scanResult = []
    ∧ CompletedAt scanResult = None
    ∧ (answered 1 w' →
       ∃ r, (GetScanResult scanID w').2 = inl r
          ∧ ID r = scanID ∧ DatabaseID r = databaseID
          ∧ Status r = ScanStatusPending).
Proof.
  unfold StartScan, wrapErr.
  pose proof (proj1 (dbConnRepo_GetByID_frame databaseID w)) as Hc.
  pose proof (dbConnRepo_GetByID_found databaseID w) as Hfound.
  destruct (dbConnRepo_GetByID databaseID w) as [wa [conn|e]]; simpl in *; [|done].
  pose proof (uuid_New_frame wa) as [Hu Hnil].
  destruct (uuid_New wa) as [wb id]. simpl in *.
  unfold time_Now. simpl.
  match goal with |- context [scanRepo_Create ?r ?w0] =>
    destruct (scanRepo_Create_cases r w0) as [(e & He & Hs)|(Hok & Hnone & Hs)];
    destruct (scanRepo_Create r w0) as [wd [[]|e']] end; simpl in *; try done.
  intros [= <- <- <-]. eexists _, conn. split; [done|].
  split; [by eapply Hfound|]. split; [done|].
  rewrite Hu, Hc in Hnone. split; [done|].
  rewrite Hs, Hu, Hc. split; [done|]. repeat (split; [done|]).
  intros Hans. unfold GetScanResult, wrapErr.
  rewrite (scanRepo_GetByID_answered _ _ Hans), Hs. simpl.
  rewrite lookup_insert_eq. by eexists.
Qed.


(** ** [CancelScan] *)

Lemma answered_drop n m w fs :
  answered (n + m) w → db_faults w = fs →
  ∀ w', db_faults w' = drop n fs → answered m w'.
Proof.
  intros Hans <- w' Hw' i e Hi. rewrite Hw', lookup_drop. apply Hans. lia.
Qed.

(** the faults that are left when [CancelScan] has cancelled a scan *)
Lemma CancelScan_faults scanID r w :
  scan_results w !! scanID = Some r →
  Status r = ScanStatusPending ∨ Status r = ScanStatusRunning →
  answered 2 w →
  db_faults (CancelScan scanID w).1 = drop 2 (db_faults w).
Proof.
  intros Hr Hc Hans.
  assert (Ht : negb (String.eqb (Status r) ScanStatusPending)
               && negb (String.eqb (Status r) ScanStatusRunning) = false).
  { destruct Hc as [-> | ->]; reflexivity. }
  assert (Haff : ∀ w' t msg,
             rowsAffected w' (same_status r ScanStatusCancelled t msg) = true).
  { intros w' t msg. apply rowsAffected_status. by destruct Hc as [-> | ->]. }
  unfold CancelScan, mbind, M_bind, wrapErr, scanRepo_GetByID, statement.
  destruct (db_faults w) as [|[e|] fs] eqn:Hf; simpl; rewrite ?Hr, ?Ht; simpl.
  - unfold scanRepo_UpdateStatus, statement. simpl. rewrite Hf, Hr, Haff. done.
  - by destruct (answered_head w e fs (answered_le 1 2 w ltac:(lia) Hans)).
  - unfold scanRepo_UpdateStatus, statement. simpl.
    destruct fs as [|[e|] fs']; simpl; rewrite ?Hr, ?Haff; done.
Qed.

Lemma CancelScan_not_cancelable scanID r w :
  scan_results w !! scanID = Some r →
  Status r ≠ ScanStatusPending → Status r ≠ ScanStatusRunning →
  scan_results (CancelScan scanID w).1 = scan_results w
  ∧ (answered 1 w →
     (CancelScan scanID w).2
     = inr ("scan cannot be cancelled, current status: " ++ Status r)).
Proof.
  intros Hr Hp Hn.
  assert (Ht : negb (String.eqb (Status r) ScanStatusPending)
               && negb (String.eqb (Status r) ScanStatusRunning) = true).
  { destruct (String.eqb_spec (Status r) ScanStatusPending); [done|].
    by destruct (String.eqb_spec (Status r) ScanStatusRunning). }
  unfold CancelScan, mbind, M_bind, wrapErr, scanRepo_GetByID, statement, fail.
  destruct (db_faults w) as [|[e|] fs] eqn:Hf; simpl; rewrite ?Hr, ?Ht; simpl.
  - done.
  - split; [done|]. intros Hans. by destruct (answered_head w e fs Hans).
  - done.
Qed.

Lemma CancelScan_cancels scanID r w :
  scan_results w !! scanID = Some r →
  Status r = ScanStatusPending ∨ Status r = ScanStatusRunning →
  answered 2 w →
  (CancelScan scanID w).2 = inl ()
  ∧ scan_results (CancelScan scanID w).1
    = <[scanID := with_status ScanStatusCancelled (Some (clock w))
                    "Cancelled by user" r]> (scan_results w).
Proof.
  intros Hr Hc Hans.
  assert (Ht : negb (String.eqb (Status r) ScanStatusPending)
               && negb (String.eqb (Status r) ScanStatusRunning) = false).
  { destruct Hc as [-> | ->]; reflexivity. }
  assert (Haff : ∀ w' t msg,
             rowsAffected w' (same_status r ScanStatusCancelled t msg) = true).
  { intros w' t msg. apply rowsAffected_status. by destruct Hc as [-> | ->]. }
  unfold CancelScan, mbind, M_bind, wrapErr, scanRepo_GetByID, statement.
  destruct (db_faults w) as [|[e|] fs] eqn:Hf; simpl; rewrite ?Hr, ?Ht; simpl.
  - unfold scanRepo_UpdateStatus, statement. simpl. rewrite Hf, Hr, Haff. done.
  - by destruct (answered_head w e fs (answered_le 1 2 w ltac:(lia) Hans)).
  - unfold scanRepo_UpdateStatus, statement. simpl.
    destruct fs as [|[e|] fs']; simpl; rewrite ?Hr, ?Haff; try done.
    by destruct (answered_tail w None (Some e :: fs') Hans Hf e fs').
Qed.

(** the faults that are left when [UpdateStatus] has been answered *)
Lemma scanRepo_UpdateStatus_faults id status msg w :
  answered 1 w →
  db_faults (scanRepo_UpdateStatus id status msg w).1 = drop 1 (db_faults w).
Proof.
  intros Hans. unfold scanRepo_UpdateStatus, statement.
  destruct (terminal status); simpl;
    destruct (db_faults w) as [|[e|] fs] eqn:Hf; simpl;
    try (by destruct (answered_head w e fs Hans));
    destruct (scan_results w !! id); simpl; try destruct (rowsAffected _ _); done.
Qed.

(** X7. [CancelScan] of an identifier under which no scan is stored writes
    nothing and, the store answering, returns "failed to get scan result:
    scan result not found". After [CancelScan] has cancelled a Pending or
    Running scan, a second [CancelScan] that follows it with no write to
    the row in between returns "scan cannot be cancelled, current status:
    cancelled" and leaves the row as the first call made it. A
    cancellation is not final: when the write of the status Running, the
    first write of the body of the scan, reaches the row after the
    cancellation, the row is Running again and [CancelScan] cancels it
    again. *)
Theorem X7_CancelScan_missing_or_cancelled (scanID : UUID) (w : World) :
  (scan_results w !! scanID = None →
   scan_results (CancelScan scanID w).1 = scan_results w
   ∧ (answered 1 w →
      (CancelScan scanID w).2
      = inr "failed to get scan result: scan result not found"))
  ∧ (∀ r, scan_results w !! scanID = Some r →
       Status r = ScanStatusPending ∨ Status r = ScanStatusRunning →
       answered 3 w →
       (CancelScan scanID w).2 = inl ()
       ∧ (CancelScan scanID (CancelScan scanID w).1).2
         = inr "scan cannot be cancelled, current status: cancelled"
       ∧ scan_results (CancelScan scanID (CancelScan scanID w).1).1
         = scan_results (CancelScan scanID w).1)
  ∧ (∀ r, scan_results w !! scanID = Some r →
       Status r = ScanStatusPending ∨ Status r = ScanStatusRunning →
       answered 5 w →
       let running := scanRepo_UpdateStatus scanID ScanStatusRunning ""
                        (CancelScan scanID w).1 in
       running.2 = inl ()
       ∧ Status <$> scan_results running.1 !! scanID = Some ScanStatusRunning
       ∧ (CancelScan scanID running.1).2 = inl ()
       ∧ Status <$> scan_results (CancelScan scanID running.1).1 !! scanID
         = Some ScanStatusCancelled).
Proof.
  split; [|split].
  - intros Hnone.
    unfold CancelScan, mbind, M_bind, wrapErr, scanRepo_GetByID, statement.
    destruct (db_faults w) as [|[e|] fs] eqn:Hf; simpl; rewrite ?Hnone; simpl.
    + done.
    + split; [done|]. intros Hans. by destruct (answered_head w e fs Hans).
    + done.
  - intros r Hr Hc Hans.
    pose proof (answered_le 2 3 w ltac:(lia) Hans) as Hans2.
    destruct (CancelScan_cancels scanID r w Hr Hc Hans2) as [Hok Hrow].
    pose proof (CancelScan_faults scanID r w Hr Hc Hans2) as Hf.
    split; [done|].
    destruct (CancelScan_not_cancelable scanID
                (with_status ScanStatusCancelled (Some (clock w)) "Cancelled by user" r)
                (CancelScan scanID w).1) as [Hsame Herr]; try done.
    { rewrite Hrow. by rewrite lookup_insert_eq. }
    split; [|done]. apply Herr.
    by apply (answered_drop 2 1 w (db_faults w) Hans eq_refl).
  - intros r Hr Hc Hans running.
    pose proof (answered_le 2 5 w ltac:(lia) Hans) as Hans2.
    destruct (CancelScan_cancels scanID r w Hr Hc Hans2) as [_ Hrow].
    pose proof (CancelScan_faults scanID r w Hr Hc Hans2) as Hf.
    set (w1 := (CancelScan scanID w).1) in *.
    set (r1 := with_status ScanStatusCancelled (Some (clock w)) "Cancelled by user" r) in *.
    assert (Hr1 : scan_results w1 !! scanID = Some r1)
      by (by rewrite Hrow, lookup_insert_eq).
    assert (Hans1 : answered 3 w1)
      by (by apply (answered_drop 2 3 w (db_faults w) Hans eq_refl)).
    assert (Hrun : running.2 = inl ()).
    { apply scanRepo_UpdateStatus_answered with r1;
        [done|exact (answered_le 1 3 w1 ltac:(lia) Hans1)|right; discriminate]. }
    destruct (scanRepo_UpdateStatus_done _ _ _ _ Hrun) as (r1' & Hr1' & Hrow2).
    rewrite Hr1 in Hr1'. injection Hr1' as <-. simpl in Hrow2. fold running in Hrow2.
    pose proof (scanRepo_UpdateStatus_faults scanID ScanStatusRunning "" w1
                  (answered_le 1 3 w1 ltac:(lia) Hans1)) as Hf2.
    fold running in Hf2.
    set (r2 := with_status ScanStatusRunning None "" r1) in *.
    assert (Hr2 : scan_results running.1 !! scanID = Some r2)
      by (by rewrite Hrow2, lookup_insert_eq).
    assert (Hans2' : answered 2 running.1)
      by (by apply (answered_drop 1 2 w1 (db_faults w1) Hans1 eq_refl)).
    destruct (CancelScan_cancels scanID r2 running.1 Hr2 ltac:(by right) Hans2')
      as [Hok3 Hrow3].
    split; [done|]. split; [by rewrite Hr2|]. split; [done|].
    by rewrite Hrow3, lookup_insert_eq.
Qed.

(** ** [GetScanHistory] and [GetLatestClassification] *)

#[global] Instance startedAfter_total : Total startedAfter.
Proof. intros r1 r2. unfold startedAfter. lia. Qed.

#[global] Instance startedAfter_trans : Transitive startedAfter.
Proof. intros r1 r2 r3. unfold startedAfter. lia. Qed.

Lemma stored_elem_of (t : gmap N ScanResult) (r : ScanResult) :
  r ∈ (map_to_list t).*2 ↔ ∃ id, t !! id = Some r.
Proof.
  rewrite list_elem_of_fmap. split.
  - intros ([id r'] & -> & Hin). exists id. by apply elem_of_map_to_list.
  - intros [id Hid]. exists (id, r). split; [done|]. by apply elem_of_map_to_list.
Qed.

(** the rows that [GetByDatabaseID] selects *)
Lemma scanRepo_GetByDatabaseID_rows databaseID limit w w' rows :
  scanRepo_GetByDatabaseID databaseID limit w = (w', inl rows) →
  scan_results w' = scan_results w
  ∧ rows = take (Z.to_nat limit)
             (merge_sort startedAfter
                (filter (λ r, DatabaseID r = databaseID)
                   (map_to_list (scan_results w)).*2)).
Proof.
  unfold scanRepo_GetByDatabaseID, wrapErr, statement.
  destruct (db_faults w) as [|[e|] fs]; simpl; intros [= <- <-]; done.
Qed.

(** X8. The rows that [GetScanHistory] returns are stored scans of the
    database, newest first, at most [limit] of them (at most 10 when
    [limit <= 0]); and a stored scan of the database that is not returned
    started no later than any that is, the number returned then being the
    limit. The call changes no row. *)
Theorem X8_GetScanHistory_newest_first (databaseID : UUID) (limit : Z) (w w' : World)
    (rows : list ScanResult) :
  GetScanHistory databaseID limit w = (w', inl rows) →
  scan_results w' = scan_results w
  ∧ Z.of_nat (length rows) ≤ (if limit <=? 0 then 10 else limit)
  ∧ Forall (λ r, DatabaseID r = databaseID ∧ ∃ id, scan_results w !! id = Some r) rows
  ∧ StronglySorted (λ r1 r2, StartedAt r2 ≤ StartedAt r1) rows
  ∧ ∀ id r, scan_results w !! id = Some r → DatabaseID r = databaseID →
      r ∈ rows
      ∨ (Z.of_nat (length rows) = (if limit <=? 0 then 10 else limit)
         ∧ Forall (λ r', StartedAt r ≤ StartedAt r') rows).
Proof.
  unfold GetScanHistory, wrapErr.
  set (n := if limit <=? 0 then 10 else limit).
  assert (Hn : 0 < n) by (subst n; destruct (Z.leb_spec limit 0); lia).
  pose proof (scanRepo_GetByDatabaseID_rows databaseID n w) as Hrows.
  destruct (scanRepo_GetByDatabaseID databaseID n w) as [wa [rows'|e]]; [|done].
  intros [= <- <-]. destruct (Hrows _ _ eq_refl) as [Hsame ->]. clear Hrows.
  set (l := filter _ _).
  pose proof (StronglySorted_merge_sort startedAfter l) as Hsorted.
  pose proof (merge_sort_Permutation startedAfter l) as Hperm.
  set (sorted := merge_sort startedAfter l) in *.
  rewrite <- (take_drop (Z.to_nat n) sorted) in Hsorted.
  split; [done|]. split; [rewrite length_take; lia|]. split; [|split].
  - apply Forall_forall. intros r Hr.
    assert (r ∈ l) as Hin.
    { rewrite <- Hperm, <- (take_drop (Z.to_nat n) sorted). apply elem_of_app. by left. }
    apply list_elem_of_filter in Hin as [Hdb Hin]. split; [done|].
    by apply stored_elem_of.
  - by apply StronglySorted_app_1_l in Hsorted.
  - intros id r Hr Hdb.
    assert (r ∈ sorted) as Hin.
    { rewrite Hperm. apply list_elem_of_filter. split; [done|].
      apply stored_elem_of. by exists id. }
    rewrite <- (take_drop (Z.to_nat n) sorted) in Hin.
    apply elem_of_app in Hin as [Hin|Hin]; [by left|]. right. split.
    + rewrite length_take.
      assert (Z.to_nat n < length sorted)%nat; [|lia].
      destruct (decide (Z.to_nat n < length sorted)%nat); [done|].
      rewrite drop_ge in Hin by lia. by apply elem_of_nil in Hin.
    + apply Forall_forall. intros r' Hr'.
      by apply (StronglySorted_app_1_elem_of _ _ _ r' r Hsorted).
Qed.

(** the row that [GetLatestByDatabaseID] selects *)
Lemma scanRepo_GetLatestByDatabaseID_cases databaseID w :
  scan_results (scanRepo_GetLatestByDatabaseID databaseID w).1 = scan_results w
  ∧ ((∃ e fs, db_faults w = Some e :: fs
              ∧ (scanRepo_GetLatestByDatabaseID databaseID w).2
                = inr ("failed to scan result: " ++ e))
     ∨ (scanRepo_GetLatestByDatabaseID databaseID w).2
       = match head (merge_sort startedAfter
                       (filter (λ r, DatabaseID r = databaseID
                                     ∧ Status r = ScanStatusCompleted)
                          (map_to_list (scan_results w)).*2)) with
         | Some r => inl r
         | None => inr "scan result not found"
         end).
Proof.
  unfold scanRepo_GetLatestByDatabaseID, statement.
  destruct (db_faults w) as [|[e|] fs]; simpl.
  - split; [by destruct (head _)|]. right. by destruct (head _).
  - split; [done|]. left. by exists e, fs.
  - split; [by destruct (head _)|]. right. by destruct (head _).
Qed.

(** X9. The scan that [GetLatestClassification] returns is a stored
    Completed scan of the database, and no stored Completed scan of the
    database started later; the call changes no row. When the database has
    no Completed scan, the store answering, the error is "failed to get
    latest classification: scan result not found". *)
Theorem X9_GetLatestClassification (databaseID : UUID) (w : World) :
  scan_results (GetLatestClassification databaseID w).1 = scan_results w
  ∧ (∀ r, (GetLatestClassification databaseID w).2 = inl r →
       DatabaseID r = databaseID ∧ Status r = ScanStatusCompleted
       ∧ (∃ id, scan_results w !! id = Some r)
       ∧ ∀ id r', scan_results w !! id = Some r' → DatabaseID r' = databaseID →
           Status r' = ScanStatusCompleted → StartedAt r' ≤ StartedAt r)
  ∧ (answered 1 w →
     (∀ id r, scan_results w !! id = Some r → DatabaseID r = databaseID →
        Status r ≠ ScanStatusCompleted) →
     (GetLatestClassification databaseID w).2
     = inr "failed to get latest classification: scan result not found").
Proof.
  unfold GetLatestClassification, wrapErr.
  destruct (scanRepo_GetLatestByDatabaseID_cases databaseID w) as [Hsame Hres].
  set (l := filter _ _) in Hres.
  pose proof (StronglySorted_merge_sort startedAfter l) as Hsorted.
  pose proof (merge_sort_Permutation startedAfter l) as Hperm.
  assert (Hl : ∀ r, r ∈ l ↔ (DatabaseID r = databaseID ∧ Status r = ScanStatusCompleted)
                           ∧ ∃ id, scan_results w !! id = Some r).
  { intros r. subst l. by rewrite list_elem_of_filter, stored_elem_of. }
  destruct (scanRepo_GetLatestByDatabaseID databaseID w) as [wa res]. simpl in *.
  split; [by destruct res|].
  destruct Hres as [(e & fs & Hf & ->) | ->].
  { split; [done|]. intros Hans. by destruct (answered_head w e fs Hans). }
  destruct (merge_sort startedAfter l) as [|best rest] eqn:Es; simpl.
  { split; [done|]. done. }
  assert (Hbest : best ∈ l) by (rewrite <- Hperm; by left).
  apply Hl in Hbest as [[Hdb Hst] Hstored].
  split.
  - intros r [= <-]. split; [done|]. split; [done|]. split; [done|].
    intros id r' Hr' Hdb' Hst'.
    assert (r' ∈ best :: rest) as Hin.
    { rewrite Hperm. apply Hl. eauto. }
    apply elem_of_cons in Hin as [->|Hin]; [lia|].
    apply StronglySorted_inv in Hsorted as [_ Hall].
    rewrite Forall_forall in Hall. by apply Hall.
  - intros _ Hnone. destruct Hstored as [id Hid].
    by destruct (Hnone id best Hid Hdb).
Qed.


(** ** [calculateRiskLevel] *)

Lemma calculateRiskLevel_counts (infoTypeCounts : gmap string Z) (totalColumns : Z) :
  calculateRiskLevel infoTypeCounts totalColumns
  = if totalColumns =? 0 then RiskLevelLow
    else calculateRiskLevel_decide
           (Int.wrap (count_of infoTypeCounts highRiskTypes))
           (Int.wrap (count_of infoTypeCounts mediumRiskTypes)) totalColumns.
Proof.
  unfold calculateRiskLevel, calculateRiskLevel_on.
  destruct (totalColumns =? 0); [done|].
  rewrite calculateRiskLevel_range_spec by done.
  rewrite (entry_sum_map_to_list _ _ NoDup_highRiskTypes).
  by rewrite (entry_sum_map_to_list _ _ NoDup_mediumRiskTypes).
Qed.

(** no share of nothing is above a positive threshold *)
Lemma share_of_none (total threshold : Z) :
  0 < threshold < 100 →
  gtb (mul (div (of_int 0) (of_int total)) (of_int 100)) (of_int threshold) = false.
Proof.
  intros Ht.
  assert (Hth : ∃ m e, of_int threshold = S754_finite false m e).
  { unfold of_int, binary_normalize. destruct threshold as [|p|p]; try lia.
    assert (p ∈ (Pos.of_nat <$> seq 1 99)) as Hp.
    { apply list_elem_of_fmap. exists (Pos.to_nat p). split; [lia|].
      apply elem_of_seq. lia. }
    vm_compute in Hp.
    repeat (apply elem_of_cons in Hp as [->|Hp]; [by eexists _, _; vm_compute|]).
    by apply elem_of_nil in Hp. }
  destruct Hth as (m & e & ->).
  change (of_int 0) with (S754_zero false).
  destruct (of_int total) as [s|s| |s m' e']; try done.
  all: unfold div, mul, gtb; simpl; by destruct s.
Qed.

(** X10. For a database with columns, with [high] and [medium] the
    counts that [calculateRiskLevel] sums for the high-risk and for the
    medium-risk information types: a positive [high] makes the level
    Critical or High; without it a positive [medium] makes the level High
    or Medium; and when both are 0 the level is Low, however many columns
    carry other information types. *)
Theorem X10_risk_level_follows_sensitive_counts (infoTypeCounts : gmap string Z)
    (totalColumns : Z) :
  totalColumns ≠ 0 →
  (0 < Int.wrap (count_of infoTypeCounts highRiskTypes) →
   calculateRiskLevel infoTypeCounts totalColumns = RiskLevelCritical
   ∨ calculateRiskLevel infoTypeCounts totalColumns = RiskLevelHigh)
  ∧ (Int.wrap (count_of infoTypeCounts highRiskTypes) ≤ 0 →
     0 < Int.wrap (count_of infoTypeCounts mediumRiskTypes) →
     calculateRiskLevel infoTypeCounts totalColumns = RiskLevelHigh
     ∨ calculateRiskLevel infoTypeCounts totalColumns = RiskLevelMedium)
  ∧ (Int.wrap (count_of infoTypeCounts highRiskTypes) = 0 →
     Int.wrap (count_of infoTypeCounts mediumRiskTypes) = 0 →
     calculateRiskLevel infoTypeCounts totalColumns = RiskLevelLow).
Proof.
  intros Hn. rewrite calculateRiskLevel_counts.
  rewrite (proj2 (Z.eqb_neq totalColumns 0) Hn).
  unfold calculateRiskLevel_decide.
  set (high := Int.wrap _). set (medium := Int.wrap _). set (pct := mul _ _).
  split; [|split].
  - intros Hh. rewrite (proj2 (Z.ltb_lt 0 high) Hh). cbn [andb orb].
    destruct (gtb pct (of_int 20)); auto.
  - intros Hh Hm. rewrite (proj2 (Z.ltb_ge 0 high) Hh), (proj2 (Z.ltb_lt 0 medium) Hm).
    cbn [andb orb]. destruct (gtb pct (of_int 15)); auto.
  - intros Hh Hm. subst pct. rewrite Hh, Hm. change (Int.add 0 0) with 0.
    rewrite !share_of_none by lia. done.
Qed.


(** ** The result tree and the summary of a scan *)

(** the columns of a result tree, schema by schema and table by table *)
Definition all_tables (schemaResults : list SchemaResult) : list TableResult :=
  schemaResults ≫= sr_Tables.

Definition all_columns (schemaResults : list SchemaResult) : list ColumnResult :=
  all_tables schemaResults ≫= tr_Columns.

(** how many of the columns carry the information type [t] *)
Definition type_count (t : string) (cols : list ColumnResult) : nat :=
  length (filter (λ col, col_InformationType col = t) cols).

(** how many of the columns are classified *)
Definition classified_count (cols : list ColumnResult) : nat :=
  length (filter (λ col, col_InformationType col ≠ InfoTypeNA) cols).

(** the counts of [performScan] when it has classified the columns [cols] *)
Definition tally (cols : list ColumnResult) (classified : Z) (counts : gmap string Z)
    : Prop :=
  classified = Int.wrap (Z.of_nat (classified_count cols))
  ∧ ∀ t, counts !! t
         = if decide (t = InfoTypeNA ∨ type_count t cols = 0%nat) then None
           else Some (Int.wrap (Z.of_nat (type_count t cols))).

(** the result of a column, given what [ClassifyColumn] answers *)
Definition column_result (ClassifyColumn : string → string * float64 * list string)
    (colInfo : MySQLColumnInfo) : ColumnResult :=
  let '(infoType, score, matched) := ClassifyColumn (ci_ColumnName colInfo) in
  {| col_ColumnName := ci_ColumnName colInfo;
     col_DataType := ci_DataType colInfo;
     col_InformationType := infoType;
     col_ConfidenceScore := score;
     col_MatchedPatterns := matched;
     col_IsNullable := ci_IsNullable colInfo;
     col_DefaultValue := ci_DefaultValue colInfo |}.

Lemma tally_nil : tally [] 0 ∅.
Proof.
  split; [done|]. intros t. rewrite lookup_empty.
  rewrite decide_True; [done|]. by right.
Qed.

Lemma type_count_snoc t cols col :
  type_count t (cols ++ [col])
  = (type_count t cols + if decide (col_InformationType col = t) then 1 else 0)%nat.
Proof.
  unfold type_count. rewrite filter_app, length_app, filter_cons, filter_nil.
  by destruct (decide _).
Qed.

Lemma classified_count_snoc cols col :
  classified_count (cols ++ [col])
  = (classified_count cols
     + if decide (col_InformationType col = InfoTypeNA) then 0 else 1)%nat.
Proof.
  unfold classified_count. rewrite filter_app, length_app, filter_cons, filter_nil.
  destruct (decide (col_InformationType col ≠ InfoTypeNA)) as [Hne|He].
  - by rewrite decide_False.
  - rewrite decide_True; [done|]. by destruct (decide (col_InformationType col = InfoTypeNA)).
Qed.

Lemma tally_snoc cols classified counts col :
  tally cols classified counts →
  tally (cols ++ [col])
    (if negb (String.eqb (col_InformationType col) InfoTypeNA)
     then Int.add classified 1 else classified)
    (if negb (String.eqb (col_InformationType col) InfoTypeNA)
     then <[col_InformationType col :=
              Int.add (default 0 (counts !! col_InformationType col)) 1]> counts
     else counts).
Proof.
  intros [Hcl Hcnt]. unfold tally. rewrite classified_count_snoc.
  destruct (String.eqb_spec (col_InformationType col) InfoTypeNA) as [Hna|Hna]; simpl.
  - rewrite decide_True by done. split; [by rewrite Nat.add_0_r|].
    intros t. rewrite Hcnt, type_count_snoc.
    destruct (decide (col_InformationType col = t)) as [<-|Hne].
    + rewrite !decide_True; [done|by left|by left].
    + by rewrite Nat.add_0_r.
  - rewrite decide_False by done. split.
    + rewrite Hcl. unfold Int.add. rewrite wrap_add_l. f_equal. lia.
    + intros t. rewrite type_count_snoc.
      destruct (decide (col_InformationType col = t)) as [<-|Hne].
      * rewrite lookup_insert_eq. rewrite decide_False by (intros [?|?]; [done|lia]).
        f_equal. rewrite Hcnt. unfold Int.add.
        destruct (decide _) as [[?|H0]|_]; simpl; [done| |].
        -- by rewrite H0.
        -- rewrite wrap_add_l. f_equal. lia.
      * rewrite lookup_insert_ne by done. rewrite Hcnt. by rewrite Nat.add_0_r.
Qed.

Section Body.
Variable sql_Open : string → Z → string → string → option string.
Variable server_Ping : string → Z → string → string → option string.
Variable server_schemas : list string + string.
Variable server_tables : string → list string + string.
Variable server_columns : string → string → list MySQLColumnInfo + string.
Variable Decrypt : string → string + string.
Variable ClassifyColumn : string → InformationType * float64 * list string.

Local Abbreviation performScan_columns := (performScan_columns ClassifyColumn).
Local Abbreviation performScan_tables := (performScan_tables server_columns ClassifyColumn).
Local Abbreviation performScan_schemas :=
  (performScan_schemas server_tables server_columns ClassifyColumn).
Local Abbreviation performScan_connected :=
  (performScan_connected server_schemas server_tables server_columns ClassifyColumn).
Local Abbreviation performScan :=
  (performScan sql_Open server_Ping server_schemas server_tables server_columns Decrypt
     ClassifyColumn).
Local Abbreviation StartScan_go :=
  (StartScan_go sql_Open server_Ping server_schemas server_tables server_columns Decrypt
     ClassifyColumn).

(** the result of a table is the table as the server describes it *)
Definition table_scanned (schemaName : string) (tableResult : TableResult) : Prop :=
  ∃ columns,
    server_columns schemaName (tr_TableName tableResult) = inl columns
    ∧ tr_Columns tableResult = column_result ClassifyColumn <$> columns.

Definition schema_scanned (schemaResult : SchemaResult) : Prop :=
  server_tables (sr_SchemaName schemaResult)
  = inl (tr_TableName <$> sr_Tables schemaResult)
  ∧ Forall (table_scanned (sr_SchemaName schemaResult)) (sr_Tables schemaResult).

Lemma performScan_columns_spec columns columnResults classified counts cols :
  tally cols classified counts →
  ∃ classified' counts',
    performScan_columns columns columnResults classified counts
    = (columnResults ++ (column_result ClassifyColumn <$> columns), classified', counts')%list
    ∧ tally (cols ++ (column_result ClassifyColumn <$> columns)) classified' counts'.
Proof.
  revert columnResults classified counts cols.
  induction columns as [|colInfo columns IH]; intros acc cl cnt cols Ht.
  { exists cl, cnt. simpl. by rewrite !app_nil_r. }
  pose proof (tally_snoc cols cl cnt (column_result ClassifyColumn colInfo) Ht) as Hs.
  rewrite fmap_cons. set (cr := column_result ClassifyColumn colInfo) in *.
  assert (Hcr : cr = column_result ClassifyColumn colInfo) by done.
  unfold column_result in Hcr. simpl.
  destruct (ClassifyColumn (ci_ColumnName colInfo)) as [[infoType score] matched].
  rewrite <- Hcr.
  assert (Hty : col_InformationType cr = infoType) by (by rewrite Hcr).
  rewrite Hty in Hs.
  destruct (negb (String.eqb infoType InfoTypeNA));
    destruct (IH (acc ++ [cr])%list _ _ _ Hs) as (cl' & cnt' & -> & Ht');
    exists cl', cnt'; by rewrite <- !app_assoc in *.
Qed.

Lemma performScan_tables_spec inspector schemaName tables tableResults c cols
    tableResults' c' :
  db inspector = true →
  tally cols (classifiedColumns c) (infoTypeCounts c) →
  totalColumns c = Int.wrap (Z.of_nat (length cols)) →
  performScan_tables inspector schemaName tables tableResults c = inl (tableResults', c') →
  ∃ new,
    tableResults' = (tableResults ++ new)%list
    ∧ tr_TableName <$> new = tables
    ∧ Forall (table_scanned schemaName) new
    ∧ tally (cols ++ (new ≫= tr_Columns)) (classifiedColumns c') (infoTypeCounts c')
    ∧ totalColumns c' = Int.wrap (Z.of_nat (length (cols ++ (new ≫= tr_Columns))))
    ∧ totalTables c' = totalTables c.
Proof.
  intros Hdb. revert tableResults c cols.
  induction tables as [|tableName tables IH]; intros acc c cols Ht Hc; simpl.
  { intros [= <- <-]. exists []. rewrite !app_nil_r.
    split; [done|]. split; [done|]. split; [constructor|]. done. }
  unfold GetTableInfo. rewrite Hdb. simpl.
  destruct (server_columns schemaName tableName) as [columns|e] eqn:Hcols; [|done].
  simpl.
  destruct (performScan_columns_spec columns [] (classifiedColumns c) (infoTypeCounts c)
              cols Ht) as (cl' & cnt' & -> & Ht').
  simpl. intros Hrun.
  apply (IH _ _ (cols ++ (column_result ClassifyColumn <$> columns))%list) in Hrun
    as (new & -> & Hnames & Hall & Htally & Htc & Htt); simpl; try done.
  - exists ({| tr_TableName := tableName;
              tr_Columns := column_result ClassifyColumn <$> columns |} :: new).
    rewrite <- app_assoc. simpl. rewrite <- !app_assoc in *.
    split; [done|]. split; [f_equal; exact Hnames|]. split; [|done].
    constructor; [|done]. by exists columns.
  - rewrite Hc. unfold Int.add. rewrite wrap_add_l, length_app, length_fmap.
    f_equal. lia.
Qed.

Lemma performScan_schemas_spec inspector schemas schemaResults c cols tables
    schemaResults' c' :
  db inspector = true →
  tally cols (classifiedColumns c) (infoTypeCounts c) →
  totalColumns c = Int.wrap (Z.of_nat (length cols)) →
  totalTables c = Int.wrap (Z.of_nat tables) →
  performScan_schemas inspector schemas schemaResults c = inl (schemaResults', c') →
  ∃ new,
    schemaResults' = (schemaResults ++ new)%list
    ∧ sr_SchemaName <$> new = schemas
    ∧ Forall schema_scanned new
    ∧ tally (cols ++ all_columns new) (classifiedColumns c') (infoTypeCounts c')
    ∧ totalColumns c' = Int.wrap (Z.of_nat (length (cols ++ all_columns new)))
    ∧ totalTables c' = Int.wrap (Z.of_nat (tables + length (all_tables new))).
Proof.
  intros Hdb. revert schemaResults c cols tables.
  induction schemas as [|schemaName schemas IH]; intros acc c cols n Ht Hc Hn; simpl.
  { intros [= <- <-]. exists []. unfold all_columns, all_tables. simpl.
    rewrite !app_nil_r, Nat.add_0_r.
    split; [done|]. split; [done|]. split; [constructor|]. done. }
  unfold GetTables. rewrite Hdb. simpl.
  destruct (server_tables schemaName) as [tables|e] eqn:Htables; [|done].
  destruct (performScan_tables inspector schemaName tables [] _)
    as [[tableResults c1]|e] eqn:Hrun; [|done].
  apply (performScan_tables_spec _ _ _ _ _ cols) in Hrun
    as (new & -> & Hnames & Hall & Htally & Htc & Htt); try done.
  simpl in *. intros Hrest.
  apply (IH _ _ (cols ++ (new ≫= tr_Columns))%list (n + length new)%nat) in Hrest
    as (news & -> & Hsn & Hsall & Hstally & Hstc & Hstt); try done.
  - exists ({| sr_SchemaName := schemaName; sr_Tables := new |} :: news).
    unfold all_columns, all_tables in *. simpl.
    rewrite bind_app, <- !app_assoc in *.
    split; [done|]. split; [f_equal; exact Hsn|]. split.
    { constructor; [|done]. split; simpl; [by rewrite Hnames|done]. }
    split; [exact Hstally|]. split; [exact Hstc|].
    rewrite Hstt, length_app, Nat.add_assoc. reflexivity.
  - rewrite Htt, Hn. unfold Int.add. rewrite wrap_add_l.
    rewrite <- Hnames, length_fmap. f_equal. lia.
Qed.

(** what a body that returns no error has done *)
Lemma performScan_done scanResult conn w w' :
  performScan scanResult conn w = (w', inl ()) →
  ∃ schemas schemaResults c endTime,
    server_schemas = inl schemas
    ∧ performScan_schemas {| db := true |} schemas []
        {| totalTables := 0; totalColumns := 0; classifiedColumns := 0;
           infoTypeCounts := ∅ |}
      = inl (schemaResults, c)
    ∧ scan_results w' !! ID scanResult
      = Some {| ID := ID scanResult; DatabaseID := DatabaseID scanResult;
                StartedAt := StartedAt scanResult;
                CompletedAt := Some endTime;
                Status := ScanStatusCompleted;
                ErrorMessage := ErrorMessage scanResult;
                Schemas := schemaResults;
                Summary :=
                  {| TotalSchemas := Z.of_nat (length schemas);
                     TotalTables := totalTables c;
                     TotalColumns := totalColumns c;
                     ClassifiedColumns := classifiedColumns c;
                     InformationTypesCounts := infoTypeCounts c;
                     RiskLevel_ := calculateRiskLevel (infoTypeCounts c) (totalColumns c);
                     DurationMilliseconds := endTime - clock w |} |}.
Proof.
  unfold ScanService.performScan, mbind, M_bind, wrapErr, pure, total, time_Now.
  simpl.
  destruct (scanRepo_UpdateStatus _ _ _ _) as [w2 [[]|e]]; simpl; [|done].
  destruct (Decrypt _) as [password|e]; simpl; [|done].
  unfold performScan_inspect, Connect, Close, NewMySQLInspector.
  destruct (sql_Open _ _ _ _) as [e|]; simpl; [done|].
  destruct (server_Ping _ _ _ _) as [e|]; simpl; [done|].
  unfold ScanService.performScan_connected, mbind, M_bind, wrapErr, pure, total, time_Now,
    GetSchemas.
  simpl.
  destruct server_schemas as [schemas|e]; simpl; [|done].
  destruct (ScanService.performScan_schemas _ _ _ _ _ _ _) as [[schemaResults c]|e] eqn:Hs;
    simpl; [|done].
  match goal with |- context [scanRepo_Update ?r ?w0] =>
    set (row := r); set (w0' := w0) end.
  assert (Hup : match scanRepo_Update row w0' with
                | (w3, inl _) => scan_results w3 !! ID scanResult = Some row
                | _ => True
                end).
  { unfold scanRepo_Update, statement.
    destruct (json_unsupported _); [done|].
    destruct (db_faults w0') as [|[e|] fs]; simpl; try done;
      destruct (scan_results w2 !! ID scanResult); simpl; try done;
      destruct (rowsAffected _ _); simpl; try done;
      by rewrite lookup_insert_eq. }
  destruct (scanRepo_Update row w0') as [w3 [[]|e]]; simpl; [|done].
  intros [= <-]. exists schemas, schemaResults, c, (clock w2).
  split; [done|]. split; [done|]. simpl.
  by rewrite (proj1 (dbConnRepo_UpdateLastScannedAt_frame _ _ _)).
Qed.

(** X11. When the body of a scan returns no error, the result tree stored
    for the scan mirrors the inspected server: one schema result for each
    schema that the server lists, in that order; in it one table result
    for each table of the schema, in order; and in it one column result for
    each column of the table, in order, with the name, the data type, the
    nullability and the default of the column, and the information type,
    the score and the matched patterns that [ClassifyColumn] gives for the
    name of the column. *)
Theorem X11_scan_tree_mirrors_server (scanResult : ScanResult)
    (conn : DatabaseConnection) (w w' : World) :
  performScan scanResult conn w = (w', inl ()) →
  ∃ r, scan_results w' !! ID scanResult = Some r
     ∧ server_schemas = inl (sr_SchemaName <$> Schemas r)
     ∧ Forall schema_scanned (Schemas r).
Proof.
  intros Hrun.
  destruct (performScan_done _ _ _ _ Hrun) as (schemas & tree & c & endTime & Hs & Hl & Hr).
  eexists. split; [exact Hr|]. simpl.
  apply (performScan_schemas_spec _ _ _ _ [] 0%nat) in Hl
    as (new & -> & Hnames & Hall & _); try done; [|apply tally_nil].
  simpl. split; [by rewrite Hs, Hnames|done].
Qed.

(** X12. When the body of a scan returns no error, the summary stored for
    the scan counts the stored result tree: [TotalSchemas] its schemas,
    [TotalTables] its tables, [TotalColumns] its columns,
    [ClassifiedColumns] its columns whose information type is not N/A, and
    [InformationTypesCounts] has, for each information type other than N/A
    that a column carries, the number of the columns that carry it, and no
    other key (the counts being Go [int]s); [RiskLevel] is
    [calculateRiskLevel] of these counts. *)
Theorem X12_scan_summary_counts_tree (scanResult : ScanResult)
    (conn : DatabaseConnection) (w w' : World) :
  performScan scanResult conn w = (w', inl ()) →
  ∃ r, scan_results w' !! ID scanResult = Some r
     ∧ TotalSchemas (Summary r) = Z.of_nat (length (Schemas r))
     ∧ TotalTables (Summary r) = Int.wrap (Z.of_nat (length (all_tables (Schemas r))))
     ∧ TotalColumns (Summary r) = Int.wrap (Z.of_nat (length (all_columns (Schemas r))))
     ∧ ClassifiedColumns (Summary r)
       = Int.wrap (Z.of_nat (classified_count (all_columns (Schemas r))))
     ∧ (∀ t, InformationTypesCounts (Summary r) !! t
             = if decide (t = InfoTypeNA ∨ type_count t (all_columns (Schemas r)) = 0%nat)
               then None
               else Some (Int.wrap (Z.of_nat (type_count t (all_columns (Schemas r))))))
     ∧ RiskLevel_ (Summary r)
       = calculateRiskLevel (InformationTypesCounts (Summary r)) (TotalColumns (Summary r)).
Proof.
  intros Hrun.
  destruct (performScan_done _ _ _ _ Hrun) as (schemas & tree & c & endTime & Hs & Hl & Hr).
  eexists. split; [exact Hr|]. simpl.
  apply (performScan_schemas_spec _ _ _ _ [] 0%nat) in Hl
    as (new & -> & Hnames & Hall & [Hcl Hcnt] & Htc & Htt); try done; [|apply tally_nil].
  simpl in *. rewrite <- Hnames, length_fmap. done.
Qed.

(** X13. The body of a scan does not read the status of its row: when it
    returns no error the row is Completed, with a completion time, and has
    the identifier, the database and the error message of the scan that
    [StartScan] created, whatever the row held when the body ran (a scan
    cancelled in the meantime ends Completed);
    the goroutine then writes nothing more, and the inspector's session is
    closed. *)
Theorem X13_completed_scan_overwrites_row (scanResult : ScanResult)
    (conn : DatabaseConnection) (w w' : World) :
  performScan scanResult conn w = (w', inl ()) →
  StartScan_go scanResult conn w = w'
  ∧ open_sessions w' = open_sessions w
  ∧ ∃ r endTime,
      scan_results w' !! ID scanResult = Some r
      ∧ Status r = ScanStatusCompleted ∧ CompletedAt r = Some endTime
      ∧ ID r = ID scanResult ∧ DatabaseID r = DatabaseID scanResult
      ∧ ErrorMessage r = ErrorMessage scanResult.
Proof.
  intros Hrun. split; [unfold ScanService.StartScan_go; by rewrite Hrun|].
  split.
  { pose proof (performScan_sessions sql_Open server_Ping server_schemas server_tables
                  server_columns Decrypt ClassifyColumn scanResult conn w) as Hs.
    by rewrite Hrun in Hs. }
  destruct (performScan_done _ _ _ _ Hrun) as (schemas & tree & c & endTime & Hs & Hl & Hr).
  eexists _, endTime. split; [exact Hr|]. done.
Qed.

End Body.

(** ** On the store and the server of the shop *)

(** the store when [uuid.New()] is going to return a fresh identifier *)
Definition store_fresh : World := set_uuids [2%positive] (store pending_scan []).

Lemma X5_StartScan_error_witness :
  database_connections (store pending_scan []) !! 99%N = None
  ∧ (StartScan 99%N (store pending_scan [])).1.2
    = inr "failed to get database connection: database connection not found"
  ∧ (StartScan 99%N (store pending_scan [])).2 = None
  ∧ scan_results (StartScan 99%N (store pending_scan [])).1.1
    = scan_results (store pending_scan []).
Proof.
  assert (H1 : database_connections (store pending_scan []) !! 99%N = None)
    by reflexivity.
  destruct (X5_StartScan_error 99%N (store pending_scan [])) as [Herr Hmissing].
  specialize (Hmissing H1 (answered_nil 1 (store pending_scan []) eq_refl)).
  split; [exact H1|]. split; [exact Hmissing|]. exact (Herr _ Hmissing).
Defined.

Lemma X6_StartScan_stores_pending_scan_witness :
  StartScan 7%N store_fresh
  = ((StartScan 7%N store_fresh).1.1, inl 2%N, (StartScan 7%N store_fresh).2)
  ∧ ∃ scanResult,
      scan_results (StartScan 7%N store_fresh).1.1 !! 2%N = Some scanResult
      ∧ Status scanResult = ScanStatusPending
      ∧ DatabaseID scanResult = 7%N
      ∧ ∃ r, (GetScanResult 2%N (StartScan 7%N store_fresh).1.1).2 = inl r
           ∧ Status r = ScanStatusPending.
Proof.
  assert (H : StartScan 7%N store_fresh
              = ((StartScan 7%N store_fresh).1.1, inl 2%N, (StartScan 7%N store_fresh).2))
    by (vm_compute; reflexivity).
  split; [exact H|].
  destruct (X6_StartScan_stores_pending_scan 7%N 2%N store_fresh _ _ H)
    as (scanResult & conn & _ & _ & _ & _ & Hrows & _ & Hdb & Hst & _ & _ & Hget).
  exists scanResult. split; [by rewrite Hrows, lookup_insert_eq|].
  split; [exact Hst|]. split; [exact Hdb|].
  destruct Hget as (r & Hr & _ & _ & Hpending).
  { apply answered_nil. vm_compute. reflexivity. }
  by exists r.
Defined.

Lemma X7_CancelScan_missing_or_cancelled_witness :
  (scan_results (store pending_scan []) !! 9%N = None
   ∧ (CancelScan 9%N (store pending_scan [])).2
     = inr "failed to get scan result: scan result not found")
  ∧ (scan_results (store pending_scan []) !! 1%N = Some pending_scan
     ∧ (CancelScan 1%N (CancelScan 1%N (store pending_scan [])).1).2
       = inr "scan cannot be cancelled, current status: cancelled"
     ∧ (CancelScan 1%N
          (scanRepo_UpdateStatus 1%N ScanStatusRunning ""
             (CancelScan 1%N (store pending_scan [])).1).1).2
       = inl ()).
Proof.
  assert (H1 : scan_results (store pending_scan []) !! 9%N = None) by reflexivity.
  assert (H2 : scan_results (store pending_scan []) !! 1%N = Some pending_scan)
    by reflexivity.
  split; (split; [done|]).
  - destruct (X7_CancelScan_missing_or_cancelled 9%N (store pending_scan []))
      as [Hmissing _].
    apply (Hmissing H1). by apply answered_nil.
  - destruct (X7_CancelScan_missing_or_cancelled 1%N (store pending_scan []))
      as (_ & Htwice & Hagain).
    split.
    + destruct (Htwice pending_scan H2) as (_ & Herr & _);
        [by left|by apply answered_nil|exact Herr].
    + destruct (Hagain pending_scan H2) as (_ & _ & Hok & _);
        [by left|by apply answered_nil|exact Hok].
Defined.

(** four scans, three of them of the database 7 *)
Definition scan_at (id databaseID : UUID) (startedAt : Time) : ScanResult :=
  {| ID := id; DatabaseID := databaseID; StartedAt := startedAt; CompletedAt := None;
     Status := ScanStatusPending; ErrorMessage := ""; Schemas := [];
     Summary := Summary pending_scan |}.

Definition history_store : World :=
  set_scan_results
    (λ _, {[ 1%N := scan_at 1 7 100; 2%N := scan_at 2 7 300; 3%N := scan_at 3 7 200;
             4%N := scan_at 4 8 400 ]})
    (store pending_scan []).

Lemma X8_GetScanHistory_newest_first_witness :
  GetScanHistory 7%N 2 history_store
  = (history_store, inl [scan_at 2 7 300; scan_at 3 7 200])
  ∧ StronglySorted (λ r1 r2, StartedAt r2 ≤ StartedAt r1) [scan_at 2 7 300; scan_at 3 7 200]
  ∧ Forall (λ r, DatabaseID r = 7%N ∧ ∃ id, scan_results history_store !! id = Some r)
      [scan_at 2 7 300; scan_at 3 7 200]
  ∧ scan_results history_store !! 1%N = Some (scan_at 1 7 100)
  ∧ Z.of_nat (length [scan_at 2 7 300; scan_at 3 7 200]) = 2
  ∧ Forall (λ r', StartedAt (scan_at 1 7 100) ≤ StartedAt r')
      [scan_at 2 7 300; scan_at 3 7 200].
Proof.
  assert (H : GetScanHistory 7%N 2 history_store
              = (history_store, inl [scan_at 2 7 300; scan_at 3 7 200]))
    by (vm_compute; reflexivity).
  assert (H1 : scan_results history_store !! 1%N = Some (scan_at 1 7 100))
    by reflexivity.
  destruct (X8_GetScanHistory_newest_first 7%N 2 _ _ _ H)
    as (_ & _ & Hstored & Hsorted & Hrest).
  split; [exact H|]. split; [exact Hsorted|]. split; [exact Hstored|].
  split; [exact H1|].
  destruct (Hrest 1%N (scan_at 1 7 100) H1 eq_refl) as [Hin|[Hlen Hall]].
  - exfalso. apply elem_of_cons in Hin as [Heq|Hin]; [discriminate Heq|].
    apply elem_of_cons in Hin as [Heq|Hin]; [discriminate Heq|].
    by apply elem_of_nil in Hin.
  - split; [exact Hlen|exact Hall].
Defined.

Lemma X9_GetLatestClassification_witness :
  ((GetLatestClassification 7%N (store completed_scan [])).2 = inl completed_scan
   ∧ Status completed_scan = ScanStatusCompleted)
  ∧ ((∀ id r, scan_results (store pending_scan []) !! id = Some r →
        DatabaseID r = 7%N → Status r ≠ ScanStatusCompleted)
     ∧ (GetLatestClassification 7%N (store pending_scan [])).2
       = inr "failed to get latest classification: scan result not found").
Proof.
  split.
  - assert (H : (GetLatestClassification 7%N (store completed_scan [])).2
                = inl completed_scan) by (vm_compute; reflexivity).
    split; [exact H|].
    destruct (X9_GetLatestClassification 7%N (store completed_scan []))
      as (_ & Hlatest & _).
    by destruct (Hlatest _ H) as (_ & Hst & _).
  - assert (H : ∀ id r, scan_results (store pending_scan []) !! id = Some r →
                  DatabaseID r = 7%N → Status r ≠ ScanStatusCompleted).
    { intros id r Hr _. unfold store in Hr. simpl in Hr.
      apply lookup_singleton_Some in Hr as [_ <-]. discriminate. }
    split; [exact H|].
    destruct (X9_GetLatestClassification 7%N (store pending_scan []))
      as (_ & _ & Hnone).
    apply Hnone; [by apply answered_nil|exact H].
Defined.

Lemma X10_risk_level_follows_sensitive_counts_witness :
  (10 ≠ 0 ∧ 0 < Int.wrap (count_of {[ InfoTypeSSN := 3 ]} highRiskTypes))
  ∧ (calculateRiskLevel {[ InfoTypeSSN := 3 ]} 10 = RiskLevelCritical
     ∨ calculateRiskLevel {[ InfoTypeSSN := 3 ]} 10 = RiskLevelHigh)
  ∧ calculateRiskLevel {[ InfoTypeFirstName := 10 ]} 10 = RiskLevelLow.
Proof.
  assert (H1 : 10 ≠ 0) by lia.
  assert (H2 : 0 < Int.wrap (count_of {[ InfoTypeSSN := 3 ]} highRiskTypes))
    by (vm_compute; reflexivity).
  split; [by split|]. split.
  - exact (proj1 (X10_risk_level_follows_sensitive_counts {[ InfoTypeSSN := 3 ]} 10 H1) H2).
  - apply (proj2 (proj2 (X10_risk_level_follows_sensitive_counts
                           {[ InfoTypeFirstName := 10 ]} 10 H1)));
      vm_compute; reflexivity.
Defined.

Lemma body_shop_done :
  body_shop accepting (store pending_scan [])
  = ((body_shop accepting (store pending_scan [])).1, inl ()).
Proof. vm_compute. reflexivity. Qed.

Lemma X11_scan_tree_mirrors_server_witness :
  ∃ r, scan_results (body_shop accepting (store pending_scan [])).1 !! 1%N = Some r
     ∧ sr_SchemaName <$> Schemas r = ["shop"]
     ∧ (col_ColumnName <$> all_columns (Schemas r)) = ["id"; "email"].
Proof.
  destruct (X11_scan_tree_mirrors_server opened accepting shop_schemas shop_tables shop_columns
              shop_Decrypt shop_Classify pending_scan shop_connection _ _ body_shop_done)
    as (r & Hr & Hs & Hall).
  exists r. split; [exact Hr|]. split; [by injection Hs|].
  vm_compute in Hr. injection Hr as <-. reflexivity.
Defined.

Lemma X12_scan_summary_counts_tree_witness :
  ∃ r, scan_results (body_shop accepting (store pending_scan [])).1 !! 1%N = Some r
     ∧ TotalColumns (Summary r) = Int.wrap (Z.of_nat (length (all_columns (Schemas r))))
     ∧ ClassifiedColumns (Summary r)
       = Int.wrap (Z.of_nat (classified_count (all_columns (Schemas r)))).
Proof.
  destruct (X12_scan_summary_counts_tree opened accepting shop_schemas shop_tables shop_columns
              shop_Decrypt shop_Classify pending_scan shop_connection _ _ body_shop_done)
    as (r & Hr & _ & _ & Hcols & Hcl & _).
  exists r. split; [exact Hr|]. split; [exact Hcols|exact Hcl].
Defined.

(** the store when the Pending scan of the shop has been cancelled *)
Definition store_cancelled : World := (CancelScan 1%N (store pending_scan [])).1.

Lemma body_shop_after_cancel :
  body_shop accepting store_cancelled = ((body_shop accepting store_cancelled).1, inl ()).
Proof. vm_compute. reflexivity. Qed.

Lemma X13_completed_scan_overwrites_row_witness :
  Status <$> scan_results store_cancelled !! 1%N = Some ScanStatusCancelled
  ∧ Status <$> scan_results (scan_shop accepting store_cancelled) !! 1%N
    = Some ScanStatusCompleted.
Proof.
  split; [reflexivity|].
  destruct (X13_completed_scan_overwrites_row opened accepting shop_schemas shop_tables
              shop_columns shop_Decrypt shop_Classify pending_scan shop_connection _ _
              body_shop_after_cancel)
    as (Hgo & _ & r & endTime & Hr & Hst & _).
  unfold scan_shop. rewrite Hgo. simpl in Hr. rewrite Hr. simpl. by rewrite Hst.
Defined.

End ScanLaws.

(* ===================================================================== *)
(** * The classification service: the patterns and the matcher *)

Module PatternLaws.

Import Float64 GoRegexp domain classifier PatternService.
Import GoSortFacts ClassifierFacts.

(** the next [n] statements are answered by the metadata database *)
Definition replies (n : nat) (w : World) : Prop :=
  ∀ i e, i < n → db_faults w !! i ≠ Some (Some e).

(** the world when the next statement has been answered *)
Definition next (w : World) : World :=
  match db_faults w with
  | [] => w
  | _ :: fs => set_db_faults fs w
  end.

(** the rows of the table *)
Definition rows (w : World) : list ClassificationPattern :=
  (map_to_list (classification_patterns w)).*2.

(** the active rows, as [GetActive] lists them *)
Definition active (w : World) : list ClassificationPattern :=
  merge_sort listedBefore (filter (λ p, cp_IsActive p = true) (rows w)).

Local Open Scope string_scope.

#[global] Instance listedBefore_total : Total listedBefore.
Proof. intros p1 p2. unfold listedBefore. lia. Qed.

#[global] Instance listedBefore_trans : Transitive listedBefore.
Proof. intros p1 p2 p3. unfold listedBefore. lia. Qed.

Lemma rows_elem_of w p : p ∈ rows w ↔ ∃ id, classification_patterns w !! id = Some p.
Proof.
  unfold rows. rewrite list_elem_of_fmap. split.
  - intros ([id p'] & -> & Hin). exists id. by apply elem_of_map_to_list.
  - intros [id Hid]. exists (id, p). split; [done|]. by apply elem_of_map_to_list.
Qed.

Lemma active_elem_of w p :
  p ∈ active w ↔ cp_IsActive p = true ∧ ∃ id, classification_patterns w !! id = Some p.
Proof.
  unfold active. rewrite merge_sort_Permutation, list_elem_of_filter.
  by rewrite rows_elem_of.
Qed.

Lemma replies_head w e fs : replies 1 w → db_faults w ≠ Some e :: fs.
Proof. intros H Heq. apply (H 0%nat e); [lia|]. by rewrite Heq. Qed.

Lemma replies_le n m w : (n ≤ m)%nat → replies m w → replies n w.
Proof. intros Hle H i e Hi. apply H. lia. Qed.

Lemma next_table w : classification_patterns (next w) = classification_patterns w.
Proof. unfold next. by destruct (db_faults w). Qed.

Lemma next_uuids w : uuids (next w) = uuids w.
Proof. unfold next. by destruct (db_faults w). Qed.

Lemma next_replies n w : replies (S n) w → replies n (next w).
Proof.
  intros H i e Hi. unfold next. destruct (db_faults w) as [|f fs] eqn:Hf.
  - rewrite Hf. by rewrite lookup_nil.
  - simpl. intros Hl. apply (H (S i) e); [lia|]. by rewrite Hf.
Qed.

Lemma statement_replies {A} (run : World → World * (A + string)) w :
  replies 1 w → statement run w = run (next w).
Proof.
  intros H. unfold statement, next.
  destruct (db_faults w) as [|[e|] fs] eqn:Hf; try done.
  by destruct (replies_head w e fs H).
Qed.

Lemma rows_next w : rows (next w) = rows w.
Proof. unfold rows. by rewrite next_table. Qed.

Lemma active_next w : active (next w) = active w.
Proof. unfold active. by rewrite rows_next. Qed.

Section Laws.
Variable same_text : string → string → bool.
Variable duplicate_entry : string → string.
Variable clientFoundRows : bool.
Variable Compile : string → Regexp + string.
Variable loadPatternSeeds : string → list patternSeed + string.

Local Abbreviation reloadMatcher := (reloadMatcher Compile).
Local Abbreviation CreatePattern := (CreatePattern same_text duplicate_entry Compile).
Local Abbreviation UpdatePattern :=
  (UpdatePattern same_text duplicate_entry clientFoundRows Compile).
Local Abbreviation DeletePattern := (DeletePattern Compile).
Local Abbreviation repo_Create := (repo_Create same_text duplicate_entry).
Local Abbreviation repo_ExistsByPattern := (repo_ExistsByPattern same_text).

(** some row of the table has the text, as the table compares texts *)
Definition text_stored (text : string) (w : World) : Prop :=
  ∃ id row, classification_patterns w !! id = Some row
            ∧ same_text (cp_Pattern row) text = true.

Lemma text_stored_existsb text w :
  existsb (λ row, same_text (cp_Pattern row) text) (rows w) = true ↔ text_stored text w.
Proof.
  rewrite existsb_exists. unfold text_stored. split.
  - intros (row & Hin & Hs). apply list_elem_of_In, rows_elem_of in Hin as [id Hid]. eauto.
  - intros (id & row & Hid & Hs). exists row. split; [|done].
    apply list_elem_of_In, rows_elem_of. eauto.
Qed.

Lemma repo_ExistsByPattern_frame text w :
  classification_patterns (repo_ExistsByPattern text w).1 = classification_patterns w.
Proof.
  unfold PatternService.repo_ExistsByPattern, statement.
  by destruct (db_faults w) as [|[e|] fs].
Qed.

Lemma repo_ExistsByPattern_replies text w :
  replies 1 w →
  repo_ExistsByPattern text w
  = (next w, inl (bool_decide (text_stored text w))).
Proof.
  intros H. unfold PatternService.repo_ExistsByPattern.
  rewrite statement_replies by done. f_equal. f_equal.
  fold (rows (next w)). rewrite rows_next.
  destruct (decide (text_stored text w)) as [Hs|Hs].
  - rewrite bool_decide_eq_true_2 by done. apply Z.ltb_lt.
    destruct Hs as (id & row & Hid & Hs).
    assert (row ∈ filter (λ row, same_text (cp_Pattern row) text = true) (rows w)) as Hin.
    { apply list_elem_of_filter. split; [done|]. apply rows_elem_of. eauto. }
    destruct (filter _ (rows w)); [by apply elem_of_nil in Hin|]. simpl. lia.
  - rewrite bool_decide_eq_false_2 by done. apply Z.ltb_ge.
    destruct (filter _ (rows w)) as [|row l] eqn:E; [done|].
    assert (row ∈ filter (λ row, same_text (cp_Pattern row) text = true) (rows w)) as Hin
      by (rewrite E; by left).
    apply list_elem_of_filter in Hin as [Hs' Hin]. apply rows_elem_of in Hin as [id Hid].
    destruct Hs. by exists id, row.
Qed.

Lemma repo_GetActive_frame w :
  classification_patterns (repo_GetActive w).1 = classification_patterns w.
Proof. unfold repo_GetActive, statement. by destruct (db_faults w) as [|[e|] fs]. Qed.

Lemma repo_GetActive_rows w w' patterns :
  repo_GetActive w = (w', inl patterns) → patterns = active w.
Proof.
  unfold repo_GetActive, statement, active, rows.
  destruct (db_faults w) as [|[e|] fs]; simpl; congruence.
Qed.

Lemma repo_GetActive_replies w : replies 1 w → repo_GetActive w = (next w, inl (active w)).
Proof.
  intros H. unfold repo_GetActive. rewrite statement_replies by done.
  fold (rows (next w)). fold (active (next w)). by rewrite active_next.
Qed.

(** the rules that [SetPatterns] has compiled *)
Lemma SetPatterns_compile_inv rules acc out :
  SetPatterns_compile Compile rules acc = inl out →
  ∃ compiled, out = (acc ++ compiled)%list ∧ Forall2 (compiled_from Compile) rules compiled.
Proof.
  revert acc. induction rules as [|rule rules IH]; intros acc; simpl.
  { intros [= <-]. exists []. by rewrite app_nil_r. }
  destruct (Compile (cp_Pattern rule)) as [re|e] eqn:Hre; [|done].
  intros H. apply IH in H as (compiled & -> & HF).
  eexists (_ :: compiled). rewrite <- app_assoc. split; [done|].
  constructor; [|done]. by repeat split.
Qed.

(** a reload that returns an error leaves the service as it was *)
Lemma refreshClassifier_error s rules s' err :
  ClassificationService.refreshClassifier Compile s rules = (s', Some err) → s' = s.
Proof.
  unfold ClassificationService.refreshClassifier, NewClassifier, SetPatterns.
  destruct (SetPatterns_compile Compile rules []); simpl; congruence.
Qed.

Lemma refreshClassifier_bad s rules :
  (∃ rule, rule ∈ rules ∧ ∃ e, Compile (cp_Pattern rule) = inr e) →
  ∃ err, ClassificationService.refreshClassifier Compile s rules = (s, Some err).
Proof.
  intros Hbad. destruct (first_bad Compile rules Hbad) as (pre & bad & post & e & -> & Hpre & He).
  unfold ClassificationService.refreshClassifier, NewClassifier, SetPatterns.
  rewrite (SetPatterns_compile_bad Compile pre bad post e [] Hpre He). eauto.
Qed.

Lemma refreshClassifier_done s rules s' :
  ClassificationService.refreshClassifier Compile s rules = (s', None) →
  ∃ compiled,
    Forall2 (compiled_from Compile) rules compiled
    ∧ s' = {| ClassificationService.matcher :=
                Some {| patterns := GoSort.Slice byPriority compiled |} |}.
Proof.
  unfold ClassificationService.refreshClassifier, NewClassifier, SetPatterns.
  destruct (SetPatterns_compile Compile rules []) as [out|e] eqn:Hc; simpl; [|done].
  intros [= <-]. apply SetPatterns_compile_inv in Hc as (compiled & -> & HF).
  by exists compiled.
Qed.

Lemma reloadMatcher_frame s w :
  classification_patterns (reloadMatcher s w).1.2 = classification_patterns w.
Proof.
  unfold PatternService.reloadMatcher.
  pose proof (repo_GetActive_frame w) as Hf.
  destruct (repo_GetActive w) as [w' [patterns|e]]; simpl in *; [|done].
  by destruct (ClassificationService.refreshClassifier Compile s patterns).
Qed.

Lemma reloadMatcher_error s w err :
  (reloadMatcher s w).2 = Some err → (reloadMatcher s w).1.1 = s.
Proof.
  unfold PatternService.reloadMatcher.
  destruct (repo_GetActive w) as [w' [patterns|e]]; simpl; [|done].
  pose proof (refreshClassifier_error s patterns) as Hr.
  destruct (ClassificationService.refreshClassifier Compile s patterns) as [s' [e|]];
    simpl; [|done].
  intros _. by eapply Hr.
Qed.

Lemma reloadMatcher_done s w :
  (reloadMatcher s w).2 = None →
  ∃ compiled,
    Forall2 (compiled_from Compile) (active w) compiled
    ∧ (reloadMatcher s w).1.1
      = {| ClassificationService.matcher :=
             Some {| patterns := GoSort.Slice byPriority compiled |} |}.
Proof.
  unfold PatternService.reloadMatcher.
  pose proof (repo_GetActive_rows w) as Hrows.
  destruct (repo_GetActive w) as [w' [patterns|e]]; simpl; [|done].
  rewrite <- (Hrows _ _ eq_refl).
  pose proof (refreshClassifier_done s patterns) as Hr.
  destruct (ClassificationService.refreshClassifier Compile s patterns) as [s' [e|]];
    simpl; [done|].
  intros _. by apply Hr.
Qed.

(** an active row whose text does not compile *)
Definition poisoned (w : World) : Prop :=
  ∃ id row e, classification_patterns w !! id = Some row
              ∧ cp_IsActive row = true ∧ Compile (cp_Pattern row) = inr e.

Lemma reloadMatcher_poisoned s w :
  poisoned w → (reloadMatcher s w).1.1 = s ∧ is_Some (reloadMatcher s w).2.
Proof.
  intros (id & row & e & Hid & Hact & He).
  unfold PatternService.reloadMatcher.
  pose proof (repo_GetActive_rows w) as Hrows.
  destruct (repo_GetActive w) as [w' [patterns|e']]; simpl; [|by eauto].
  rewrite (Hrows _ _ eq_refl).
  destruct (refreshClassifier_bad s (active w)) as [err ->]; [|by eauto].
  exists row. split; [|by eauto]. apply active_elem_of. eauto.
Qed.


Lemma uuid_New_table w :
  classification_patterns (uuid_New w).1 = classification_patterns w
  ∧ db_faults (uuid_New w).1 = db_faults w
  ∧ clock (uuid_New w).1 = clock w.
Proof. unfold uuid_New. by destruct (uuids w). Qed.

Lemma next_clock w : clock (next w) = clock w.
Proof. unfold next. by destruct (db_faults w). Qed.

Lemma uuid_New_next w : (uuid_New (next w)).2 = (uuid_New w).2.
Proof. unfold uuid_New. rewrite next_uuids. by destruct (uuids w). Qed.

Lemma replies_same n w w' : db_faults w' = db_faults w → replies n w → replies n w'.
Proof. intros Heq H i e Hi. rewrite Heq. by apply H. Qed.

Lemma text_stored_same text w w' :
  classification_patterns w' = classification_patterns w →
  text_stored text w' ↔ text_stored text w.
Proof. intros Heq. unfold text_stored. by rewrite Heq. Qed.

Lemma repo_Create_replies pattern w :
  replies 1 w →
  classification_patterns w !! cp_ID pattern = None →
  ¬ text_stored (cp_Pattern pattern) w →
  repo_Create pattern w
  = (set_classification_patterns (insert (cp_ID pattern) pattern) (next w), inl ()).
Proof.
  intros H Hid Hnew. unfold PatternService.repo_Create.
  rewrite statement_replies by done. rewrite next_table, Hid.
  fold (rows w).
  destruct (existsb _ (rows w)) eqn:E; [|done].
  by apply text_stored_existsb in E.
Qed.

Lemma repo_Create_cases pattern w :
  (∃ e, (repo_Create pattern w).2 = inr e
        ∧ classification_patterns (repo_Create pattern w).1 = classification_patterns w)
  ∨ ((repo_Create pattern w).2 = inl ()
     ∧ classification_patterns w !! cp_ID pattern = None
     ∧ classification_patterns (repo_Create pattern w).1
       = <[cp_ID pattern := pattern]> (classification_patterns w)).
Proof.
  unfold PatternService.repo_Create, statement.
  destruct (db_faults w) as [|[e|] fs]; simpl;
    destruct (classification_patterns w !! cp_ID pattern) eqn:Hid; simpl; eauto;
    destruct (existsb _ _); simpl; eauto.
Qed.

(** ** [CreatePattern] *)

(** the row that [CreatePattern] writes *)
Definition created (id : UUID) (req : CreatePatternRequest) (now : Time)
    : ClassificationPattern :=
  {| cp_ID := id; cp_InformationType := req_InformationType req;
     cp_Pattern := req_Pattern req; cp_Description := req_Description req;
     cp_Priority := req_Priority req; cp_IsActive := true;
     cp_CreatedAt := now; cp_UpdatedAt := now |}.

(** X14. [CreatePattern] with a text that the table already holds, the
    store answering, returns "pattern already exists" and changes neither
    the table nor the matcher. *)
Theorem X14_CreatePattern_existing_text (s : ClassificationService.ClassificationService)
    (req : CreatePatternRequest) (w : World) :
  text_stored (req_Pattern req) w → replies 1 w →
  (CreatePattern s req w).2 = inr "pattern already exists"
  ∧ (CreatePattern s req w).1.1 = s
  ∧ classification_patterns (CreatePattern s req w).1.2 = classification_patterns w.
Proof.
  intros Hs H. unfold PatternService.CreatePattern.
  rewrite repo_ExistsByPattern_replies by done.
  rewrite bool_decide_eq_true_2 by done. simpl. by rewrite next_table.
Qed.

(** X15. [CreatePattern] stores the pattern before its text is compiled:
    with a text that is new to the table and does not compile, the store
    answering, the row is written and active, the call returns an error,
    and the matcher stays as it was. *)
Theorem X15_CreatePattern_stores_before_compiling
    (s : ClassificationService.ClassificationService) (req : CreatePatternRequest)
    (w : World) (e : string) :
  ¬ text_stored (req_Pattern req) w →
  classification_patterns w !! (uuid_New w).2 = None →
  Compile (req_Pattern req) = inr e →
  replies 3 w →
  (∃ err, (CreatePattern s req w).2 = inr err)
  ∧ (CreatePattern s req w).1.1 = s
  ∧ classification_patterns (CreatePattern s req w).1.2
    = <[(uuid_New w).2 := created (uuid_New w).2 req (clock w)]>
        (classification_patterns w)
  ∧ poisoned (CreatePattern s req w).1.2.
Proof.
  intros Hnew Hfresh He H. unfold PatternService.CreatePattern.
  rewrite repo_ExistsByPattern_replies by (by eapply replies_le; [|done]; lia).
  rewrite bool_decide_eq_false_2 by done.
  pose proof (uuid_New_next w) as Hid.
  pose proof (uuid_New_table (next w)) as (Htab & Hfaults & Hclock).
  destruct (uuid_New (next w)) as [w1 id]. simpl in *. subst id.
  set (id := (uuid_New w).2) in *.
  unfold time_Now. simpl.
  set (w2 := {| classification_patterns := _ |}).
  rewrite next_clock in Hclock.
  assert (H2 : replies 2 w2).
  { apply (replies_same 2 (next w)); [done|]. by apply next_replies. }
  rewrite repo_Create_replies; simpl; first last.
  - rewrite text_stored_same; [done|]. subst w2. simpl. by rewrite Htab, next_table.
  - subst w2. simpl. by rewrite Htab, next_table.
  - by eapply replies_le; [|done]; lia.
  - set (w3 := set_classification_patterns _ _).
    assert (Hp : poisoned w3).
    { exists id, (created id req (clock w1)), e. subst w3. simpl.
      by rewrite lookup_insert_eq. }
    destruct (reloadMatcher_poisoned s w3 Hp) as [Hs [err Herr]].
    pose proof (reloadMatcher_frame s w3) as Hf.
    destruct (reloadMatcher s w3) as [[s' w4] res]. simpl in Hs, Herr, Hf. subst s' res.
    split; [by eauto|]. split; [done|]. simpl. split.
    + rewrite Hf. subst w3. simpl. rewrite next_table. subst w2. simpl.
      by rewrite Htab, next_table, Hclock.
    + destruct Hp as (id' & row & e' & Hid' & Hact & He').
      exists id', row, e'. split; [by rewrite Hf|done].
Qed.

(** ** [DeletePattern] and a text that does not compile *)

Lemma repo_Delete_cases id w :
  (∃ e, (repo_Delete id w).2 = inr e
        ∧ classification_patterns (repo_Delete id w).1 = classification_patterns w)
  ∨ ((repo_Delete id w).2 = inl ()
     ∧ is_Some (classification_patterns w !! id)
     ∧ classification_patterns (repo_Delete id w).1
       = delete id (classification_patterns w)).
Proof.
  unfold repo_Delete, statement.
  destruct (db_faults w) as [|[e|] fs]; simpl;
    destruct (classification_patterns w !! id) eqn:Hid; simpl; eauto.
Qed.

Lemma repo_Delete_replies id w :
  replies 1 w →
  repo_Delete id w
  = match classification_patterns w !! id with
    | None => (next w, inr "classification pattern not found")
    | Some _ => (set_classification_patterns (delete id) (next w), inl ())
    end.
Proof.
  intros H. unfold repo_Delete. rewrite statement_replies by done.
  rewrite next_table. by destruct (classification_patterns w !! id).
Qed.

(** X16. While the table holds an active pattern whose text does not
    compile, the matcher cannot be reloaded: [reloadMatcher] returns an
    error and leaves the service as it was, and so does [DeletePattern] of
    any other pattern, although, the pattern being stored and the store
    answering, it has deleted the row. *)
Theorem X16_bad_pattern_blocks_reload (s : ClassificationService.ClassificationService)
    (w : World) (bad : UUID) (row : ClassificationPattern) (e : string) :
  classification_patterns w !! bad = Some row →
  cp_IsActive row = true →
  Compile (cp_Pattern row) = inr e →
  ((reloadMatcher s w).1.1 = s ∧ is_Some (reloadMatcher s w).2)
  ∧ ∀ id, id ≠ bad →
      (DeletePattern s id w).1.1 = s
      ∧ is_Some (DeletePattern s id w).2
      ∧ (is_Some (classification_patterns w !! id) → replies 1 w →
         classification_patterns (DeletePattern s id w).1.2
         = delete id (classification_patterns w)).
Proof.
  intros Hbad Hact He. split.
  { apply reloadMatcher_poisoned. by exists bad, row, e. }
  intros id Hne. unfold PatternService.DeletePattern.
  pose proof (repo_Delete_replies id w) as Hrep.
  destruct (repo_Delete_cases id w) as [(e' & Herr & Hsame)|(Hok & Hsome & Hdel)].
  - destruct (repo_Delete id w) as [w1 res]. simpl in *. subst res.
    split; [done|]. split; [by eauto|]. intros [old Hold] H.
    rewrite Hold in Hrep. by specialize (Hrep H).
  - destruct (repo_Delete id w) as [w1 res]. simpl in *. subst res.
    assert (Hp : poisoned w1).
    { exists bad, row, e. by rewrite Hdel, lookup_delete_ne. }
    destruct (reloadMatcher_poisoned s w1 Hp) as [Hs Herr].
    pose proof (reloadMatcher_frame s w1) as Hf.
    destruct (reloadMatcher s w1) as [[s' w2] res]. simpl in *.
    split; [done|]. split; [done|]. intros _ _. by rewrite Hf.
Qed.

(** X17. [DeletePattern] of an identifier that the table does not hold,
    the store answering, returns "classification pattern not found" and
    changes nothing. When [DeletePattern] returns no error, the row is
    gone and the matcher holds the remaining active patterns, compiled and
    sorted. *)
Theorem X17_DeletePattern (s : ClassificationService.ClassificationService)
    (id : UUID) (w : World) :
  (classification_patterns w !! id = None → replies 1 w →
   (DeletePattern s id w).2 = Some "classification pattern not found"
   ∧ (DeletePattern s id w).1.1 = s
   ∧ classification_patterns (DeletePattern s id w).1.2 = classification_patterns w)
  ∧ ((DeletePattern s id w).2 = None →
     is_Some (classification_patterns w !! id)
     ∧ classification_patterns (DeletePattern s id w).1.2
       = delete id (classification_patterns w)
     ∧ ∃ compiled,
         Forall2 (compiled_from Compile) (active (DeletePattern s id w).1.2) compiled
         ∧ (DeletePattern s id w).1.1
           = {| ClassificationService.matcher :=
                  Some {| patterns := GoSort.Slice byPriority compiled |} |}).
Proof.
  unfold PatternService.DeletePattern. split.
  - intros Hnone H. rewrite repo_Delete_replies, Hnone by done. simpl.
    by rewrite next_table.
  - destruct (repo_Delete_cases id w) as [(e' & Herr & Hsame)|(Hok & Hsome & Hdel)];
      destruct (repo_Delete id w) as [w1 res]; simpl in *; subst res; [done|].
    pose proof (reloadMatcher_frame s w1) as Hf.
    pose proof (reloadMatcher_done s w1) as Hdone.
    destruct (reloadMatcher s w1) as [[s' w2] res]. simpl in *.
    intros ->. split; [done|]. split; [by rewrite Hf|].
    destruct (Hdone eq_refl) as (compiled & HF & ->). exists compiled. split; [|done].
    assert (active w2 = active w1) as ->; [|done].
    unfold active, rows. by rewrite Hf.
Qed.

(** ** A created pattern is in use at once *)

Lemma Forall2_compiled_from_elem rules compiled rule :
  Forall2 (compiled_from Compile) rules compiled → rule ∈ rules →
  ∃ p, p ∈ compiled ∧ compiled_from Compile rule p.
Proof.
  induction 1 as [|r p rules compiled Hrp _ IH]; intros Hin.
  { by apply elem_of_nil in Hin. }
  apply elem_of_cons in Hin as [->|Hin].
  - exists p. split; [by left|done].
  - destruct (IH Hin) as (q & Hq & Hc). exists q. split; [by right|done].
Qed.

(** a pattern of the snapshot that matches the name is among the matched
    patterns *)
Lemma ClassifyColumn_lists_match TrimSpace ToLower (c : Classifier) (p : Pattern)
    (columnName : string) :
  columnName ≠ "" → p ∈ patterns c →
  MatchString (regex p) (ToLower (TrimSpace columnName)) = true →
  Pattern_ p ∈ MatchedPatterns (ClassifyColumn TrimSpace ToLower c columnName).
Proof.
  intros Hne Hp Hm. rewrite (ClassifyColumn_unfold TrimSpace ToLower c columnName Hne).
  set (n := ToLower (TrimSpace columnName)) in *.
  assert (Hin : {| pattern := p; score := calculateConfidenceScore n p |}
                ∈ matches_of (patterns c) n).
  { unfold matches_of. apply list_elem_of_fmap. exists p. split; [done|].
    by apply list_elem_of_filter. }
  destruct (matches_of (patterns c) n) as [|first ms] eqn:E.
  { by apply elem_of_nil in Hin. }
  rewrite <- E in *. cbn zeta. simpl.
  apply list_elem_of_fmap. eexists. split; [|by rewrite Slice_perm]. done.
Qed.

(** X18. When [CreatePattern] returns an identifier, the row of the
    pattern has been added under it, active, with the fields of the
    request; the matcher holds the active patterns of the table, compiled
    and sorted; and from then on [ClassifyColumn] lists the text of the
    pattern among the matched patterns of every name, other than the empty
    one, whose normalized form the pattern matches. *)
Theorem X18_CreatePattern_takes_effect (s s' : ClassificationService.ClassificationService)
    (req : CreatePatternRequest) (w w' : World) (id : UUID) :
  CreatePattern s req w = (s', w', inl id) →
  ∃ now compiled,
    classification_patterns w !! id = None
    ∧ classification_patterns w' = <[id := created id req now]> (classification_patterns w)
    ∧ Forall2 (compiled_from Compile) (active w') compiled
    ∧ s' = {| ClassificationService.matcher :=
                Some {| patterns := GoSort.Slice byPriority compiled |} |}
    ∧ ∀ (TrimSpace ToLower : string → string) (columnName : string) (re : Regexp),
        columnName ≠ "" →
        Compile (req_Pattern req) = inl re →
        MatchString re (ToLower (TrimSpace columnName)) = true →
        req_Pattern req
        ∈ (ClassificationService.ClassifyColumn TrimSpace ToLower s' columnName).2.
Proof.
  unfold PatternService.CreatePattern.
  pose proof (repo_ExistsByPattern_frame (req_Pattern req) w) as He.
  destruct (repo_ExistsByPattern (req_Pattern req) w) as [w1 [[]|e]]; simpl in *; try done.
  pose proof (uuid_New_table w1) as (Htab & _ & _).
  destruct (uuid_New w1) as [w2 id']. simpl in *. unfold time_Now. simpl.
  set (w3 := {| classification_patterns := _ |}).
  set (row := {| cp_ID := id' |}).
  destruct (repo_Create_cases row w3) as [(e & Herr & _)|(Hok & Hnone & Hins)];
    destruct (repo_Create row w3) as [w4 res]; simpl in *; subst res; [done|].
  pose proof (reloadMatcher_frame s w4) as Hf.
  pose proof (reloadMatcher_done s w4) as Hdone.
  destruct (reloadMatcher s w4) as [[s1 w5] res]. simpl in *.
  destruct res as [e|]; [done|]. intros [= <- <- <-].
  destruct (Hdone eq_refl) as (compiled & HF & ->).
  assert (Htable : classification_patterns w5
                   = <[id' := row]> (classification_patterns w)).
  { by rewrite Hf, Hins, Htab, He. }
  assert (Hact : active w5 = active w4) by (unfold active, rows; by rewrite Hf).
  exists (clock w2), compiled.
  split; [by rewrite <- He, <- Htab|]. split; [done|].
  split; [by rewrite Hact|]. split; [done|].
  intros TrimSpace ToLower columnName re Hne Hre Hm.
  assert (Hrow : row ∈ active w4).
  { apply active_elem_of. split; [done|]. exists id'.
    by rewrite Hins, lookup_insert_eq. }
  destruct (Forall2_compiled_from_elem _ _ _ HF Hrow) as (p & Hp & _ & Htext & _ & _ & Hc).
  simpl in Htext, Hc. rewrite Hre in Hc. injection Hc as ->.
  unfold ClassificationService.ClassifyColumn. simpl. rewrite <- Htext.
  apply ClassifyColumn_lists_match; [done| |done].
  simpl. by rewrite Slice_perm.
Qed.

(** ** [UpdatePattern] *)

Lemma repo_GetByID_cases id w :
  classification_patterns (repo_GetByID id w).1 = classification_patterns w
  ∧ ∀ pattern, (repo_GetByID id w).2 = inl pattern →
      classification_patterns w !! id = Some pattern.
Proof.
  unfold repo_GetByID, statement.
  destruct (db_faults w) as [|[e|] fs]; simpl;
    destruct (classification_patterns w !! id); simpl; split; congruence.
Qed.

Lemma repo_GetByID_missing id w :
  classification_patterns w !! id = None → replies 1 w →
  repo_GetByID id w = (next w, inr "classification pattern not found").
Proof.
  intros Hnone H. unfold repo_GetByID. rewrite statement_replies by done.
  by rewrite next_table, Hnone.
Qed.

Lemma repo_Update_cases pattern w :
  (∃ e, (repo_Update same_text duplicate_entry clientFoundRows pattern w).2 = inr e)
  ∨ ((repo_Update same_text duplicate_entry clientFoundRows pattern w).2 = inl ()
     ∧ ∃ row,
         classification_patterns w !! cp_ID pattern = Some row
         ∧ classification_patterns
             (repo_Update same_text duplicate_entry clientFoundRows pattern w).1
           = <[cp_ID pattern :=
                 {| cp_ID := cp_ID row;
                    cp_InformationType := cp_InformationType pattern;
                    cp_Pattern := cp_Pattern pattern;
                    cp_Description := cp_Description pattern;
                    cp_Priority := cp_Priority pattern;
                    cp_IsActive := cp_IsActive pattern;
                    cp_CreatedAt := cp_CreatedAt row;
                    cp_UpdatedAt := cp_UpdatedAt pattern |}]>
               (classification_patterns w)).
Proof.
  unfold repo_Update, statement.
  destruct (db_faults w) as [|[e|] fs]; simpl;
    destruct (classification_patterns w !! cp_ID pattern) as [row|] eqn:Hid; simpl;
    eauto;
    destruct (existsb _ _); simpl; eauto;
    destruct (_ || _); simpl; eauto.
Qed.

(** every row is stored under its identifier *)
Definition keyed (w : World) : Prop :=
  ∀ id row, classification_patterns w !! id = Some row → cp_ID row = id.

(** X19. [UpdatePattern] of an identifier that the table does not hold,
    the store answering, returns "classification pattern not found" and
    changes nothing. When [UpdatePattern] returns no error, the row under
    the identifier has the fields of the request and is active, whether or
    not it was before, and keeps its creation time; the matcher holds the
    active patterns of the table, compiled and sorted. *)
Theorem X19_UpdatePattern (s : ClassificationService.ClassificationService)
    (id : UUID) (req : CreatePatternRequest) (w : World) :
  (classification_patterns w !! id = None → replies 1 w →
   (UpdatePattern s id req w).2 = Some "classification pattern not found"
   ∧ (UpdatePattern s id req w).1.1 = s
   ∧ classification_patterns (UpdatePattern s id req w).1.2 = classification_patterns w)
  ∧ (keyed w → (UpdatePattern s id req w).2 = None →
     ∃ old row,
       classification_patterns w !! id = Some old
       ∧ classification_patterns (UpdatePattern s id req w).1.2
         = <[id := row]> (classification_patterns w)
       ∧ cp_InformationType row = req_InformationType req
       ∧ cp_Pattern row = req_Pattern req
       ∧ cp_Description row = req_Description req
       ∧ cp_Priority row = req_Priority req
       ∧ cp_IsActive row = true
       ∧ cp_CreatedAt row = cp_CreatedAt old
       ∧ ∃ compiled,
           Forall2 (compiled_from Compile) (active (UpdatePattern s id req w).1.2) compiled
           ∧ (UpdatePattern s id req w).1.1
             = {| ClassificationService.matcher :=
                    Some {| patterns := GoSort.Slice byPriority compiled |} |}).
Proof.
  unfold PatternService.UpdatePattern. split.
  - intros Hnone H. rewrite repo_GetByID_missing by done. simpl. by rewrite next_table.
  - intros Hkeyed. destruct (repo_GetByID_cases id w) as [Htab Hfound].
    destruct (repo_GetByID id w) as [w1 [old|e]]; simpl in *; [|done].
    specialize (Hfound old eq_refl). unfold time_Now. simpl.
    set (w2 := {| classification_patterns := _ |}).
    set (pattern := {| cp_ID := cp_ID old |}).
    destruct (repo_Update_cases pattern w2) as [[e Herr]|(Hok & row & Hrow & Hup)];
      destruct (repo_Update _ _ _ pattern w2) as [w3 res]; simpl in *; subst res; [done|].
    pose proof (reloadMatcher_frame s w3) as Hf.
    pose proof (reloadMatcher_done s w3) as Hdone.
    destruct (reloadMatcher s w3) as [[s1 w4] res]. simpl in *.
    intros ->. destruct (Hdone eq_refl) as (compiled & HF & ->).
    rewrite (Hkeyed id old Hfound) in Hrow, Hup.
    rewrite Htab, Hfound in Hrow. injection Hrow as <-.
    eexists old, _. split; [done|]. split; [by rewrite Hf, Hup, Htab|].
    simpl. do 6 (split; [done|]).
    exists compiled. split; [|done].
    assert (active w4 = active w3) as ->; [|done].
    unfold active, rows. by rewrite Hf.
Qed.

(** ** [ensurePatterns] and [GetAllPatterns] *)

(** X20. When the table holds an active pattern, or when no path of
    default patterns is given, [ensurePatterns] does not consult the file of
    default patterns and writes nothing to the table. *)
Theorem X20_ensurePatterns_without_seeding
    (s : ClassificationService.ClassificationService) (defaultPatternsPath : string)
    (w : World) :
  (∃ id row, classification_patterns w !! id = Some row ∧ cp_IsActive row = true)
  ∨ defaultPatternsPath = "" →
  classification_patterns
    (ensurePatterns same_text duplicate_entry Compile loadPatternSeeds s
       defaultPatternsPath w).1.2
  = classification_patterns w
  ∧ ∀ otherSeeds : string → list patternSeed + string,
      ensurePatterns same_text duplicate_entry Compile otherSeeds s defaultPatternsPath w
      = ensurePatterns same_text duplicate_entry Compile loadPatternSeeds s
          defaultPatternsPath w.
Proof.
  intros Hcase. unfold ensurePatterns.
  pose proof (repo_GetActive_frame w) as Hf.
  pose proof (repo_GetActive_rows w) as Hrows.
  destruct (repo_GetActive w) as [w1 [patterns|e]]; simpl in *; [|done].
  specialize (Hrows _ _ eq_refl).
  assert (Hno : (length patterns =? 0)%nat && negb (String.eqb defaultPatternsPath "")
                = false).
  { destruct Hcase as [(id & row & Hid & Hact)| ->].
    - assert (row ∈ patterns) as Hin by (rewrite Hrows; apply active_elem_of; eauto).
      destruct patterns; [by apply elem_of_nil in Hin|done].
    - by rewrite andb_false_r. }
  rewrite Hno.
  by destruct (ClassificationService.refreshClassifier Compile s patterns).
Qed.

End Laws.

(** ** On a table of one pattern *)

Import GoStrings.

Definition stored_rule (id : UUID) (infoType text : string) (priority : Z)
    : ClassificationPattern :=
  {| cp_ID := id; cp_InformationType := infoType; cp_Pattern := text;
     cp_Description := ""; cp_Priority := priority; cp_IsActive := true;
     cp_CreatedAt := 10; cp_UpdatedAt := 10 |}.

Definition ssn_row : ClassificationPattern := stored_rule 1 InfoTypeSSN "ssn" 90.

Definition catalog : World :=
  {| classification_patterns := {[ 1%N := ssn_row ]};
     db_faults := []; clock := 50; uuids := [2%positive] |}.

(** the table after a pattern that does not compile has got into it *)
Definition catalog_poisoned : World :=
  {| classification_patterns :=
       {[ 1%N := ssn_row; 3%N := stored_rule 3 InfoTypeAccountNumber "*id" 50 ]};
     db_faults := []; clock := 50; uuids := [2%positive] |}.

Definition duplicate_key (key : string) : string :=
  "Error 1062: Duplicate entry for key '" ++ key ++ "'".

Definition no_seeds (path : string) : list patternSeed + string := inl [].

Definition request (infoType text : string) (priority : Z) : CreatePatternRequest :=
  {| req_InformationType := infoType; req_Pattern := text;
     req_Description := ""; req_Priority := priority |}.

Definition idle : ClassificationService.ClassificationService :=
  {| ClassificationService.matcher := None |}.

Definition create (req : CreatePatternRequest) (w : World) :=
  CreatePattern String.eqb duplicate_key GoRegexp.Compile idle req w.

Lemma replies_nil n w : db_faults w = [] → replies n w.
Proof. intros Hf i e _. by rewrite Hf, lookup_nil. Qed.

Lemma catalog_keyed : keyed catalog.
Proof.
  intros id row Hid. unfold catalog in Hid. simpl in Hid.
  apply lookup_singleton_Some in Hid as [<- <-]. reflexivity.
Qed.

Lemma catalog_new_text text :
  String.eqb "ssn" text = false → ¬ text_stored String.eqb text catalog.
Proof.
  intros Hne (id & row & Hid & Hs). unfold catalog in Hid. simpl in Hid.
  apply lookup_singleton_Some in Hid as [_ <-].
  change (cp_Pattern ssn_row) with "ssn" in Hs. congruence.
Qed.

Lemma X14_CreatePattern_existing_text_witness :
  text_stored String.eqb "ssn" catalog
  ∧ (create (request InfoTypeSSN "ssn" 70) catalog).2 = inr "pattern already exists".
Proof.
  assert (H : text_stored String.eqb "ssn" catalog) by (by exists 1%N, ssn_row).
  split; [exact H|].
  apply (X14_CreatePattern_existing_text String.eqb duplicate_key GoRegexp.Compile idle
           (request InfoTypeSSN "ssn" 70) catalog H).
  by apply replies_nil.
Defined.

Lemma X15_CreatePattern_stores_before_compiling_witness :
  GoRegexp.Compile "*id"
  = inr "error parsing regexp: missing argument to repetition operator: `*`"
  ∧ (∃ err, (create (request InfoTypeAccountNumber "*id" 50) catalog).2 = inr err)
  ∧ cp_Pattern
    <$> classification_patterns (create (request InfoTypeAccountNumber "*id" 50) catalog).1.2
        !! 2%N
    = Some "*id".
Proof.
  assert (H : GoRegexp.Compile "*id"
              = inr "error parsing regexp: missing argument to repetition operator: `*`")
    by reflexivity.
  split; [exact H|].
  destruct (X15_CreatePattern_stores_before_compiling String.eqb duplicate_key
              GoRegexp.Compile idle (request InfoTypeAccountNumber "*id" 50) catalog _
              (catalog_new_text "*id" eq_refl) eq_refl H (replies_nil 3 catalog eq_refl))
    as (Herr & _ & Htable & _).
  split; [exact Herr|]. unfold create. rewrite Htable. reflexivity.
Defined.

Lemma X16_bad_pattern_blocks_reload_witness :
  classification_patterns catalog_poisoned !! 3%N
  = Some (stored_rule 3 InfoTypeAccountNumber "*id" 50)
  ∧ is_Some (DeletePattern GoRegexp.Compile idle 1%N catalog_poisoned).2
  ∧ (DeletePattern GoRegexp.Compile idle 1%N catalog_poisoned).1.1 = idle
  ∧ classification_patterns (DeletePattern GoRegexp.Compile idle 1%N catalog_poisoned).1.2
      !! 1%N
    = None.
Proof.
  assert (H : classification_patterns catalog_poisoned !! 3%N
              = Some (stored_rule 3 InfoTypeAccountNumber "*id" 50)) by reflexivity.
  split; [exact H|].
  destruct (X16_bad_pattern_blocks_reload GoRegexp.Compile idle catalog_poisoned 3%N _
              "error parsing regexp: missing argument to repetition operator: `*`"
              H eq_refl eq_refl) as [_ Hdel].
  destruct (Hdel 1%N ltac:(discriminate)) as (Hs & Herr & Htable).
  split; [exact Herr|]. split; [exact Hs|].
  rewrite Htable; [by rewrite lookup_delete_eq|by eexists|by apply replies_nil].
Defined.

Lemma X17_DeletePattern_witness :
  (classification_patterns catalog !! 9%N = None
   ∧ (DeletePattern GoRegexp.Compile idle 9%N catalog).2
     = Some "classification pattern not found")
  ∧ ((DeletePattern GoRegexp.Compile idle 1%N catalog).2 = None
     ∧ classification_patterns (DeletePattern GoRegexp.Compile idle 1%N catalog).1.2 = ∅).
Proof.
  destruct (X17_DeletePattern GoRegexp.Compile idle 9%N catalog) as [Hmissing _].
  destruct (X17_DeletePattern GoRegexp.Compile idle 1%N catalog) as [_ Hdone].
  split.
  - split; [reflexivity|].
    by destruct (Hmissing eq_refl (replies_nil 1 catalog eq_refl)) as (Herr & _).
  - assert (H : (DeletePattern GoRegexp.Compile idle 1%N catalog).2 = None)
      by (vm_compute; reflexivity).
    split; [exact H|]. destruct (Hdone H) as (_ & -> & _).
    apply delete_singleton_eq.
Defined.

Lemma create_email_done :
  create (request InfoTypeEmailAddress "email" 80) catalog
  = ((create (request InfoTypeEmailAddress "email" 80) catalog).1.1,
     (create (request InfoTypeEmailAddress "email" 80) catalog).1.2, inl 2%N).
Proof. vm_compute. reflexivity. Qed.

Lemma X18_CreatePattern_takes_effect_witness :
  "email"
  ∈ (ClassificationService.ClassifyColumn TrimSpace_ascii ToLower_ascii
       (create (request InfoTypeEmailAddress "email" 80) catalog).1.1 " User_Email").2.
Proof.
  destruct (X18_CreatePattern_takes_effect String.eqb duplicate_key GoRegexp.Compile
              idle _ (request InfoTypeEmailAddress "email" 80) catalog _ 2%N
              create_email_done) as (now & compiled & _ & _ & _ & _ & Huse).
  apply (Huse TrimSpace_ascii ToLower_ascii " User_Email" (MustCompile "email"));
    [discriminate|reflexivity|vm_compute; reflexivity].
Defined.

Lemma X19_UpdatePattern_witness :
  (classification_patterns catalog !! 9%N = None
   ∧ (UpdatePattern String.eqb duplicate_key false GoRegexp.Compile idle 9%N
        (request InfoTypeSSN "social" 95) catalog).2
     = Some "classification pattern not found")
  ∧ (keyed catalog
     ∧ (UpdatePattern String.eqb duplicate_key false GoRegexp.Compile idle 1%N
          (request InfoTypeSSN "social" 95) catalog).2 = None
     ∧ ∃ row,
         classification_patterns
           (UpdatePattern String.eqb duplicate_key false GoRegexp.Compile idle 1%N
              (request InfoTypeSSN "social" 95) catalog).1.2 !! 1%N = Some row
         ∧ cp_Pattern row = "social" ∧ cp_CreatedAt row = 10%Z).
Proof.
  split.
  - destruct (X19_UpdatePattern String.eqb duplicate_key false GoRegexp.Compile idle
                9%N (request InfoTypeSSN "social" 95) catalog) as [Hmissing _].
    split; [reflexivity|].
    by destruct (Hmissing eq_refl (replies_nil 1 catalog eq_refl)) as (Herr & _).
  - destruct (X19_UpdatePattern String.eqb duplicate_key false GoRegexp.Compile idle
                1%N (request InfoTypeSSN "social" 95) catalog) as [_ Hdone].
    assert (H : (UpdatePattern String.eqb duplicate_key false GoRegexp.Compile idle 1%N
                   (request InfoTypeSSN "social" 95) catalog).2 = None)
      by (vm_compute; reflexivity).
    split; [exact catalog_keyed|]. split; [exact H|].
    destruct (Hdone catalog_keyed H)
      as (old & row & Hold & Htable & _ & Htext & _ & _ & _ & Hcreated & _).
    exists row. rewrite Htable, lookup_insert_eq. split; [done|]. split; [done|].
    rewrite Hcreated. unfold catalog in Hold. simpl in Hold.
    apply lookup_singleton_Some in Hold as [_ <-]. reflexivity.
Defined.

Lemma X20_ensurePatterns_without_seeding_witness :
  classification_patterns
    (ensurePatterns String.eqb duplicate_key GoRegexp.Compile no_seeds idle "" catalog).1.2
  = classification_patterns catalog.
Proof.
  apply (X20_ensurePatterns_without_seeding String.eqb duplicate_key GoRegexp.Compile
           no_seeds idle "" catalog).
  by right.
Defined.

(** with no pattern in the table and no default patterns, the service
    classifies no column *)
Example NewClassificationService_empty :
  (NewClassificationService String.eqb duplicate_key GoRegexp.Compile no_seeds ""
     {| classification_patterns := ∅; db_faults := []; clock := 0; uuids := [] |}).2
  = inl {| ClassificationService.matcher := Some {| patterns := [] |} |}
  ∧ ClassificationService.ClassifyColumn TrimSpace_ascii ToLower_ascii
      {| ClassificationService.matcher := Some {| patterns := [] |} |} "email"
    = (InfoTypeNA, of_int 0, []).
Proof. split; reflexivity. Qed.

End PatternLaws.
